(** * Puppeteer manager: a shallow embedding of the job orchestrator

    The source file [src/app/api/sessions/upload/route.ts] holds the upload
    route followed by two successive copies of the Puppeteer manager
    (lines 59-559 and lines 561-1076).  Both copies are embedded here, the
    first one in the modules whose name ends in [V1], the second in those
    ending in [V2]; what the two copies share is defined once.

    Left out, as they touch nothing the properties speak of: the calls of
    [console.log] and [console.error], the [dialog] handler registered on
    the page in post-and-comment, and the creation of [DATA_DIR] when the
    module is loaded.

    Layout of the development:
    - strings, character classes and the regular expressions of the source;
    - [sanitizeName] and the discovery pattern [urlsPattern];
    - the partition of group links over sessions;
    - asynchronous programs as trees of synchronous statements and
      suspension points, with try/catch/finally;
    - the three workflows and their worker pools;
    - [stopAll];
    - the properties. *)

From stdpp Require Import gmap strings list.
From Stdlib Require Import Ascii.
From Stdlib Require String.

Open Scope string_scope.
Open Scope list_scope.
Open Scope nat_scope.

(* ===================================================================== *)
(** ** Regular expressions of the source                                  *)
(* ===================================================================== *)

Module Regex.

(** One item of a bracketed class: a single character or a range. *)
Inductive ClassItem :=
| CChar (c : ascii)
| CRange (lo hi : ascii).

(** A bracketed class, [negated] when it starts with a caret. *)
Record CharClass := { negated : bool; items : list ClassItem }.

(** Canonicalisation used by the [i] flag when the [u] flag is absent:
    the character is upper-cased, and a character outside ASCII is never
    mapped into ASCII.  On the letters that matter here this maps
    [a..z] onto [A..Z] and leaves every other character alone. *)
Definition canonicalize (c : ascii) : ascii :=
  let n := nat_of_ascii c in
  if (97 <=? n) && (n <=? 122) then ascii_of_nat (n - 32) else c.

Definition item_has (ci : bool) (c : ascii) (it : ClassItem) : bool :=
  match it with
  | CChar d =>
      if ci then Ascii.eqb (canonicalize d) (canonicalize c) else Ascii.eqb d c
  | CRange lo hi =>
      let inside (x : ascii) :=
        (nat_of_ascii lo <=? nat_of_ascii x) && (nat_of_ascii x <=? nat_of_ascii hi) in
      if ci then
        existsb (fun k => let m := ascii_of_nat k in
                          inside m && Ascii.eqb (canonicalize m) (canonicalize c))
                (seq 0 256)
      else inside c
  end.

(** Does character [c] match the class, under case-insensitivity [ci]? *)
Definition class_test (ci : bool) (cls : CharClass) (c : ascii) : bool :=
  xorb (negated cls) (existsb (item_has ci c) (items cls)).

(** The regular expressions that occur in the source. *)
Inductive regex :=
| RVoid
| REps
| RSet (ci : bool) (cls : CharClass)
| RCat (r1 r2 : regex)
| RAlt (r1 r2 : regex)
| RStar (r : regex).

Definition RChr (c : ascii) : regex :=
  RSet false {| negated := false; items := [CChar c] |}.
Definition RPlus (r : regex) : regex := RCat r (RStar r).
Definition ROpt (r : regex) : regex := RAlt r REps.
Definition RDigit : regex :=
  RSet false {| negated := false; items := [CRange "0" "9"] |}.
Fixpoint RLit (s : list ascii) : regex :=
  match s with
  | [] => REps
  | c :: s' => RCat (RChr c) (RLit s')
  end.

(** Denotation: the words of a regular expression. *)
Inductive Matches : regex -> list ascii -> Prop :=
| MEps : Matches REps []
| MSet ci cls c : class_test ci cls c = true -> Matches (RSet ci cls) [c]
| MCat r1 r2 s1 s2 : Matches r1 s1 -> Matches r2 s2 -> Matches (RCat r1 r2) (s1 ++ s2)
| MAltL r1 r2 s : Matches r1 s -> Matches (RAlt r1 r2) s
| MAltR r1 r2 s : Matches r2 s -> Matches (RAlt r1 r2) s
| MStar0 r : Matches (RStar r) []
| MStarS r s1 s2 : Matches r s1 -> Matches (RStar r) s2 -> Matches (RStar r) (s1 ++ s2).

Fixpoint nullable (r : regex) : bool :=
  match r with
  | RVoid => false
  | REps => true
  | RSet _ _ => false
  | RCat r1 r2 => nullable r1 && nullable r2
  | RAlt r1 r2 => nullable r1 || nullable r2
  | RStar _ => true
  end.

Fixpoint deriv (c : ascii) (r : regex) : regex :=
  match r with
  | RVoid => RVoid
  | REps => RVoid
  | RSet ci cls => if class_test ci cls c then REps else RVoid
  | RCat r1 r2 =>
      if nullable r1 then RAlt (RCat (deriv c r1) r2) (deriv c r2)
      else RCat (deriv c r1) r2
  | RAlt r1 r2 => RAlt (deriv c r1) (deriv c r2)
  | RStar r1 => RCat (deriv c r1) (RStar r1)
  end.

(** The whole word [s] matches [r]. *)
Fixpoint full_match (r : regex) (s : list ascii) : bool :=
  match s with
  | [] => nullable r
  | c :: s' => full_match (deriv c r) s'
  end.

(** A pattern as it is written in the source: body, anchors, [i] flag
    (the [i] flag is carried by the classes of the body). *)
Record pattern := { body : regex; anchor_start : bool; anchor_end : bool }.

(** Some prefix of [s] matches [r]. *)
Fixpoint prefix_match (r : regex) (s : list ascii) : bool :=
  nullable r ||
  match s with
  | [] => false
  | c :: s' => prefix_match (deriv c r) s'
  end.

Definition match_here (p : pattern) (s : list ascii) : bool :=
  if anchor_end p then full_match (body p) s else prefix_match (body p) s.

(** [RegExp.prototype.test] (without the [g] and [y] flags): is there a
    match starting at some position of the subject? *)
Fixpoint search (p : pattern) (s : list ascii) : bool :=
  match_here p s ||
  match s with
  | [] => false
  | _ :: s' => if anchor_start p then false else search p s'
  end.

Definition test (p : pattern) (s : string) : bool :=
  search p (String.list_ascii_of_string s).

(** [String.prototype.replace] with a global pattern that is a single
    character class: every matching character is replaced. *)
Fixpoint replace_class (ci : bool) (cls : CharClass) (by_ : string) (s : string) : string :=
  match s with
  | EmptyString => EmptyString
  | String c s' =>
      (if class_test ci cls c then by_ else String c EmptyString)
        +:+ replace_class ci cls by_ s'
  end.

End Regex.

(* ===================================================================== *)
(** ** Session directory: names                                           *)
(* ===================================================================== *)

(** [/[^a-z0-9_.@-]/ig] *)
Definition sanitize_class : Regex.CharClass :=
  {| Regex.negated := true;
     Regex.items := [Regex.CRange "a" "z"; Regex.CRange "0" "9";
                     Regex.CChar "_"; Regex.CChar "."; Regex.CChar "@"; Regex.CChar "-"] |}.

(** [function sanitizeName(s) { return s.replace(/[^a-z0-9_.@-]/ig, '_'); }] *)
Definition sanitizeName (s : string) : string :=
  Regex.replace_class true sanitize_class "_" s.

(** [/facebook\.com\/groups\/\d+\/?$/] *)
Definition urlsPattern : Regex.pattern :=
  {| Regex.body :=
       Regex.RCat (Regex.RLit (String.list_ascii_of_string "facebook.com/groups/"))
         (Regex.RCat (Regex.RPlus Regex.RDigit) (Regex.ROpt (Regex.RChr "/")));
     Regex.anchor_start := false;
     Regex.anchor_end := true |}.

(** The pattern the specification gives for sanitised names,
    [^[a-zA-Z0-9_.@-]*$]. *)
Definition safe_name_pattern : Regex.pattern :=
  {| Regex.body :=
       Regex.RStar (Regex.RSet false
         {| Regex.negated := false;
            Regex.items := [Regex.CRange "a" "z"; Regex.CRange "A" "Z"; Regex.CRange "0" "9";
                            Regex.CChar "_"; Regex.CChar "."; Regex.CChar "@"; Regex.CChar "-"] |});
     Regex.anchor_start := true;
     Regex.anchor_end := true |}.

(* ===================================================================== *)
(** ** Group join: partition of the links over the sessions               *)
(* ===================================================================== *)

Module Partition.

(** [Math.floor(idx / groupsPerSession)] on non-negative integers.  A
    division by zero gives [Infinity] (or [NaN] at index 0), which the
    comparison [sessionIndex < sessionNames.length] rejects: [None]. *)
Definition floor_div (idx groupsPerSession : nat) : option nat :=
  if decide (groupsPerSession = 0) then None else Some (idx / groupsPerSession).

(** [for (i...) groupsBySession[sessionNames[i]] = [];] *)
Definition init (sessionNames : list string) : gmap string (list string) :=
  foldl (fun m name => <[name := []]> m) ∅ sessionNames.

(** [groupsBySession[sessName].push(link)]; the lookup of a missing key
    is [undefined], on which [push] raises a TypeError: [None]. *)
Definition push_link (m : gmap string (list string)) (sessName link : string)
  : option (gmap string (list string)) :=
  l ← m !! sessName; Some (<[sessName := l ++ [link]]> m).

(** The callback of [groupLinks.forEach((link, idx) => ...)]. *)
Definition assign (sessionNames : list string) (groupsPerSession : nat)
    (m : gmap string (list string)) (idx : nat) (link : string)
  : option (gmap string (list string)) :=
  match floor_div idx groupsPerSession with
  | Some sessionIndex =>
      if decide (sessionIndex < length sessionNames) then
        match sessionNames !! sessionIndex with
        | Some sessName => push_link m sessName link
        | None => None
        end
      else Some m
  | None => Some m
  end.

Fixpoint forEach (sessionNames : list string) (groupsPerSession : nat)
    (idx : nat) (groupLinks : list string) (m : gmap string (list string))
  : option (gmap string (list string)) :=
  match groupLinks with
  | [] => Some m
  | link :: rest =>
      m' ← assign sessionNames groupsPerSession m idx link;
      forEach sessionNames groupsPerSession (S idx) rest m'
  end.

(** Lines 209-220: the table [groupsBySession], built once, before the
    workers are created. *)
Definition groupsBySession (sessionNames groupLinks : list string)
    (groupsPerSession : nat) : option (gmap string (list string)) :=
  forEach sessionNames groupsPerSession 0 groupLinks (init sessionNames).

(** The callback for an integer [groupsPerSession] of either sign.  With a
    negative one, the quotient at index 0 is [-0]: it is below
    [sessionNames.length] unless there is no session, and selects
    [sessionNames[0]].  At every later index the quotient is a negative
    integer: it is below the length and selects no element, [sessName] is
    [undefined], and the key looked up is the string [undefined]. *)
Definition assign_int (sessionNames : list string) (groupsPerSession : Z)
    (m : gmap string (list string)) (idx : nat) (link : string)
  : option (gmap string (list string)) :=
  if decide (0 <= groupsPerSession)%Z then
    assign sessionNames (Z.to_nat groupsPerSession) m idx link
  else
    match idx with
    | 0 =>
        match sessionNames !! 0 with
        | Some sessName => push_link m sessName link
        | None => Some m
        end
    | S _ => push_link m "undefined" link
    end.

Fixpoint forEach_int (sessionNames : list string) (groupsPerSession : Z)
    (idx : nat) (groupLinks : list string) (m : gmap string (list string))
  : option (gmap string (list string)) :=
  match groupLinks with
  | [] => Some m
  | link :: rest =>
      m' ← assign_int sessionNames groupsPerSession m idx link;
      forEach_int sessionNames groupsPerSession (S idx) rest m'
  end.

(** Lines 209-220 for an integer [groupsPerSession] of either sign. *)
Definition groupsBySession_int (sessionNames groupLinks : list string)
    (groupsPerSession : Z) : option (gmap string (list string)) :=
  forEach_int sessionNames groupsPerSession 0 groupLinks (init sessionNames).


End Partition.

(* ===================================================================== *)
(** ** Data model                                                         *)
(* ===================================================================== *)

(** [type Account = { nomorAkun: string; email: string; password: string }] *)
Record Account := { nomorAkun : string; email : string; password : string }.

(** Handles of the browser automation library; two handles are the same
    object exactly when their numbers agree. *)
Inductive Browser := BrowserH (id : nat).
Inductive Page := PageH (id : nat).
Inductive Elem := ElemH (id : nat).
Inductive Chooser := ChooserH (id : nat).
Inductive Process := ProcessH (pid : nat).

#[global] Instance Browser_eq_dec : EqDecision Browser.
Proof. solve_decision. Defined.
#[global] Instance Process_eq_dec : EqDecision Process.
Proof. solve_decision. Defined.

(** A JavaScript error.  [String(err)] is [Error.prototype.toString]: the
    name alone when the message is empty, the message alone when the name
    is empty, and otherwise the name, a colon and the message. *)
Record Error := { err_name : string; err_message : string }.
Definition String_of_error (e : Error) : string :=
  if decide (err_name e = EmptyString) then err_message e
  else if decide (err_message e = EmptyString) then err_name e
  else err_name e +:+ ": " +:+ err_message e.

(** [summary: { success, failed, total }] of one session in group join. *)
Record SessionSummary := { s_success : nat; s_failed : nat; s_total : nat }.

(** One entry of [sessionResults]: [{ group, ok }] or [{ group, ok, message }]. *)
Record GroupResult := { g_group : string; g_ok : bool; g_message : option string }.

(** The records pushed on [results]; the array is typed [any[]] and four
    shapes occur.  Only [AttemptOutcome] has no [ok] field. *)
Inductive Outcome :=
| AccountOutcome (o_nomorAkun o_email : string) (ok : bool)
    (path : option string) (message : option string)
| JoinOutcome (session : string) (ok : bool) (message : string)
    (summary : SessionSummary) (groups : list GroupResult)
| AttemptOutcome (post comment : bool) (message : string)
| PostOutcome (session : string) (group : option string) (ok : bool)
    (message : option string).

(** [r.ok]: [None] is [undefined]. *)
Definition ok_field (r : Outcome) : option bool :=
  match r with
  | AccountOutcome _ _ ok _ _ => Some ok
  | JoinOutcome _ ok _ _ _ => Some ok
  | AttemptOutcome _ _ _ => None
  | PostOutcome _ _ ok _ => Some ok
  end.

(** [summary: { success: successCount, failed: failCount }] *)
Record Summary := { success : nat; failed : nat }.

(** [results.filter(r => r.ok === true).length] and
    [results.filter(r => r.ok === false).length] *)
Definition summarize (results : list Outcome) : Summary :=
  {| success := length (filter (fun r => ok_field r = Some true) results);
     failed := length (filter (fun r => ok_field r = Some false) results) |}.

(** The job object stored in [JOBS]. *)
Record Job := { browsers : list Browser; stopRequested : bool }.

(** A selector fragment between double quotes. *)
Definition quoted (s : string) : string :=
  String (ascii_of_nat 34) (s +:+ String (ascii_of_nat 34) EmptyString).

(** [path.join] and [path.normalize] of Node.js on POSIX paths: the
    non-empty arguments are joined by [/] and the result is normalised:
    empty and [.] segments are dropped, a [..] segment removes the segment
    before it (if that is not itself [..]), a leading and a trailing [/]
    are kept, and the empty result is [.]. *)
Module NodePath.

Definition slash : ascii := "/"%char.
Definition dot : list ascii := ["."%char].
Definition dotdot : list ascii := ["."%char; "."%char].

(** The segments of a path, between its separators. *)
Fixpoint split (s : list ascii) : list (list ascii) :=
  match s with
  | [] => [[]]
  | c :: s' =>
      if Ascii.eqb c slash then [] :: split s'
      else match split s' with
           | seg :: segs => (c :: seg) :: segs
           | [] => [[c]]
           end
  end.

(** [normalizeString] on one segment; [res] holds the segments kept so
    far.  Above the root of an absolute path a [..] segment is dropped. *)
Definition push_segment (allowAboveRoot : bool) (res : list (list ascii))
    (seg : list ascii) : list (list ascii) :=
  if bool_decide (seg = []) || bool_decide (seg = dot) then res
  else if bool_decide (seg = dotdot) then
    match last res with
    | Some l =>
        if bool_decide (l = dotdot) then
          if allowAboveRoot then res ++ [seg] else res
        else take (length res - 1) res
    | None => if allowAboveRoot then res ++ [seg] else res
    end
  else res ++ [seg].

Definition normalizeString (segs : list (list ascii)) (allowAboveRoot : bool)
  : list (list ascii) :=
  foldl (push_segment allowAboveRoot) [] segs.

Fixpoint join_segments (segs : list (list ascii)) : list ascii :=
  match segs with
  | [] => []
  | [seg] => seg
  | seg :: rest => seg ++ slash :: join_segments rest
  end.

Definition normalize (path : string) : string :=
  let s := String.list_ascii_of_string path in
  match s with
  | [] => "."
  | c :: _ =>
      let isAbsolute := Ascii.eqb c slash in
      let trailingSeparator := bool_decide (last s = Some slash) in
      let res := join_segments (normalizeString (split s) (negb isAbsolute)) in
      match res with
      | [] => if isAbsolute then "/" else if trailingSeparator then "./" else "."
      | _ =>
          String.string_of_list_ascii
            ((if isAbsolute then [slash] else [])
             ++ res ++ (if trailingSeparator then [slash] else []))
      end
  end.

Definition join (args : list string) : string :=
  match filter (fun arg => arg ≠ EmptyString) args with
  | [] => "."
  | parts =>
      normalize
        (String.string_of_list_ascii
           (join_segments (String.list_ascii_of_string <$> parts)))
  end.

End NodePath.

(** [path.join(a, b)] *)
Definition path_join (a b : string) : string := NodePath.join [a; b].

(* ===================================================================== *)
(** ** Asynchronous programs                                              *)
(* ===================================================================== *)

(** Promises the code awaits: calls into the browser automation library and
    timers.  The index is the type of the fulfilment value. *)
Inductive Call : Type -> Type :=
| Launch (userDataDir : string) : Call Browser
| NewPage (b : Browser) : Call Page
| Close (b : Browser) : Call unit
| Goto (p : Page) (url : string) : Call unit
| WaitForSelector (p : Page) (selector : string) : Call (option Elem)
| TypeInto (p : Page) (selector text : string) : Call unit
| KeyboardPress (p : Page) (key : string) : Call unit
| KeyboardType (p : Page) (text : string) : Call unit
| Delay (ms : N) : Call unit
| RaceNavigationDelay (p : Page) (ms : N) : Call unit
| ClickElem (e : Elem) : Call unit
| Click (p : Page) (selector : string) : Call unit
| Focus (e : Elem) : Call unit
| ChooserAndClick (p : Page) (selector : string) : Call Chooser
| Accept (c : Chooser) (file : string) : Call unit
| Reload (p : Page) : Call unit
| QueryAll (p : Page) (selector : string) : Call (list Elem)
| EvaluateHref (p : Page) (e : Elem) : Call string.

(** A settled promise. *)
Inductive Settled (T : Type) :=
| Fulfilled (v : T)
| Rejected (err : Error).
Arguments Fulfilled {T} v.
Arguments Rejected {T} err.

(** Synchronous statements that touch state shared between tasks, the file
    system or the page. *)
Inductive Stmt : Type -> Type :=
| StopRequested : Stmt bool
| ResultsPush (r : Outcome) : Stmt unit
| ExistsSync (path : string) : Stmt bool
| MkdirSync (path : string) : Stmt (option Error)
| BrowsersPush (b : Browser) : Stmt unit
| BrowsersRemove (b : Browser) : Stmt unit
| PageUrl (p : Page) : Stmt string.

(** The body of an async function: a tree whose [Await] nodes are the
    suspension points; everything between two of them runs atomically. *)
Inductive Prog (R : Type) : Type :=
| Ret (r : R)
| Throw (e : Error)
| Do {T : Type} (s : Stmt T) (k : T -> Prog R)
| Await {T : Type} (c : Call T) (k : Settled T -> Prog R).
Arguments Ret {R} r.
Arguments Throw {R} e.
Arguments Do {R T} s k.
Arguments Await {R T} c k.

Fixpoint bind {A B : Type} (p : Prog A) (f : A -> Prog B) : Prog B :=
  match p with
  | Ret a => f a
  | Throw e => Throw e
  | Do s k => Do s (fun v => bind (k v) f)
  | Await c k => Await c (fun v => bind (k v) f)
  end.

#[global] Instance Prog_ret : MRet Prog := @Ret.
#[global] Instance Prog_bind : MBind Prog := fun A B f p => bind p f.

(** [try { p } catch (err) { h err }] *)
Fixpoint try_catch {R : Type} (p : Prog R) (h : Error -> Prog R) : Prog R :=
  match p with
  | Ret r => Ret r
  | Throw e => h e
  | Do s k => Do s (fun v => try_catch (k v) h)
  | Await c k => Await c (fun v => try_catch (k v) h)
  end.

(** [try { p } finally { f }]: [f] runs on every exit of [p]; when [f]
    itself throws, its error replaces the completion of [p]. *)
Fixpoint try_finally {R : Type} (p : Prog R) (f : Prog unit) : Prog R :=
  match p with
  | Ret r => bind f (fun _ => Ret r)
  | Throw e => bind f (fun _ => Throw e)
  | Do s k => Do s (fun v => try_finally (k v) f)
  | Await c k => Await c (fun v => try_finally (k v) f)
  end.

(** [await c] *)
Definition await {T : Type} (c : Call T) : Prog T :=
  Await c (fun s => match s with Fulfilled v => Ret v | Rejected e => Throw e end).

(** [await c.catch(() => d)] *)
Definition await_catch {T : Type} (c : Call T) (d : T) : Prog T :=
  Await c (fun s => match s with Fulfilled v => Ret v | Rejected _ => Ret d end).

(** [await delay(ms)]: the timer promise never rejects. *)
Definition delay (ms : N) : Prog unit := Await (Delay ms) (fun _ => Ret tt).

Definition stmt {T : Type} (s : Stmt T) : Prog T := Do s Ret.

(** [fs.mkdirSync(path, { recursive: true })] *)
Definition mkdirSync (path : string) : Prog unit :=
  Do (MkdirSync path) (fun r => match r with Some e => Throw e | None => Ret tt end).

(** How an iteration of the worker's [while] loop ends: it falls through to
    the loop test (also on [continue]), or it leaves the loop by [break]. *)
Inductive LoopCtl := Next | Break.

(** *** The world outside the process *)

Inductive Event :=
| EvCall {T : Type} (c : Call T).

(** [respond n c] settles the call [c] issued as the [n]-th call of the run;
    [mkdir_error] is the error [mkdirSync] raises on a path, if any;
    [page_url n p] is [p.url()] after [n] calls; [browser_process b] is
    [b.process()], [None] for [null]. *)
Record World := {
  DATA_DIR : string;
  respond : forall T : Type, nat -> Call T -> Settled T;
  mkdir_error : string -> option Error;
  page_url : nat -> Page -> string;
  browser_process : Browser -> option Process
}.

(** The state shared by the tasks of one orchestration call: the closure
    variables [index] (or [sessionIndex], [idx]) and [results], the job
    object, whether [JOBS] still holds it, the directories that exist (the
    paths on which [fs.existsSync] answers [true], spelled as [path.join]
    returns them), and the calls issued so far. *)
Record Store := {
  index : nat;
  results : list Outcome;
  job : Job;
  registered : bool;
  dirs : list string;
  trace : list Event
}.

Definition set_index (i : nat) (st : Store) : Store :=
  {| index := i; results := results st; job := job st;
     registered := registered st; dirs := dirs st; trace := trace st |}.
Definition set_results (rs : list Outcome) (st : Store) : Store :=
  {| index := index st; results := rs; job := job st;
     registered := registered st; dirs := dirs st; trace := trace st |}.
Definition set_job (j : Job) (st : Store) : Store :=
  {| index := index st; results := results st; job := j;
     registered := registered st; dirs := dirs st; trace := trace st |}.
Definition set_registered (b : bool) (st : Store) : Store :=
  {| index := index st; results := results st; job := job st;
     registered := b; dirs := dirs st; trace := trace st |}.
Definition set_dirs (ds : list string) (st : Store) : Store :=
  {| index := index st; results := results st; job := job st;
     registered := registered st; dirs := ds; trace := trace st |}.
Definition set_trace (tr : list Event) (st : Store) : Store :=
  {| index := index st; results := results st; job := job st;
     registered := registered st; dirs := dirs st; trace := tr |}.

Definition exec_stmt {T : Type} (W : World) (s : Stmt T) (st : Store) : T * Store :=
  match s in Stmt T0 return (T0 * Store)%type with
  | StopRequested => (stopRequested (job st), st)
  | ResultsPush r => (tt, set_results (results st ++ [r]) st)
  | ExistsSync p => (bool_decide (p ∈ dirs st), st)
  | MkdirSync p =>
      match mkdir_error W p with
      | Some e => (Some e, st)
      | None => (None, set_dirs (p :: dirs st) st)
      end
  | BrowsersPush b =>
      (tt, set_job {| browsers := browsers (job st) ++ [b];
                      stopRequested := stopRequested (job st) |} st)
  | BrowsersRemove b =>
      (tt, set_job {| browsers := filter (fun x => x ≠ b) (browsers (job st));
                      stopRequested := stopRequested (job st) |} st)
  | PageUrl p => (page_url W (length (trace st)) p, st)
  end.

(** Where a task stands after running up to its next suspension point. *)
Inductive Susp (R : Type) :=
| Done (r : R)
| Raised (e : Error)
| Blocked (ev : Event) (rest : Prog R).
Arguments Done {R} r.
Arguments Raised {R} e.
Arguments Blocked {R} ev rest.

(** Run a task until it returns, throws or awaits.  The awaited call is
    issued (and logged) now; [rest] is what the task does once the call has
    settled, whenever the scheduler resumes it. *)
Fixpoint run {R : Type} (W : World) (p : Prog R) (st : Store) : Susp R * Store :=
  match p with
  | Ret r => (Done r, st)
  | Throw e => (Raised e, st)
  | Do s k => let '(v, st') := exec_stmt W s st in run W (k v) st'
  | Await c k =>
      (Blocked (EvCall c) (k (respond W _ (length (trace st)) c)),
       set_trace (trace st ++ [EvCall c]) st)
  end.

(* ===================================================================== *)
(** ** Worker pool                                                        *)
(* ===================================================================== *)

(** A worker task: suspended on a call, returned, or rejected. *)
Inductive Worker :=
| Waiting (ev : Event) (rest : Prog LoopCtl)
| Exited
| Crashed (e : Error).

(** What the scheduler does next: it resumes worker [w] (the promise the
    worker awaits has settled), or [stopAll] is called from outside. *)
Inductive SchedEvent :=
| Resume (w : nat)
| StopAllCalled.

Record Config := { pool : list Worker; store : Store }.

Section Pool.

Variable W : World.
(** [items.length] and the body of the [while] loop for a claimed index. *)
Variable N : nat.
Variable body : nat -> Prog LoopCtl.

(** [while (index < items.length && !job.stopRequested) { const i = index++; body }]
    run until the worker suspends or ends.  Every iteration claims an
    index, so [S (N - index)] iterations are never exceeded. *)
Fixpoint worker_loop (fuel : nat) (st : Store) : Worker * Store :=
  match fuel with
  | 0 => (Exited, st)
  | S fuel' =>
      if (index st <? N) && negb (stopRequested (job st)) then
        match run W (body (index st)) (set_index (S (index st)) st) with
        | (Done Next, st') => worker_loop fuel' st'
        | (Done Break, st') => (Exited, st')
        | (Raised e, st') => (Crashed e, st')
        | (Blocked ev rest, st') => (Waiting ev rest, st')
        end
      else (Exited, st)
  end.

(** [worker()] from the loop test on. *)
Definition worker (st : Store) : Worker * Store :=
  worker_loop (S (N - index st)) st.

(** The continuation of a suspended worker. *)
Definition resume (rest : Prog LoopCtl) (st : Store) : Worker * Store :=
  match run W rest st with
  | (Done Next, st') => worker st'
  | (Done Break, st') => (Exited, st')
  | (Raised e, st') => (Crashed e, st')
  | (Blocked ev rest', st') => (Waiting ev rest', st')
  end.

(** [Array.from({ length: concurrency }, () => worker())]: each call of
    [worker()] runs synchronously up to its first suspension point. *)
Fixpoint spawn (concurrency : nat) (st : Store) : list Worker * Store :=
  match concurrency with
  | 0 => ([], st)
  | S c =>
      let '(w, st1) := worker st in
      let '(ws, st2) := spawn c st1 in
      (w :: ws, st2)
  end.

(** What [stopAll] does to this job: if [JOBS] still holds it, the flag is
    raised and the entry is cleared. *)
Definition stop_requested_by_stopAll (st : Store) : Store :=
  if registered st then
    set_registered false
      (set_job {| browsers := browsers (job st); stopRequested := true |} st)
  else st.

Definition step (ev : SchedEvent) (cfg : Config) : Config :=
  match ev with
  | Resume w =>
      match pool cfg !! w with
      | Some (Waiting _ rest) =>
          let '(wk, st') := resume rest (store cfg) in
          {| pool := <[w := wk]> (pool cfg); store := st' |}
      | _ => cfg
      end
  | StopAllCalled =>
      {| pool := pool cfg; store := stop_requested_by_stopAll (store cfg) |}
  end.

Definition steps (evs : list SchedEvent) (cfg : Config) : Config :=
  foldl (fun c ev => step ev c) cfg evs.

(** The state of [Promise.all(workers)]. *)
Inductive AllState :=
| AllPending
| AllFulfilled
| AllRejected (e : Error).

Fixpoint promise_all (ws : list Worker) : AllState :=
  match ws with
  | [] => AllFulfilled
  | Crashed e :: _ => AllRejected e
  | Exited :: ws' => promise_all ws'
  | Waiting _ _ :: ws' =>
      match promise_all ws' with
      | AllRejected e => AllRejected e
      | _ => AllPending
      end
  end.

(** [await Promise.all(workers)]: the caller stays suspended while the
    schedule runs, until all workers have returned or one has rejected.
    [None]: the schedule ended with the caller still suspended. *)
Fixpoint await_all (evs : list SchedEvent) (cfg : Config)
  : option (Settled unit * Config * list SchedEvent) :=
  match promise_all (pool cfg) with
  | AllFulfilled => Some (Fulfilled tt, cfg, evs)
  | AllRejected e => Some (Rejected e, cfg, evs)
  | AllPending =>
      match evs with
      | [] => None
      | ev :: evs' => await_all evs' (step ev cfg)
      end
  end.

Definition exited (w : Worker) : bool :=
  match w with Waiting _ _ => false | _ => true end.

End Pool.

(** What an orchestration call hands to its caller.  [ret_results] is the
    content of the [results] array at the moment the call settles; the array
    itself stays shared with the workers, its content at any later time is
    [results] of the store. *)
Record Returned := {
  ret_jobId : string;
  ret_results : list Outcome;
  ret_summary : Summary
}.

(** The outcome of an orchestration call on a schedule: the call is still
    suspended when the schedule ends, it resolves, or it rejects.  The
    configuration is the one at that moment, the schedule what is left. *)
Inductive CallState (R : Type) :=
| Suspended
| Resolved (r : R) (cfg : Config) (evs : list SchedEvent)
| Failed (e : Error) (cfg : Config) (evs : list SchedEvent).
Arguments Suspended {R}.
Arguments Resolved {R} r cfg evs.
Arguments Failed {R} e cfg evs.

(** The store of a fresh call: [JOBS.set(jobId, { browsers: [], stopRequested: false })],
    [let index = 0], [const results = []]. *)
Definition fresh_store (existing_dirs : list string) : Store :=
  {| index := 0; results := [];
     job := {| browsers := []; stopRequested := false |};
     registered := true; dirs := existing_dirs; trace := [] |}.

(** [ensureUserDir(userId)] *)
Definition ensureUserDir (W : World) (userId : string) : Prog string :=
  let dir := path_join (DATA_DIR W) userId in
  ex ← stmt (ExistsSync dir);
  (if ex : bool then Ret tt else mkdirSync dir);;
  Ret dir.

(** [accounts[i].nomorAkun] and the like on an index outside the array. *)
Definition TypeError_undefined : Error :=
  {| err_name := "TypeError";
     err_message := "Cannot read properties of undefined" |}.

(* ===================================================================== *)
(** ** Session creation, first copy (lines 102-193)                       *)
(* ===================================================================== *)

Module CreateV1.

Definition failure (acc : Account) : Outcome :=
  AccountOutcome (nomorAkun acc) (email acc) false None
    (Some "Gagal login atau selector berubah").

Definition created (acc : Account) (sessionPath : string) : Outcome :=
  AccountOutcome (nomorAkun acc) (email acc) true (Some sessionPath) None.

(** Lines 114-171, for [acc = accounts[i]]. *)
Definition item (userDir : string) (acc : Account) : Prog LoopCtl :=
  let sessName := sanitizeName (nomorAkun acc) in
  let sessionPath := path_join userDir sessName in
  try_catch
    (ex ← stmt (ExistsSync sessionPath);
     (if ex : bool then Ret tt else mkdirSync sessionPath);;
     browser ← await (Launch sessionPath);
     stmt (BrowsersPush browser);;
     page ← await (NewPage browser);
     await_catch (Goto page "https://www.facebook.com") tt;;
     try_catch
       (await (WaitForSelector page "#email");;
        await (TypeInto page "#email" (email acc));;
        await (TypeInto page "#pass" (password acc));;
        await (KeyboardPress page "Enter");;
        Await (RaceNavigationDelay page 8000%N) (fun _ => Ret tt);;
        delay 180000%N;;
        stmt (ResultsPush (created acc sessionPath)))
       (fun _ => stmt (ResultsPush (failure acc)));;
     await (Close browser);;
     stmt (BrowsersRemove browser))
    (fun _ => stmt (ResultsPush (failure acc)));;
  stop ← stmt StopRequested;
  if stop : bool then Ret Break else Ret Next.

Definition body (userDir : string) (accounts : list Account) (i : nat) : Prog LoopCtl :=
  match accounts !! i with
  | Some acc => item userDir acc
  | None => Throw TypeError_undefined
  end.

(** [startCreateSessions(userId, accounts, concurrency)] on a world, the
    directories that exist, and a schedule. *)
Definition startCreateSessions (W : World) (existing : list string) (jobId : string)
    (userId : string) (accounts : list Account) (concurrency : nat)
    (evs : list SchedEvent) : CallState Returned :=
  match run W (ensureUserDir W userId) (fresh_store existing) with
  | (Done userDir, st) =>
      let N := length accounts in
      let '(ws, st1) := spawn W N (body userDir accounts) concurrency st in
      (* await Promise.all(workers) *)
      match await_all W N (body userDir accounts) evs {| pool := ws; store := st1 |} with
      | None => Suspended
      | Some (Rejected e, cfg, evs') => Failed e cfg evs'
      | Some (Fulfilled _, cfg, evs') =>
          (* JOBS.delete(jobId) *)
          let st2 := set_registered false (store cfg) in
          Resolved {| ret_jobId := jobId;
                      ret_results := results st2;
                      ret_summary := summarize (results st2) |}
                   {| pool := pool cfg; store := st2 |} evs'
      end
  | (Raised e, st) => Failed e {| pool := []; store := st |} evs
  | (Blocked _ _, _) => Suspended
  end.

End CreateV1.

(* ===================================================================== *)
(** ** Session creation, second copy (lines 604-692)                      *)
(* ===================================================================== *)

Module CreateV2.

(** The template literal of lines 612-617, without its line breaks. *)
Definition successSelector : string :=
  "[aria-label=" +:+ quoted "Buat cerita" +:+ "], [aria-label="
    +:+ quoted "Video siaran langsung" +:+ "], [aria-label="
    +:+ quoted "Create story" +:+ "], [aria-label=" +:+ quoted "Live video" +:+ "]".

Definition emailInput : string :=
  "input[name=" +:+ quoted "email" +:+ "][type=" +:+ quoted "text" +:+ "]".
Definition passInput : string :=
  "input[name=" +:+ quoted "pass" +:+ "][type=" +:+ quoted "password" +:+ "]".

Definition already_valid (acc : Account) (sessionPath : string) : Outcome :=
  AccountOutcome (nomorAkun acc) (email acc) true (Some sessionPath)
    (Some "Sesi sudah ada dan valid").
Definition logged_in (acc : Account) (sessionPath : string) : Outcome :=
  AccountOutcome (nomorAkun acc) (email acc) true (Some sessionPath)
    (Some "Login berhasil, sesi baru dibuat").
Definition login_failed (acc : Account) : Outcome :=
  AccountOutcome (nomorAkun acc) (email acc) false None
    (Some "Gagal login: email/password salah atau halaman berubah.").
Definition open_failed (acc : Account) : Outcome :=
  AccountOutcome (nomorAkun acc) (email acc) false None
    (Some "Gagal membuka browser atau koneksi ke Facebook bermasalah.").

(** Lines 636-664: the part of the [try] block that runs once [browser]
    is assigned. *)
Definition session (acc : Account) (sessionPath : string) (browser : Browser)
  : Prog unit :=
  page ← await (NewPage browser);
  await (Goto page "https://www.facebook.com");;
  try_catch
    (await (WaitForSelector page successSelector);;
     stmt (ResultsPush (already_valid acc sessionPath)))
    (fun _ =>
       try_catch
         (await (WaitForSelector page emailInput);;
          await (TypeInto page emailInput (email acc));;
          await (TypeInto page passInput (password acc));;
          await (KeyboardPress page "Enter");;
          await (WaitForSelector page successSelector);;
          stmt (ResultsPush (logged_in acc sessionPath)))
         (fun _ => stmt (ResultsPush (login_failed acc)))).

(** Lines 622-676.  The variable [browser] is [null] until [launch] has
    fulfilled: an error before that point reaches the [catch] block and
    the [finally] block finds nothing to close; from then on the [finally]
    block closes the browser, whatever the [try] and [catch] blocks do. *)
Definition item (userDir : string) (acc : Account) : Prog LoopCtl :=
  let sessName := sanitizeName (nomorAkun acc) in
  let sessionPath := path_join userDir sessName in
  launched ← try_catch
    (ex ← stmt (ExistsSync sessionPath);
     (if ex : bool then Ret tt else mkdirSync sessionPath);;
     browser ← await (Launch sessionPath);
     Ret (Some browser))
    (fun _ => stmt (ResultsPush (open_failed acc));; Ret None);
  match launched with
  | Some browser =>
      try_finally
        (try_catch (session acc sessionPath browser)
           (fun _ => stmt (ResultsPush (open_failed acc))))
        (await (Close browser))
  | None => Ret tt
  end;;
  stop ← stmt StopRequested;
  if stop : bool then Ret Break else Ret Next.

Definition body (userDir : string) (accounts : list Account) (i : nat) : Prog LoopCtl :=
  match accounts !! i with
  | Some acc => item userDir acc
  | None => Throw TypeError_undefined
  end.

(** Lines 604-692: the workers are created, [Promise.all(workers)] is
    built but not awaited, and the call goes on at once to delete the job
    and to compute the summary. *)
Definition startCreateSessions (W : World) (existing : list string) (jobId : string)
    (userId : string) (accounts : list Account) (concurrency : nat)
    (evs : list SchedEvent) : CallState Returned :=
  match run W (ensureUserDir W userId) (fresh_store existing) with
  | (Done userDir, st) =>
      let N := length accounts in
      let '(ws, st1) := spawn W N (body userDir accounts) concurrency st in
      (* Promise.all(workers); JOBS.delete(jobId) *)
      let st2 := set_registered false st1 in
      Resolved {| ret_jobId := jobId;
                  ret_results := results st2;
                  ret_summary := summarize (results st2) |}
               {| pool := ws; store := st2 |} evs
  | (Raised e, st) => Failed e {| pool := []; store := st |} evs
  | (Blocked _ _, _) => Suspended
  end.

End CreateV2.

(* ===================================================================== *)
(** ** Group join (lines 195-309 and 694-805)                             *)
(* ===================================================================== *)

(** What [startJoinGroups] returns: [{ jobId, results }]. *)
Record JoinReturned := { jret_jobId : string; jret_results : list Outcome }.

Module Join.

(** The local variables [sessionSuccess], [sessionFail], [sessionResults]. *)
Record Tally := { sessionSuccess : nat; sessionFail : nat; sessionResults : list GroupResult }.

Definition tally0 : Tally :=
  {| sessionSuccess := 0; sessionFail := 0; sessionResults := [] |}.

(** [sessionResults.push({ group: link, ok: joined });
     if (joined) sessionSuccess++; else sessionFail++;] *)
Definition record_visit (t : Tally) (link : string) (joined : bool) : Tally :=
  {| sessionSuccess := if joined then S (sessionSuccess t) else sessionSuccess t;
     sessionFail := if joined then sessionFail t else S (sessionFail t);
     sessionResults := sessionResults t
       ++ [{| g_group := link; g_ok := joined; g_message := None |}] |}.

(** [sessionResults.push({ group: link, ok: false, message: err.message });
     sessionFail++;] *)
Definition record_error (t : Tally) (link : string) (err : Error) : Tally :=
  {| sessionSuccess := sessionSuccess t;
     sessionFail := S (sessionFail t);
     sessionResults := sessionResults t
       ++ [{| g_group := link; g_ok := false; g_message := Some (err_message err) |}] |}.

Definition missing (sessName : string) : Outcome :=
  JoinOutcome sessName false "Session folder tidak ditemukan"
    {| s_success := 0; s_failed := 1; s_total := 1 |} [].

Definition finished (sessName : string) (t : Tally) : Outcome :=
  JoinOutcome sessName true "Selesai"
    {| s_success := sessionSuccess t;
       s_failed := sessionFail t;
       s_total := sessionSuccess t + sessionFail t |}
    (sessionResults t).

Section Copy.

(** The two copies differ in the selector of the join button and in
    what is done when it is absent. *)
Variable joinSelector : string.
Variable when_absent : Page -> Prog unit.

(** The [for (const link of groupsForThisSession)] loop. *)
Fixpoint visit_links (page : Page) (links : list string) (t : Tally) : Prog Tally :=
  match links with
  | [] => Ret t
  | link :: rest =>
      stop ← stmt StopRequested;
      if stop : bool then Ret t
      else
        t' ← try_catch
          (await (Goto page link);;
           joinBtn ← await_catch (WaitForSelector page joinSelector) None;
           joined ← match joinBtn with
                    | Some btn =>
                        delay 1000%N;;
                        await_catch (ClickElem btn) tt;;
                        delay 3000%N;;
                        Ret true
                    | None => when_absent page;; Ret false
                    end;
           Ret (record_visit t link joined))
          (fun err => Ret (record_error t link err));
        visit_links page rest t'
  end.

(** One iteration of the worker's loop, for [sessName = sessionNames[i]]. *)
Definition item (userDir : string) (groupsBySession : gmap string (list string))
    (sessName : string) : Prog LoopCtl :=
  let sessionPath := path_join userDir (sanitizeName sessName) in
  ex ← stmt (ExistsSync sessionPath);
  if negb ex then
    stmt (ResultsPush (missing sessName));;
    Ret Next
  else
    browser ← await (Launch sessionPath);
    stmt (BrowsersPush browser);;
    try_finally
      (page ← await (NewPage browser);
       let groupsForThisSession := default [] (groupsBySession !! sessName) in
       t ← visit_links page groupsForThisSession tally0;
       stmt (ResultsPush (finished sessName t)))
      (await_catch (Close browser) tt;;
       stmt (BrowsersRemove browser));;
    Ret Next.

Definition body (userDir : string) (groupsBySession : gmap string (list string))
    (sessionNames : list string) (i : nat) : Prog LoopCtl :=
  match sessionNames !! i with
  | Some sessName => item userDir groupsBySession sessName
  | None => Throw TypeError_undefined
  end.

Definition startJoinGroups (W : World) (existing : list string) (jobId : string)
    (userId : string) (sessionNames groupLinks : list string)
    (concurrency groupsPerSession : nat) (evs : list SchedEvent)
  : CallState JoinReturned :=
  match run W (ensureUserDir W userId) (fresh_store existing) with
  | (Done userDir, st) =>
      match Partition.groupsBySession sessionNames groupLinks groupsPerSession with
      | None => Failed TypeError_undefined {| pool := []; store := st |} evs
      | Some groupsBySession =>
          let N := length sessionNames in
          let b := body userDir groupsBySession sessionNames in
          let '(ws, st1) := spawn W N b concurrency st in
          match await_all W N b evs {| pool := ws; store := st1 |} with
          | None => Suspended
          | Some (Rejected e, cfg, evs') => Failed e cfg evs'
          | Some (Fulfilled _, cfg, evs') =>
              let st2 := set_registered false (store cfg) in
              Resolved {| jret_jobId := jobId; jret_results := results st2 |}
                       {| pool := pool cfg; store := st2 |} evs'
          end
      end
  | (Raised e, st) => Failed e {| pool := []; store := st |} evs
  | (Blocked _ _, _) => Suspended
  end.

End Copy.

End Join.

Module JoinV1.
Definition joinSelector : string := "xpath///span[text()='Gabung ke grup']".
Definition when_absent (page : Page) : Prog unit := Ret tt.
Definition item := Join.item joinSelector when_absent.
Definition startJoinGroups := Join.startJoinGroups joinSelector when_absent.
End JoinV1.

Module JoinV2.
Definition joinSelector : string :=
  "xpath///span[text()=" +:+ quoted "Gabung ke grup" +:+ "]".
(** [await page.click('xpath///span[text()="Join Group"]').catch(() => null);] *)
Definition when_absent (page : Page) : Prog unit :=
  await_catch (Click page ("xpath///span[text()=" +:+ quoted "Join Group" +:+ "]")) tt.
Definition item := Join.item joinSelector when_absent.
Definition startJoinGroups := Join.startJoinGroups joinSelector when_absent.
End JoinV2.

(* ===================================================================== *)
(** ** Post and comment (lines 311-540 and 807-1057)                      *)
(* ===================================================================== *)

Module Post.

(** [if (job.stopRequested) return false;] followed by [k]. *)
Definition unless_stopped (k : Prog bool) : Prog bool :=
  stop ← stmt StopRequested;
  if stop : bool then Ret false else k.

(** [if (btn) await btn.click().catch(()=>{});] *)
Definition click_if_found (btn : option Elem) : Prog unit :=
  match btn with
  | Some b => await_catch (ClickElem b) tt
  | None => Ret tt
  end.

(** [postCommentDirectly(page, text)] *)
Definition postCommentDirectly (commentSelector : string) (page : Page) (text : string)
  : Prog bool :=
  try_catch
    (commentTextbox ← await (WaitForSelector page commentSelector);
     match commentTextbox with
     | None => Ret false
     | Some box =>
         await (Focus box);;
         await (KeyboardType page text);;
         delay 5000%N;;
         await (KeyboardPress page "Enter");;
         Ret true
     end)
    (fun _ => Ret false).

Definition photoButton : string := "div[aria-label=" +:+ quoted "Foto/video" +:+ "]".

(** The composer sequence all branches share, from the wait for the
    "create" button to the push of the attempt record. *)
Definition compose (commentSelector createSelector areaWaited areaTyped submitSelector : string)
    (page : Page) (imagePath text captionText : string) : Prog bool :=
  createAnonBtn ← await_catch (WaitForSelector page createSelector) None;
  unless_stopped
    (click_if_found createAnonBtn;;
     await_catch (WaitForSelector page areaWaited) None;;
     unless_stopped
       (fileChooser ← await (ChooserAndClick page photoButton);
        unless_stopped
          (await (Accept fileChooser imagePath);;
           await (TypeInto page areaTyped captionText);;
           await (WaitForSelector page submitSelector);;
           await (Click page submitSelector);;
           commentOk ← postCommentDirectly commentSelector page text;
           (if commentOk : bool
            then stmt (ResultsPush (AttemptOutcome true true "Postingan dan komentar berhasil"))
            else stmt (ResultsPush (AttemptOutcome true false "Postingan ditangguhkan")));;
           Ret true))).

(** [currentUrl.endsWith('/')] *)
Definition endsWith_slash (s : string) : bool :=
  match reverse (String.list_ascii_of_string s) with
  | c :: _ => Ascii.eqb c "/"
  | [] => false
  end.

Definition buySellUrl (currentUrl : string) : string :=
  if endsWith_slash currentUrl
  then currentUrl +:+ "buy_sell_discussion"
  else currentUrl +:+ "/buy_sell_discussion".

(** The [catch (err)] block of an attempt: [Some b] is [return b], [None]
    goes on with the next attempt. *)
Definition on_error (MAX_ATTEMPTS attempt : nat) (page : Page) (err : Error)
  : Prog (option bool) :=
  stop ← stmt StopRequested;
  if stop : bool then Ret (Some false)
  else if attempt <? MAX_ATTEMPTS then
    await_catch (Reload page) tt;;
    delay 5000%N;;
    Ret None
  else
    stmt (ResultsPush (AttemptOutcome false false (String_of_error err)));;
    Ret (Some false).

(** [for (let attempt = ...; attempt <= MAX_ATTEMPTS; attempt++)], with
    [remaining] iterations left. *)
Fixpoint attempts (try_block : Prog bool) (MAX_ATTEMPTS : nat) (page : Page)
    (remaining attempt : nat) : Prog bool :=
  match remaining with
  | 0 => Ret false
  | S remaining' =>
      stop ← stmt StopRequested;
      if stop : bool then Ret false
      else
        r ← try_catch (b ← try_block; Ret (Some b))
                      (on_error MAX_ATTEMPTS attempt page);
        match r with
        | Some b => Ret b
        | None => attempts try_block MAX_ATTEMPTS page remaining' (S attempt)
        end
  end.

(** [if (urlsPattern.test(url)) urls.push(url);] *)
Definition push_if_group (urls : list string) (url : string) : list string :=
  if Regex.test urlsPattern url then urls ++ [url] else urls.

Section Workflow.

(** [attemptPostingWithRetries(page, imagePath, text, job, results, captionText)]
    of the copy at hand. *)
Variable attemptPostingWithRetries : Page -> string -> string -> string -> Prog bool.

Definition not_found (sessName : string) : Outcome :=
  PostOutcome sessName None false (Some "session tidak ditemukan").
Definition no_groups (sessName : string) : Outcome :=
  PostOutcome sessName None false (Some "Gagal ambil pinned groups").

(** [for (const link of linkElements) { const url = ...; push_if_group }] *)
Fixpoint collect (page : Page) (linkElements : list Elem) (urls : list string)
  : Prog (list string) :=
  match linkElements with
  | [] => Ret urls
  | link :: rest =>
      url ← await (EvaluateHref page link);
      collect page rest (push_if_group urls url)
  end.

(** [for (const url of urls) { ... }] *)
Fixpoint post_all (sessName : string) (page : Page)
    (imagePath commentText captionText : string) (urls : list string) : Prog unit :=
  match urls with
  | [] => Ret tt
  | url :: rest =>
      stop ← stmt StopRequested;
      if stop : bool then Ret tt
      else
        await_catch (Goto page url) tt;;
        stop' ← stmt StopRequested;
        if stop' : bool then Ret tt
        else
          ok ← attemptPostingWithRetries page imagePath commentText captionText;
          stmt (ResultsPush (PostOutcome sessName (Some url) ok None));;
          delay 5000%N;;
          post_all sessName page imagePath commentText captionText rest
  end.

Definition pinnedSelector : string := "xpath///a[.//i]".

(** One iteration of the worker's loop, for [sessName = sessionNames[i]]. *)
Definition item (userDir : string) (imagePath commentText captionText : string)
    (sessName : string) : Prog LoopCtl :=
  let sessionPath := path_join userDir (sanitizeName sessName) in
  ex ← stmt (ExistsSync sessionPath);
  if negb ex then
    stmt (ResultsPush (not_found sessName));;
    Ret Next
  else
    browser ← await (Launch sessionPath);
    stmt (BrowsersPush browser);;
    try_finally
      (page ← await (NewPage browser);
       stop ← stmt StopRequested;
       if stop : bool then Ret Break
       else
         await_catch (Goto page "https://www.facebook.com/groups/feed/") tt;;
         try_catch
           (await_catch (WaitForSelector page pinnedSelector) None;;
            stop' ← stmt StopRequested;
            if stop' : bool then Ret Break
            else
              linkElements ← await (QueryAll page pinnedSelector);
              urls ← collect page linkElements [];
              post_all sessName page imagePath commentText captionText urls;;
              Ret Next)
           (fun _ => stmt (ResultsPush (no_groups sessName));; Ret Next))
      (await_catch (Close browser) tt;;
       stmt (BrowsersRemove browser)).

Definition body (userDir : string) (imagePath commentText captionText : string)
    (sessionNames : list string) (i : nat) : Prog LoopCtl :=
  match sessionNames !! i with
  | Some sessName => item userDir imagePath commentText captionText sessName
  | None => Throw TypeError_undefined
  end.

Definition startPostAndComment (W : World) (existing : list string) (jobId : string)
    (userId : string) (sessionNames : list string)
    (imagePath commentText : string) (concurrency : nat) (captionText : string)
    (evs : list SchedEvent) : CallState Returned :=
  match run W (ensureUserDir W userId) (fresh_store existing) with
  | (Done userDir, st) =>
      let N := length sessionNames in
      let b := body userDir imagePath commentText captionText sessionNames in
      let '(ws, st1) := spawn W N b concurrency st in
      match await_all W N b evs {| pool := ws; store := st1 |} with
      | None => Suspended
      | Some (Rejected e, cfg, evs') => Failed e cfg evs'
      | Some (Fulfilled _, cfg, evs') =>
          let st2 := set_registered false (store cfg) in
          Resolved {| ret_jobId := jobId;
                      ret_results := results st2;
                      ret_summary := summarize (results st2) |}
                   {| pool := pool cfg; store := st2 |} evs'
      end
  | (Raised e, st) => Failed e {| pool := []; store := st |} evs
  | (Blocked _ _, _) => Suspended
  end.

End Workflow.

End Post.

Module PostV1.

Definition commentSelector : string :=
  "div[aria-label=" +:+ quoted "Komentari sebagai Peserta anonim"
    +:+ "][role=" +:+ quoted "textbox" +:+ "]".
Definition anonSelector : string := "xpath///span[text()='Postingan Anonim']".
Definition createSelector : string := "xpath///span[text()='Buat Postingan Anonim']".
Definition textAreaSelector : string :=
  "div[aria-placeholder=" +:+ quoted "Kirim postingan anonim..." +:+ "]".
Definition postButtonSelector : string :=
  "div[aria-label=" +:+ quoted "Kirim" +:+ "][role=" +:+ quoted "button"
    +:+ "]:not([aria-disabled=" +:+ quoted "true" +:+ "])".

Definition compose : Page -> string -> string -> string -> Prog bool :=
  Post.compose commentSelector createSelector textAreaSelector textAreaSelector
    postButtonSelector.

(** Lines 345-436: the [try] block of one attempt. *)
Definition try_block (page : Page) (imagePath text captionText : string) : Prog bool :=
  anonBtn ← await_catch (WaitForSelector page anonSelector) None;
  match anonBtn with
  | Some btn =>
      Post.unless_stopped
        (await_catch (ClickElem btn) tt;;
         compose page imagePath text captionText)
  | None =>
      currentUrl ← stmt (PageUrl page);
      await_catch (Goto page (Post.buySellUrl currentUrl)) tt;;
      Post.unless_stopped
        (anonBtn' ← await_catch (WaitForSelector page anonSelector) None;
         Post.unless_stopped
           (Post.click_if_found anonBtn';;
            compose page imagePath text captionText))
  end.

Definition MAX_ATTEMPTS : nat := 2.

Definition attemptPostingWithRetries (page : Page) (imagePath text captionText : string)
  : Prog bool :=
  Post.attempts (try_block page imagePath text captionText) MAX_ATTEMPTS page
    MAX_ATTEMPTS 1.

Definition startPostAndComment := Post.startPostAndComment attemptPostingWithRetries.

End PostV1.

Module PostV2.

Definition commentSelector : string :=
  "div[aria-label=" +:+ quoted "Komentari sebagai Peserta anonim" +:+ "]".
Definition anonSelector : string := "[aria-label='Postingan anonim']".
Definition altAnonSelector : string := "[aria-label='Anonymous post']".
Definition createSelector : string :=
  "xpath///span[text()=" +:+ quoted "Buat Postingan Anonim" +:+ "]".
Definition altCreateSelector : string :=
  "xpath///span[text()=" +:+ quoted "Create Anonymous Post" +:+ "]".
Definition area : string := "[aria-placeholder=" +:+ quoted "Kirim postingan anonim..." +:+ "]".
Definition divArea : string := "div" +:+ area.
Definition altArea : string :=
  "[aria-placeholder=" +:+ quoted "Submit anonymous post..." +:+ "]".
Definition submitSelector : string :=
  "[aria-label=" +:+ quoted "Kirim" +:+ "][role=" +:+ quoted "button" +:+ "]".
Definition altSubmitSelector : string :=
  "[aria-label=" +:+ quoted "Submit" +:+ "][role=" +:+ quoted "button" +:+ "]".

(** Lines 840-953: the [try] block of one attempt. *)
Definition try_block (page : Page) (imagePath text captionText : string) : Prog bool :=
  anonBtn ← await_catch (WaitForSelector page anonSelector) None;
  match anonBtn with
  | Some btn =>
      Post.unless_stopped
        (await_catch (ClickElem btn) tt;;
         Post.compose commentSelector createSelector area area submitSelector
           page imagePath text captionText)
  | None =>
      altAnonBtn ← await_catch (WaitForSelector page altAnonSelector) None;
      match altAnonBtn with
      | Some btn =>
          await_catch (ClickElem btn) tt;;
          Post.compose commentSelector altCreateSelector altArea altArea altSubmitSelector
            page imagePath text captionText
      | None =>
          currentUrl ← stmt (PageUrl page);
          await_catch (Goto page (Post.buySellUrl currentUrl)) tt;;
          Post.unless_stopped
            (anonBtn' ← await_catch (WaitForSelector page anonSelector) None;
             Post.unless_stopped
               (Post.click_if_found anonBtn';;
                Post.compose commentSelector createSelector divArea area submitSelector
                  page imagePath text captionText))
      end
  end.

Definition MAX_ATTEMPTS : nat := 2.

Definition attemptPostingWithRetries (page : Page) (imagePath text captionText : string)
  : Prog bool :=
  Post.attempts (try_block page imagePath text captionText) MAX_ATTEMPTS page
    MAX_ATTEMPTS 1.

Definition startPostAndComment := Post.startPostAndComment attemptPostingWithRetries.

End PostV2.

(* ===================================================================== *)
(** ** A task on its own                                                  *)
(* ===================================================================== *)

(** Run a task to its end when every call it awaits is settled by the world
    and no other task touches what it reads.  [cancel n] tells whether
    [stopAll] is called while the task is suspended on the call issued at
    position [n]. *)
Definition suspend {T : Type} (cancel : nat -> bool) (c : Call T) (st : Store) : Store :=
  let st1 := set_trace (trace st ++ [EvCall c]) st in
  if cancel (length (trace st)) then stop_requested_by_stopAll st1 else st1.

Fixpoint finish {R : Type} (W : World) (cancel : nat -> bool) (p : Prog R) (st : Store)
  : (R + Error) * Store :=
  match p with
  | Ret r => (inl r, st)
  | Throw e => (inr e, st)
  | Do s k => let '(v, st') := exec_stmt W s st in finish W cancel (k v) st'
  | Await c k =>
      finish W cancel (k (respond W _ (length (trace st)) c)) (suspend cancel c st)
  end.

(** The record a statement pushes on [results], if it is a push. *)
Definition pushed {T : Type} (s : Stmt T) : option Outcome :=
  match s with
  | ResultsPush r => Some r
  | _ => None
  end.

(** Whatever the world answers, every record the program pushes satisfies
    [P] and every value it returns satisfies [Q]. *)
Inductive Yields (P : Outcome -> Prop) {R : Type} (Q : R -> Prop) : Prog R -> Prop :=
| Yields_Ret r : Q r -> Yields P Q (Ret r)
| Yields_Throw e : Yields P Q (Throw e)
| Yields_Do {T : Type} (s : Stmt T) (k : T -> Prog R) :
    (forall r, pushed s = Some r -> P r) ->
    (forall v, Yields P Q (k v)) ->
    Yields P Q (Do s k)
| Yields_Await {T : Type} (c : Call T) (k : Settled T -> Prog R) :
    (forall v, Yields P Q (k v)) ->
    Yields P Q (Await c k).

Definition Pushes (P : Outcome -> Prop) {R : Type} (p : Prog R) : Prop :=
  Yields P (fun _ => True) p.

(** The calls of a trace that navigate a page. *)
Definition is_goto (ev : Event) : bool :=
  match ev with
  | EvCall (Goto _ _) => true
  | EvCall _ => false
  end.

Definition is_probe (ev : Event) : bool :=
  match ev with
  | EvCall (WaitForSelector _ _) => true
  | EvCall _ => false
  end.

Definition launched (ev : Event) : option string :=
  match ev with
  | EvCall (Launch d) => Some d
  | EvCall _ => None
  end.

Definition closed (b : Browser) (ev : Event) : bool :=
  match ev with
  | EvCall (Close b') => bool_decide (b' = b)
  | EvCall _ => false
  end.

(** The call a worker is suspended on. *)
Definition waiting_on (w : Worker) : option Event :=
  match w with
  | Waiting ev _ => Some ev
  | _ => None
  end.

(* ===================================================================== *)
(** ** The job registry and [stopAll] (lines 542-559 and 1059-1076)       *)
(* ===================================================================== *)

Module Registry.

(** [JOBS]: a [Map] from job id to job object, in insertion order. *)
Definition Table := list (string * Job).

(** What [stopAll] does, in order. *)
Inductive Action :=
| FlagSet (id : string)
| CloseCalled (b : Browser)
| KillCalled (proc : Process) (signal : string).

(** The body of [for (const b of j.browsers)]: [n] is the position of the
    [close] call among the calls of the run. *)
Definition close_or_kill (W : World) (n : nat) (b : Browser) : list Action :=
  CloseCalled b ::
  match respond W _ n (Close b) with
  | Fulfilled _ => []
  | Rejected _ =>
      match browser_process W b with
      | Some proc => [KillCalled proc "SIGKILL"]
      | None => []
      end
  end.

Fixpoint close_browsers (W : World) (n : nat) (bs : list Browser) : list Action :=
  match bs with
  | [] => []
  | b :: bs' => close_or_kill W n b ++ close_browsers W (S n) bs'
  end.

(** The [for (const [id, j] of JOBS.entries())] loop: the job objects as
    they are afterwards, and the actions taken. *)
Fixpoint sweep (W : World) (n : nat) (entries : Table) : Table * list Action :=
  match entries with
  | [] => ([], [])
  | (id, j) :: rest =>
      let j' := {| browsers := browsers j; stopRequested := true |} in
      let '(objs, acts) := sweep W (n + length (browsers j)) rest in
      ((id, j') :: objs, FlagSet id :: close_browsers W n (browsers j) ++ acts)
  end.

(** The result of [stopAll()]: the job objects (which the workers still
    hold), the table [JOBS], and the actions taken.  The loop is taken
    over the entries and browser lists as they are when [stopAll] is
    called. *)
Record Stopped := {
  objects : Table;
  table : Table;
  actions : list Action
}.

Definition stopAll (W : World) (n : nat) (JOBS : Table) : Stopped :=
  let '(objs, acts) := sweep W n JOBS in
  {| objects := objs;
     table := [];     (* JOBS.clear() *)
     actions := acts |}.

(** The browsers the table tracks. *)
Definition tracked (JOBS : Table) : list Browser :=
  JOBS ≫= (fun e => browsers e.2).

End Registry.

(* ===================================================================== *)
(** ** The shape the specification gives to a discovered group URL        *)
(* ===================================================================== *)

Module GroupUrl.

Definition is_digit (c : ascii) : bool :=
  (48 <=? nat_of_ascii c) && (nat_of_ascii c <=? 57).

(** [s] ends with [facebook.com/groups/], one or more digits and at most
    one slash: what [urlsPattern] accepts. *)
Definition tail_shape (s : list ascii) : Prop :=
  exists pre digits slash,
    s = pre ++ String.list_ascii_of_string "facebook.com/groups/" ++ digits ++ slash
    /\ digits <> [] /\ forallb is_digit digits = true
    /\ (slash = [] \/ slash = ["/"%char]).

Fixpoint strip_prefix (pre s : list ascii) : option (list ascii) :=
  match pre, s with
  | [], _ => Some s
  | c :: pre', d :: s' => if Ascii.eqb c d then strip_prefix pre' s' else None
  | _ :: _, [] => None
  end.

(** Split at the first slash: host and path (the path keeps its slash). *)
Fixpoint split_host (s : list ascii) : list ascii * list ascii :=
  match s with
  | [] => ([], [])
  | c :: s' =>
      if Ascii.eqb c "/" then ([], s)
      else let '(h, p) := split_host s' in (c :: h, p)
  end.

Definition ends_with (suffix s : list ascii) : bool :=
  match strip_prefix (reverse suffix) (reverse s) with
  | Some _ => true
  | None => false
  end.

(** The host is [facebook.com] or one of its subdomains. *)
Definition facebook_host (h : list ascii) : bool :=
  bool_decide (h = String.list_ascii_of_string "facebook.com")
  || ends_with (String.list_ascii_of_string ".facebook.com") h.

(** The leading digits of [s] and what follows them. *)
Fixpoint span_digits (s : list ascii) : list ascii * list ascii :=
  match s with
  | [] => ([], [])
  | c :: s' =>
      if is_digit c then let '(ds, r) := span_digits s' in (c :: ds, r)
      else ([], s)
  end.

(** The path is [/groups/<digits>] with at most a trailing slash. *)
Definition group_root_path (p : list ascii) : bool :=
  match strip_prefix (String.list_ascii_of_string "/groups/") p with
  | Some rest =>
      let '(digits, after) := span_digits rest in
      negb (bool_decide (digits = []))
      && (bool_decide (after = []) || bool_decide (after = ["/"%char]))
  | None => false
  end.

(** Follows the specification's words: "a facebook.com group URL whose
    path is /groups/<digits> with at most a trailing slash and nothing
    else". *)
Definition numeric_group_root (url : string) : bool :=
  let s := String.list_ascii_of_string url in
  let after_scheme :=
    match strip_prefix (String.list_ascii_of_string "https://") s with
    | Some r => Some r
    | None => strip_prefix (String.list_ascii_of_string "http://") s
    end in
  match after_scheme with
  | Some r => let '(h, p) := split_host r in facebook_host h && group_root_path p
  | None => false
  end.

End GroupUrl.

(* ===================================================================== *)
(** ** Definitions used to state the properties                           *)
(* ===================================================================== *)

(** A character of [[a-zA-Z0-9_.@-]]. *)
Definition safe_char (c : ascii) : bool :=
  let n := nat_of_ascii c in
  ((97 <=? n) && (n <=? 122)) || ((65 <=? n) && (n <=? 90))
  || ((48 <=? n) && (n <=? 57))
  || Ascii.eqb c "_" || Ascii.eqb c "." || Ascii.eqb c "@" || Ascii.eqb c "-".

Fixpoint string_map (f : ascii -> ascii) (s : string) : string :=
  match s with
  | EmptyString => EmptyString
  | String c s' => String (f c) (string_map f s')
  end.

Fixpoint string_forall (f : ascii -> bool) (s : string) : bool :=
  match s with
  | EmptyString => true
  | String c s' => f c && string_forall f s'
  end.

(** The links at positions [idx], [idx + 1], ... whose position [i]
    satisfies [sessionNames[i / k] = name]. *)
Fixpoint links_from (sessionNames : list string) (k : nat) (name : string)
    (idx : nat) (groupLinks : list string) : list string :=
  match groupLinks with
  | [] => []
  | link :: rest =>
      (if decide (sessionNames !! (idx / k) = Some name) then [link] else [])
        ++ links_from sessionNames k name (S idx) rest
  end.

(** The record has an [ok] field. *)
Definition has_ok (r : Outcome) : Prop := is_Some (ok_field r).

#[global] Instance has_ok_dec r : Decision (has_ok r).
Proof. unfold has_ok. apply _. Defined.

(** What a suspended worker, and a configuration, can still push. *)
Definition worker_pushes (P : Outcome -> Prop) (w : Worker) : Prop :=
  match w with
  | Waiting _ rest => Pushes P rest
  | _ => True
  end.

Definition config_pushes (P : Outcome -> Prop) (cfg : Config) : Prop :=
  Forall P (results (store cfg)) /\ Forall (worker_pushes P) (pool cfg).

(** The two records group join pushes: the "folder not found" record, and
    the record of a session whose folder exists, on which the summary adds
    up and counts the entries of [groups]. *)
Definition join_record (r : Outcome) : Prop :=
  (exists sessName, r = Join.missing sessName)
  \/ (exists sessName summary groups,
        r = JoinOutcome sessName true "Selesai" summary groups
        /\ s_success summary + s_failed summary = s_total summary
        /\ s_total summary = length groups).

(** The local counters agree with [sessionResults]. *)
Definition tally_ok (t : Join.Tally) : Prop :=
  Join.sessionSuccess t + Join.sessionFail t = length (Join.sessionResults t).

(* ===================================================================== *)
(** ** Worlds and inputs used in the examples                             *)
(* ===================================================================== *)

Module Examples.

Fixpoint href_of (feed : list (Elem * string)) (e : nat) : string :=
  match feed with
  | [] => EmptyString
  | (ElemH e', url) :: rest => if decide (e' = e) then url else href_of rest e
  end.

(** The value a call fulfils with: handle number [n] for a call issued at
    position [n]; the feed page shows the anchors [feed]. *)
Definition fulfil (feed : list (Elem * string)) {T : Type} (n : nat) (c : Call T) : T :=
  match c in Call T0 return T0 with
  | Launch _ => BrowserH n
  | NewPage _ => PageH n
  | WaitForSelector _ _ => Some (ElemH n)
  | ChooserAndClick _ _ => ChooserH n
  | QueryAll _ _ => feed.*1
  | EvaluateHref _ (ElemH e) => href_of feed e
  | Close _ | Goto _ _ | TypeInto _ _ _ | KeyboardPress _ _ | KeyboardType _ _
  | Delay _ | RaceNavigationDelay _ _ | ClickElem _ | Click _ _ | Focus _
  | Accept _ _ | Reload _ => tt
  end.

(** The error of every call that rejects in the examples. *)
Definition timeout : Error :=
  {| err_name := "TimeoutError"; err_message := "Timed out after waiting 30000ms" |}.

(** A world in which the calls selected by [bad] reject and all others
    fulfil. *)
Definition world (feed : list (Elem * string)) (bad : Event -> bool) : World :=
  {| DATA_DIR := "./data";
     respond := fun T n c =>
       if bad (EvCall c) then Rejected timeout else Fulfilled (fulfil feed n c);
     mkdir_error := fun _ => None;
     page_url := fun _ _ => "https://www.facebook.com/groups/1";
     browser_process := fun b => match b with BrowserH n => Some (ProcessH n) end |}.

Definition happy : World := world [] (fun _ => false).

Definition is_newPage (ev : Event) : bool :=
  match ev with
  | EvCall (NewPage _) => true
  | EvCall _ => false
  end.

Definition is_close (ev : Event) : bool :=
  match ev with
  | EvCall (Close _) => true
  | EvCall _ => false
  end.


Definition acc1 : Account :=
  {| nomorAkun := "111"; email := "a@x.com"; password := "p" |}.

Definition never : nat -> bool := fun _ => false.

End Examples.

(* ===================================================================== *)
(** ** What a task does on every path                                     *)
(* ===================================================================== *)

(** The effects of a task that its caller and the other tasks can observe:
    a record pushed on [results], a browser added to or removed from
    [job.browsers], a call issued. *)
Inductive Effect :=
| Pushed (r : Outcome)
| Tracked (b : Browser)
| Untracked (b : Browser)
| Called (ev : Event).

Definition effect_of {T : Type} (s : Stmt T) : list Effect :=
  match s with
  | ResultsPush r => [Pushed r]
  | BrowsersPush b => [Tracked b]
  | BrowsersRemove b => [Untracked b]
  | _ => []
  end.

Definition pushes (m : list Effect) : list Outcome :=
  m ≫= fun e => match e with Pushed r => [r] | _ => [] end.

Definition calls (m : list Effect) : list Event :=
  m ≫= fun e => match e with Called ev => [ev] | _ => [] end.

(** [job.browsers] after the effects [m]. *)
Definition track (m : list Effect) (bs : list Browser) : list Browser :=
  foldl (fun bs e =>
           match e with
           | Tracked b => bs ++ [b]
           | Untracked b => filter (fun x => x ≠ b) bs
           | _ => bs
           end) bs m.

(** Whatever the world answers and whatever the shared state holds: when the
    task returns [r] after the effects [m], [Pr m r] holds; when it throws
    [e] after the effects [m], [Pt m e] holds. *)
Fixpoint Ends {R : Type} (Pr : list Effect -> R -> Prop)
    (Pt : list Effect -> Error -> Prop) (p : Prog R) : Prop :=
  match p with
  | Ret r => Pr [] r
  | Throw e => Pt [] e
  | Do s k =>
      forall v, Ends (fun m => Pr (effect_of s ++ m)) (fun m => Pt (effect_of s ++ m)) (k v)
  | Await c k =>
      forall v, Ends (fun m => Pr (Called (EvCall c) :: m))
                     (fun m => Pt (Called (EvCall c) :: m)) (k v)
  end.

(** The task never throws. *)
Definition NoThrow {R : Type} (p : Prog R) : Prop :=
  Ends (fun _ _ => True) (fun _ _ => False) p.

(** The store [st'] is [st] after the effects [m]. *)
Definition Replays (st : Store) (m : list Effect) (st' : Store) : Prop :=
  results st' = results st ++ pushes m
  /\ trace st' = trace st ++ calls m
  /\ browsers (job st') = track m (browsers (job st)).

(** Every record pushed before the first suspension point satisfies [P]. *)
Fixpoint Sync (P : Outcome -> Prop) {R : Type} (p : Prog R) : Prop :=
  match p with
  | Do s k => (forall r, pushed s = Some r -> P r) /\ forall v, Sync P (k v)
  | _ => True
  end.

(** No worker of the pool has rejected, and none can. *)
Definition worker_nothrow (w : Worker) : Prop :=
  match w with
  | Waiting _ rest => NoThrow rest
  | Exited => True
  | Crashed _ => False
  end.

(** The program never adds a browser to [job.browsers]. *)
Fixpoint Trackless {R : Type} (p : Prog R) : Prop :=
  match p with
  | Do (BrowsersPush _) _ => False
  | Do _ k => forall v, Trackless (k v)
  | Await _ k => forall v, Trackless (k v)
  | _ => True
  end.

Definition worker_trackless (w : Worker) : Prop :=
  match w with
  | Waiting _ rest => Trackless rest
  | _ => True
  end.

(** A task that holds the browser [h] (it has added it to [job.browsers] and
    not yet removed it; [None]: it holds none): on every path it adds a
    browser only while it holds none and removes only the one it holds; it
    holds [hr] when it returns and [ht] when it throws. *)
Fixpoint Holds {R : Type} (h hr ht : option Browser) (p : Prog R) : Prop :=
  match p with
  | Ret _ => h = hr
  | Throw _ => h = ht
  | Do s k =>
      match effect_of s with
      | [Tracked b] => h = None /\ forall v, Holds (Some b) hr ht (k v)
      | [Untracked b] => h = Some b /\ forall v, Holds None hr ht (k v)
      | _ => forall v, Holds h hr ht (k v)
      end
  | Await _ k => forall v, Holds h hr ht (k v)
  end.

(** The task neither adds a browser to [job.browsers] nor removes one. *)
Definition Quiet {R : Type} (p : Prog R) : Prop := forall h, Holds h h h p.

(** The browser a worker of the pool holds. *)
Definition worker_holds (w : Worker) (h : option Browser) : Prop :=
  match w with
  | Waiting _ rest => Holds h None None rest
  | _ => h = None
  end.

(** [job.browsers] holds no other browsers than those the workers hold,
    each as often as it is held at most. *)
Definition browsers_held (cfg : Config) : Prop :=
  exists hs, Forall2 worker_holds (pool cfg) hs
             /\ browsers (job (store cfg)) ⊆+ omap id hs.

(** When the call has resolved, [job.browsers] is empty; when it has
    rejected, the list holds [concurrency] browsers at most. *)
Definition browsers_settled {R : Type} (concurrency : nat) (c : CallState R) : Prop :=
  match c with
  | Resolved _ cfg _ => browsers (job (store cfg)) = []
  | Failed _ cfg _ => length (browsers (job (store cfg))) <= concurrency
  | Suspended => True
  end.

(** The cursor only moves forward and stays within the [N] items. *)
Definition cursor_inv (N : nat) (st st' : Store) : Prop :=
  index st <= index st' /\ (index st <= N -> index st' <= N).

(** Once the flag is raised the cursor stands still and the flag stays. *)
Definition stopped_inv (st st' : Store) : Prop :=
  stopRequested (job st) = true ->
  stopRequested (job st') = true /\ index st' = index st.

(** The job is in [JOBS] afterwards exactly if it was before. *)
Definition registered_inv (st st' : Store) : Prop := registered st' = registered st.


(** When the call has rejected, [JOBS] still holds its job. *)
Definition rejected_registered {R : Type} (c : CallState R) : Prop :=
  match c with
  | Failed _ cfg _ => registered (store cfg) = true
  | _ => True
  end.

(** The groups a record of group join reports are the first links assigned
    to its session by the table [gbs], in order and without a gap. *)
Definition reports_assigned (gbs : gmap string (list string)) (r : Outcome) : Prop :=
  match r with
  | JoinOutcome sessName _ _ _ groups =>
      exists k, g_group <$> groups = take k (default [] (gbs !! sessName))
  | _ => False
  end.

(** What an attempt leaves on [results]: the record of a post. *)
Definition posted (l : list Outcome) : Prop :=
  exists comment message, l = [AttemptOutcome true comment message].

(** The record of the last failed attempt. *)
Definition gave_up (l : list Outcome) : Prop :=
  exists message, l = [AttemptOutcome false false message].

(** What the loop over the groups leaves on [results]: for each group it
    reached, in order, the records of the attempt (none or one) followed by
    the record of the group, whose [ok] is [true] exactly when the attempt
    left a record with [post: true]. *)
Inductive post_blocks (sessName : string) : list string -> list Outcome -> Prop :=
| post_blocks_nil : post_blocks sessName [] []
| post_blocks_cons url urls attempt_records ok rest :
    (ok = true /\ posted attempt_records)
    \/ (ok = false /\ (attempt_records = [] \/ gave_up attempt_records)) ->
    post_blocks sessName urls rest ->
    post_blocks sessName (url :: urls)
      (attempt_records ++ PostOutcome sessName (Some url) ok None :: rest).

(** The [close] and [kill] calls and the flags among the actions of
    [stopAll], in order. *)
Definition close_calls (acts : list Registry.Action) : list Browser :=
  acts ≫= fun a => match a with Registry.CloseCalled b => [b] | _ => [] end.

Definition kill_calls (acts : list Registry.Action) : list Process :=
  acts ≫= fun a => match a with Registry.KillCalled p _ => [p] | _ => [] end.

Definition flags_set (acts : list Registry.Action) : list string :=
  acts ≫= fun a => match a with Registry.FlagSet id => [id] | _ => [] end.

(** The browsers of a list whose [close], issued as call [n], [n + 1], ...,
    rejects. *)
Fixpoint close_rejected (W : World) (n : nat) (bs : list Browser) : list Browser :=
  match bs with
  | [] => []
  | b :: bs' =>
      match respond W _ n (Close b) with
      | Rejected _ => b :: close_rejected W (S n) bs'
      | Fulfilled _ => close_rejected W (S n) bs'
      end
  end.

(** The hrefs the world gives for the anchors [els], evaluated as calls
    [n], [n + 1], ...; the first rejection ends the scan. *)
Fixpoint hrefs_of (W : World) (page : Page) (n : nat) (els : list Elem)
  : list string + Error :=
  match els with
  | [] => inl []
  | el :: rest =>
      match respond W _ n (EvaluateHref page el) with
      | Fulfilled url =>
          match hrefs_of W page (S n) rest with
          | inl urls => inl (url :: urls)
          | inr e => inr e
          end
      | Rejected e => inr e
      end
  end.

(* ===================================================================== *)
(** ** The upload route (lines 36-53)                                     *)
(* ===================================================================== *)

Module Upload.

(** A row of the [session] table. *)
Record Row := { row_userId : string; row_name : string; row_path : string }.

Definition key (r : Row) : string * string := (row_userId r, row_name r).

(** [r.ok && r.path]: the path of a record whose [ok] is [true] and whose
    [path] is a non-empty string. *)
Definition stored_path (r : Outcome) : option string :=
  match r with
  | AccountOutcome _ _ true (Some p) _ =>
      if decide (p = EmptyString) then None else Some p
  | _ => None
  end.

(** [prisma.session.findFirst({ where: { userId, name } })] *)
Definition findFirst (db : list Row) (userId name : string) : option Row :=
  head (filter (fun r => key r = (userId, name)) db).

Section Persist.

(** [path.basename], and the error with which the [n]-th query of the
    request rejects, if it does. *)
Variable basename : string -> string.
Variable db_error : nat -> option Error.

(** The loop over [res.results]: the table afterwards, and the error
    that ended the loop, if any.  [n] counts the queries issued. *)
Fixpoint persist (userId : string) (rs : list Outcome) (n : nat) (db : list Row)
  : option Error * list Row :=
  match rs with
  | [] => (None, db)
  | r :: rest =>
      match stored_path r with
      | None => persist userId rest n db
      | Some p =>
          let name := basename p in
          match db_error n with
          | Some e => (Some e, db)
          | None =>
              match findFirst db userId name with
              | Some _ => persist userId rest (S n) db
              | None =>
                  match db_error (S n) with
                  | Some e => (Some e, db)
                  | None =>
                      persist userId rest (S (S n))
                        (db ++ [{| row_userId := userId; row_name := name;
                                   row_path := p |}])
                  end
              end
          end
      end
  end.

(** A row the loop adds for one of the records [rs]. *)
Definition added_by (userId : string) (rs : list Outcome) (row : Row) : Prop :=
  row_userId row = userId
  /\ row_name row = basename (row_path row)
  /\ exists r, r ∈ rs /\ stored_path r = Some (row_path row).

End Persist.

End Upload.

(* ===================================================================== *)
(** ** Further worlds and inputs used in the examples                     *)
(* ===================================================================== *)

Module Cases.

Definition denied : Error :=
  {| err_name := "Error"; err_message := "EACCES: permission denied, mkdir" |}.

(** A world in which no directory can be created. *)
Definition readonly : World :=
  {| DATA_DIR := "./data";
     respond := fun T n c => Fulfilled (Examples.fulfil [] n c);
     mkdir_error := fun _ => Some denied;
     page_url := fun _ _ => "https://www.facebook.com/groups/1";
     browser_process := fun b => match b with BrowserH n => Some (ProcessH n) end |}.

Definition is_launch (ev : Event) : bool :=
  match ev with
  | EvCall (Launch _) => true
  | EvCall _ => false
  end.

Definition acc2 : Account :=
  {| nomorAkun := "222"; email := "b@x.com"; password := "q" |}.

(** The pool of [startCreateSessions] (first copy) on two accounts and one
    worker, at the moment [stopAll] is called while the worker is
    suspended on its first call. *)
Definition stopped_pool : Config :=
  let body := CreateV1.body "data/t1" [Examples.acc1; acc2] in
  let '(ws, st) := spawn Examples.happy 2 body 1 (fresh_store ["data/t1"]) in
  step Examples.happy 2 body StopAllCalled {| pool := ws; store := st |}.

End Cases.

(* ===================================================================== *)
(** ** Directories of the sessions                                        *)
(* ===================================================================== *)

(** The directories that exist once [ensureUserDir] has returned: those
    that existed before, and the directory of the user. *)
Definition dirs_seen (W : World) (userId : string) (existing : list string)
  : list string :=
  path_join (DATA_DIR W) userId :: existing.

(** A path segment that [path.join] appends as it is: it is not empty, not
    [.] and not [..], and holds no separator.  Joined to a directory it
    names an entry of that directory; the other segments name the directory
    itself or one above it, which exist on every file system although the
    list of the directories that exist in the model need not hold them. *)
Definition plain_segment (s : string) : Prop :=
  s <> EmptyString /\ s <> "." /\ s <> ".."
  /\ (NodePath.slash ∉ String.list_ascii_of_string s).

#[global] Instance plain_segment_dec s : Decision (plain_segment s).
Proof. unfold plain_segment. apply _. Defined.

(** The profile directory of every session is an entry of the user's
    directory. *)
Definition plain_names (sessionNames : list string) : Prop :=
  forall name, name ∈ sessionNames -> plain_segment (sanitizeName name).

(** The URL a call navigates to. *)
Definition navigated (ev : Event) : option string :=
  match ev with
  | EvCall (Goto _ url) => Some url
  | EvCall _ => None
  end.

(* ===================================================================== *)
(** ** Records, calls and directories of the sessions of a pool           *)
(* ===================================================================== *)

Definition is_mkdir {T : Type} (s : Stmt T) : bool :=
  match s with
  | MkdirSync _ => true
  | _ => false
  end.

(** Whatever the world answers: every record the program pushes satisfies
    [P], every call it issues satisfies [C], it creates no directory, and
    every value it returns satisfies [Q]. *)
Fixpoint Obeys (P : Outcome -> Prop) (C : Event -> Prop) {R : Type} (Q : R -> Prop)
    (p : Prog R) : Prop :=
  match p with
  | Ret r => Q r
  | Throw _ => True
  | Do s k =>
      (forall r, pushed s = Some r -> P r)
      /\ is_mkdir s = false
      /\ forall v, Obeys P C Q (k v)
  | Await c k => C (EvCall c) /\ forall v, Obeys P C Q (k v)
  end.

(** A suspended worker whose iteration obeys [P] and [C] and then falls
    through to the loop test. *)
Definition worker_obeys (P : Outcome -> Prop) (C : Event -> Prop) (w : Worker) : Prop :=
  match w with
  | Waiting _ rest => Obeys P C (fun ctl => ctl = Next) rest
  | _ => True
  end.

(** The store of a pool in which the directories are [D] and the items
    below [k] have been claimed.  [sync i] is the record of an item that
    ends without suspending ([None]: the item may suspend).  Every record
    satisfies [P], every call satisfies [C], and the records selected by
    [sel] are those of the claimed items that do not suspend, in order. *)
Definition accounted (D : list string) (P : Outcome -> Prop) (sel : Outcome -> Prop)
    {sel_dec : forall r, Decision (sel r)} (C : Event -> Prop)
    (sync : nat -> option Outcome) (k : nat) (st : Store) : Prop :=
  dirs st = D
  /\ Forall P (results st)
  /\ filter sel (results st) = filter sel (omap sync (seq 0 k))
  /\ Forall C (trace st).

(** The same for a pool of [N] items: in addition, the suspended workers
    obey [Pa] and [C], and unless the stop flag is raised a worker has
    returned only when every item was claimed. *)
Definition pool_accounted (D : list string) (N : nat) (P Pa : Outcome -> Prop)
    (sel : Outcome -> Prop) {sel_dec : forall r, Decision (sel r)} (C : Event -> Prop)
    (sync : nat -> option Outcome) (cfg : Config) : Prop :=
  accounted D P sel C sync (index (store cfg)) (store cfg)
  /\ index (store cfg) <= N
  /\ Forall (worker_obeys Pa C) (pool cfg)
  /\ (stopRequested (job (store cfg)) = false ->
      Forall (fun w => w = Exited -> N <= index (store cfg)) (pool cfg)).

(** The session a record is about. *)
Definition session_of (r : Outcome) : option string :=
  match r with
  | JoinOutcome sessName _ _ _ _ => Some sessName
  | PostOutcome sessName _ _ _ => Some sessName
  | _ => None
  end.

(** The [else] branch of [Join.item]: the iteration for a session whose
    profile directory [sessionPath] exists. *)
Definition Join_found (joinSelector : string) (when_absent : Page -> Prog unit)
    (sessionPath : string) (groupsBySession : gmap string (list string))
    (sessName : string) : Prog LoopCtl :=
  browser ← await (Launch sessionPath);
  stmt (BrowsersPush browser);;
  try_finally
    (page ← await (NewPage browser);
     let groupsForThisSession := default [] (groupsBySession !! sessName) in
     t ← Join.visit_links joinSelector when_absent page groupsForThisSession Join.tally0;
     stmt (ResultsPush (Join.finished sessName t)))
    (await_catch (Close browser) tt;;
     stmt (BrowsersRemove browser));;
  Ret Next.

(** The record the iteration of group join pushes without suspending, for a
    session without profile directory among [D]. *)
Definition Join_sync (D : list string) (userDir : string) (sessionNames : list string)
    (i : nat) : option Outcome :=
  match sessionNames !! i with
  | Some sessName =>
      if decide (path_join userDir (sanitizeName sessName) ∈ D) then None
      else Some (Join.missing sessName)
  | None => None
  end.

(** A record of group join for one of the sessions [sessionNames] whose
    profile directory is among [D], with counters that agree with its
    groups. *)
Definition Join_finished_on (D : list string) (userDir : string)
    (sessionNames : list string) (r : Outcome) : Prop :=
  exists sessName t,
    sessName ∈ sessionNames
    /\ path_join userDir (sanitizeName sessName) ∈ D
    /\ tally_ok t
    /\ r = Join.finished sessName t.

(** A record of group join, read against the directories [D]: it is about
    one of the sessions [sessionNames]; if the profile directory of that
    session exists, the record reports success, its summary adds up and
    [total] is the number of entries of [groups]; if not, it is the "folder
    not found" record. *)
Definition join_record_on (D : list string) (userDir : string)
    (sessionNames : list string) (r : Outcome) : Prop :=
  match r with
  | JoinOutcome sessName ok message summary groups =>
      sessName ∈ sessionNames
      /\ if decide (path_join userDir (sanitizeName sessName) ∈ D) then
           ok = true /\ message = "Selesai"
           /\ s_success summary + s_failed summary = s_total summary
           /\ s_total summary = length groups
         else
           r = JoinOutcome sessName false "Session folder tidak ditemukan"
                 {| s_success := 0; s_failed := 1; s_total := 1 |} []
  | _ => False
  end.

(** The records group join pushes for the sessions [sessionNames], read
    against the directories [D]. *)
Definition Join_record_of (D : list string) (userDir : string)
    (sessionNames : list string) (r : Outcome) : Prop :=
  Join_finished_on D userDir sessionNames r
  \/ exists sessName,
       sessName ∈ sessionNames
       /\ (path_join userDir (sanitizeName sessName) ∉ D)
       /\ r = Join.missing sessName.

(** A call of group join on the directories [D]: if it launches a browser,
    the profile directory is among [D]; if it navigates a page, the URL is
    one of the links that the table [gbs] assigns to a session whose profile
    directory is among [D]. *)
Definition navigates_assigned (D : list string) (userDir : string)
    (sessionNames : list string) (gbs : gmap string (list string)) (ev : Event) : Prop :=
  forall url, navigated ev = Some url ->
    exists name, name ∈ sessionNames
                 /\ path_join userDir (sanitizeName name) ∈ D
                 /\ url ∈ default [] (gbs !! name).

Definition Join_call (D : list string) (userDir : string)
    (sessionNames : list string) (gbs : gmap string (list string)) (ev : Event) : Prop :=
  (forall d, launched ev = Some d -> d ∈ D)
  /\ navigates_assigned D userDir sessionNames gbs ev.

(* ===================================================================== *)
(** * Properties                                                          *)
(* ===================================================================== *)

(** ** The matcher agrees with the denotation of regular expressions *)

Section RegexFacts.
Import Regex.

Lemma void_inv s : ~ Matches RVoid s.
Proof. intros H. inversion H. Qed.

Lemma eps_inv s : Matches REps s <-> s = [].
Proof. split; [intros H; now inversion H | intros ->; constructor]. Qed.

Lemma set_inv ci cls s :
  Matches (RSet ci cls) s <-> exists c, s = [c] /\ class_test ci cls c = true.
Proof.
  split.
  - intros H. inversion H; subst. eauto.
  - intros (c & -> & H). now constructor.
Qed.

Lemma cat_inv r1 r2 s :
  Matches (RCat r1 r2) s <->
  exists s1 s2, s = s1 ++ s2 /\ Matches r1 s1 /\ Matches r2 s2.
Proof.
  split.
  - intros H. inversion H; subst. eauto.
  - intros (s1 & s2 & -> & H1 & H2). now constructor.
Qed.

Lemma alt_inv r1 r2 s : Matches (RAlt r1 r2) s <-> Matches r1 s \/ Matches r2 s.
Proof.
  split.
  - intros H. inversion H; subst; tauto.
  - intros [H | H]; [now apply MAltL | now apply MAltR].
Qed.

Lemma nullable_spec r : nullable r = true <-> Matches r [].
Proof.
  induction r; simpl.
  - split; [discriminate | intros H; now apply void_inv in H].
  - split; [constructor | reflexivity].
  - rewrite set_inv. split; [discriminate | intros (c & H & _); discriminate].
  - rewrite andb_true_iff, IHr1, IHr2, cat_inv. split.
    + intros [H1 H2]. now exists [], [].
    + intros (s1 & s2 & Heq & H1 & H2). symmetry in Heq.
      apply app_nil in Heq as [-> ->]. tauto.
  - rewrite orb_true_iff, IHr1, IHr2, alt_inv. tauto.
  - split; [constructor | reflexivity].
Qed.

Lemma star_cons_inv r c s :
  Matches (RStar r) (c :: s) ->
  exists s1 s2, s = s1 ++ s2 /\ Matches r (c :: s1) /\ Matches (RStar r) s2.
Proof.
  intros H. remember (RStar r) as r' eqn:Er. remember (c :: s) as w eqn:Ew.
  revert s Ew. induction H; intros s' Ew; try discriminate.
  injection Er as ->.
  destruct s1 as [| d s1].
  - simpl in Ew. now apply IHMatches2.
  - simpl in Ew. injection Ew as -> <-. now exists s1, s2.
Qed.

Lemma cat_cons r1 r2 c s :
  Matches (RCat r1 r2) (c :: s) <->
  (exists s1 s2, s = s1 ++ s2 /\ Matches r1 (c :: s1) /\ Matches r2 s2)
  \/ (Matches r1 [] /\ Matches r2 (c :: s)).
Proof.
  rewrite cat_inv. split.
  - intros (s1 & s2 & Heq & H1 & H2). destruct s1 as [| d s1]; simpl in Heq.
    + right. subst. tauto.
    + injection Heq as -> ->. left. now exists s1, s2.
  - intros [(s1 & s2 & -> & H1 & H2) | [H1 H2]].
    + now exists (c :: s1), s2.
    + now exists [], (c :: s).
Qed.

Lemma deriv_spec c r : forall s, Matches (deriv c r) s <-> Matches r (c :: s).
Proof.
  induction r; intros s; simpl.
  - split; intros H; now apply void_inv in H.
  - rewrite eps_inv. split; [intros H; now apply void_inv in H | discriminate].
  - rewrite set_inv. destruct (class_test ci cls c) eqn:E.
    + rewrite eps_inv. split.
      * intros ->. eauto.
      * intros (d & Heq & _). now injection Heq.
    + split; [intros H; now apply void_inv in H |].
      intros (d & Heq & Hd). injection Heq as -> _. congruence.
  - rewrite cat_cons. destruct (nullable r1) eqn:En.
    + rewrite alt_inv, cat_inv, <- IHr2, <- nullable_spec, En. split.
      * intros [(s1 & s2 & -> & H1 & H2) | H]; [left | right; tauto].
        exists s1, s2. rewrite <- IHr1. tauto.
      * intros [(s1 & s2 & -> & H1 & H2) | [_ H]]; [left | right; tauto].
        exists s1, s2. rewrite IHr1. tauto.
    + rewrite cat_inv, <- nullable_spec, En. split.
      * intros (s1 & s2 & -> & H1 & H2). left.
        exists s1, s2. rewrite <- IHr1. tauto.
      * intros [(s1 & s2 & -> & H1 & H2) | [H _]]; [| discriminate].
        exists s1, s2. rewrite IHr1. tauto.
  - rewrite !alt_inv, IHr1, IHr2. tauto.
  - rewrite cat_inv. split.
    + intros (s1 & s2 & -> & H1 & H2).
      change (c :: s1 ++ s2) with ((c :: s1) ++ s2).
      apply MStarS; [now apply IHr | assumption].
    + intros H. apply star_cons_inv in H as (s1 & s2 & -> & H1 & H2).
      exists s1, s2. rewrite IHr. tauto.
Qed.

Lemma full_match_spec r s : full_match r s = true <-> Matches r s.
Proof.
  revert r. induction s as [| c s IH]; intros r; simpl.
  - apply nullable_spec.
  - rewrite IH. apply deriv_spec.
Qed.

(** With the end anchor and no start anchor, [search] looks for a suffix
    of the subject that matches the body. *)
Lemma search_end_anchored p s :
  anchor_start p = false -> anchor_end p = true ->
  search p s = true <-> exists pre suf, s = pre ++ suf /\ Matches (body p) suf.
Proof.
  intros Hs He. induction s as [| c s IH].
  - simpl. unfold match_here. rewrite He, orb_false_r. simpl.
    rewrite nullable_spec. split.
    + intros H. now exists [], [].
    + intros (pre & suf & Heq & H). symmetry in Heq.
      apply app_nil in Heq as [-> ->]. assumption.
  - cbn [search]. unfold match_here at 1. rewrite He, Hs, orb_true_iff, IH.
    rewrite full_match_spec. split.
    + intros [H | (pre & suf & -> & H)].
      * now exists [], (c :: s).
      * now exists (c :: pre), suf.
    + intros (pre & suf & Heq & H). destruct pre as [| d pre]; simpl in Heq.
      * subst. now left.
      * injection Heq as -> ->. right. now exists pre, suf.
Qed.

Lemma Matches_chr c s : Matches (RChr c) s <-> s = [c].
Proof.
  unfold RChr. rewrite set_inv. unfold class_test. simpl. split.
  - intros (d & -> & H). rewrite orb_false_r in H.
    apply Ascii.eqb_eq in H as ->. reflexivity.
  - intros ->. exists c. split; [reflexivity |].
    now rewrite orb_false_r, Ascii.eqb_refl.
Qed.

Lemma Matches_lit w s : Matches (RLit w) s <-> s = w.
Proof.
  revert s. induction w as [| c w IH]; intros s; simpl.
  - apply eps_inv.
  - rewrite cat_inv. split.
    + intros (s1 & s2 & -> & H1 & H2). apply Matches_chr in H1 as ->.
      apply IH in H2 as ->. reflexivity.
    + intros ->. exists [c], w. rewrite Matches_chr, IH. tauto.
Qed.

Lemma Matches_star_set ci cls s :
  Matches (RStar (RSet ci cls)) s <-> forallb (class_test ci cls) s = true.
Proof.
  split.
  - intros H. remember (RStar (RSet ci cls)) as r eqn:Er.
    induction H; try discriminate; [reflexivity |].
    injection Er as ->. apply set_inv in H as (c & -> & Hc). simpl.
    apply andb_true_iff. split; [assumption | now apply IHMatches2].
  - induction s as [| c s IH]; simpl; intros H; [constructor |].
    apply andb_true_iff in H as [H1 H2].
    change (c :: s) with ([c] ++ s). constructor; [now constructor | now apply IH].
Qed.

End RegexFacts.

(** ** Sanitised names *)

Lemma sanitize_class_test c :
  Regex.class_test true sanitize_class c = negb (safe_char c).
Proof. destruct c as [[] [] [] [] [] [] [] []]; vm_compute; reflexivity. Qed.

Lemma safe_class_test c :
  Regex.class_test false
    {| Regex.negated := false;
       Regex.items := [Regex.CRange "a" "z"; Regex.CRange "A" "Z"; Regex.CRange "0" "9";
                       Regex.CChar "_"; Regex.CChar "."; Regex.CChar "@"; Regex.CChar "-"] |} c
  = safe_char c.
Proof. destruct c as [[] [] [] [] [] [] [] []]; vm_compute; reflexivity. Qed.

Lemma sanitizeName_cons c s :
  sanitizeName (String c s) = String (if safe_char c then c else "_"%char) (sanitizeName s).
Proof.
  unfold sanitizeName. simpl. rewrite sanitize_class_test.
  destruct (safe_char c); reflexivity.
Qed.

Lemma sanitizeName_map x :
  sanitizeName x = string_map (fun c => if safe_char c then c else "_"%char) x.
Proof.
  induction x as [| c s IH]; [reflexivity |].
  rewrite sanitizeName_cons, IH. reflexivity.
Qed.

Lemma sanitizeName_safe x : string_forall safe_char (sanitizeName x) = true.
Proof.
  induction x as [| c s IH]; [reflexivity |].
  rewrite sanitizeName_cons. simpl. rewrite IH, andb_true_r.
  destruct (safe_char c) eqn:E; [assumption | reflexivity].
Qed.

Lemma sanitizeName_fixed x : string_forall safe_char x = true -> sanitizeName x = x.
Proof.
  induction x as [| c s IH]; [reflexivity |]. simpl.
  intros H. apply andb_true_iff in H as [Hc Hs].
  rewrite sanitizeName_cons, Hc, IH; [reflexivity | assumption].
Qed.

Lemma test_safe_name_pattern s :
  Regex.test safe_name_pattern s = string_forall safe_char s.
Proof.
  unfold Regex.test. apply eq_true_iff_eq.
  assert (Hs : forall l, Regex.search safe_name_pattern l
                 = Regex.full_match (Regex.body safe_name_pattern) l).
  { intros [| c l]; simpl; unfold Regex.match_here; simpl; [reflexivity | apply orb_false_r]. }
  rewrite Hs, full_match_spec. simpl. rewrite Matches_star_set.
  induction s as [| c s IH]; [reflexivity |]. simpl.
  rewrite safe_class_test, !andb_true_iff, IH. reflexivity.
Qed.

(** C9: [sanitizeName] is idempotent, its result matches
    [^[a-zA-Z0-9_.@-]*$], and it replaces by an underscore exactly the
    characters outside [[a-zA-Z0-9_.@-]], keeping the others. *)
Theorem sanitizeName_idempotent_and_safe (x : string) :
  sanitizeName (sanitizeName x) = sanitizeName x
  /\ Regex.test safe_name_pattern (sanitizeName x) = true
  /\ sanitizeName x = string_map (fun c => if safe_char c then c else "_"%char) x.
Proof.
  split; [| split].
  - apply sanitizeName_fixed, sanitizeName_safe.
  - rewrite test_safe_name_pattern. apply sanitizeName_safe.
  - apply sanitizeName_map.
Qed.

(** ** Discovery of group URLs *)

Lemma digit_class_test c :
  Regex.class_test false
    {| Regex.negated := false; Regex.items := [Regex.CRange "0" "9"] |} c
  = GroupUrl.is_digit c.
Proof. unfold Regex.class_test. simpl. now rewrite orb_false_r. Qed.

Lemma forallb_digit_class ds :
  forallb (Regex.class_test false
             {| Regex.negated := false; Regex.items := [Regex.CRange "0" "9"] |}) ds
  = forallb GroupUrl.is_digit ds.
Proof.
  induction ds as [| d ds IH]; [reflexivity |].
  cbn [forallb]. now rewrite digit_class_test, IH.
Qed.

Lemma Matches_plus_digit ds :
  Regex.Matches (Regex.RPlus Regex.RDigit) ds
  <-> ds <> [] /\ forallb GroupUrl.is_digit ds = true.
Proof.
  unfold Regex.RPlus, Regex.RDigit. rewrite cat_inv. split.
  - intros (s1 & s2 & -> & H1 & H2).
    apply set_inv in H1 as (c & -> & Hc). apply Matches_star_set in H2.
    split; [discriminate |]. simpl. rewrite digit_class_test in Hc.
    rewrite Hc. simpl. now rewrite <- forallb_digit_class.
  - intros [Hne Hall]. destruct ds as [| c ds]; [congruence |].
    simpl in Hall. apply andb_true_iff in Hall as [Hc Hds].
    exists [c], ds. split; [reflexivity |]. split.
    + apply set_inv. exists c. now rewrite digit_class_test.
    + apply Matches_star_set. now rewrite forallb_digit_class.
Qed.

Lemma Matches_opt_slash sl :
  Regex.Matches (Regex.ROpt (Regex.RChr "/")) sl <-> sl = [] \/ sl = ["/"%char].
Proof.
  unfold Regex.ROpt. rewrite alt_inv, Matches_chr, eps_inv. tauto.
Qed.

Lemma test_urlsPattern url :
  Regex.test urlsPattern url = true
  <-> GroupUrl.tail_shape (String.list_ascii_of_string url).
Proof.
  unfold Regex.test. rewrite search_end_anchored by reflexivity.
  unfold GroupUrl.tail_shape. cbn [Regex.body urlsPattern]. split.
  - intros (pre & suf & -> & H).
    apply cat_inv in H as (w & rest & -> & Hw & H).
    apply Matches_lit in Hw as ->.
    apply cat_inv in H as (ds & sl & -> & Hds & Hsl).
    apply Matches_plus_digit in Hds as [Hne Hall].
    apply Matches_opt_slash in Hsl.
    exists pre, ds, sl. tauto.
  - intros (pre & ds & sl & -> & Hne & Hall & Hsl).
    eexists pre, _. split; [reflexivity |].
    apply cat_inv. eexists _, _. split; [reflexivity |].
    split; [now apply Matches_lit |].
    apply cat_inv. exists ds, sl. split; [reflexivity |].
    split; [now apply Matches_plus_digit | now apply Matches_opt_slash].
Qed.

(** C8, as the code has it: a scanned URL is pushed on [urls] exactly when
    it ends with [facebook.com/groups/], one or more digits and at most one
    slash; what stands before that ending is not examined. *)
Theorem push_if_group_tail_shape (urls : list string) (url : string) :
  (GroupUrl.tail_shape (String.list_ascii_of_string url) ->
   Post.push_if_group urls url = urls ++ [url])
  /\ (~ GroupUrl.tail_shape (String.list_ascii_of_string url) ->
      Post.push_if_group urls url = urls).
Proof.
  unfold Post.push_if_group. split; intros H.
  - apply test_urlsPattern in H. now rewrite H.
  - destruct (Regex.test urlsPattern url) eqn:E; [| reflexivity].
    apply test_urlsPattern in E. contradiction.
Qed.

(** C8, witness: the root of group 123 is pushed. *)
Lemma push_if_group_tail_shape_witness :
  Post.push_if_group [] "https://www.facebook.com/groups/123/"
  = [] ++ ["https://www.facebook.com/groups/123/"].
Proof.
  apply (proj1 (push_if_group_tail_shape [] "https://www.facebook.com/groups/123/")).
  exists (String.list_ascii_of_string "https://www."),
         (String.list_ascii_of_string "123"), ["/"%char].
  split; [reflexivity |]. split; [discriminate |]. split; [reflexivity |].
  right. reflexivity.
Defined.

(** C8, counterexample: a URL on another host, which is no group root of
    facebook.com, is pushed all the same. *)
Lemma push_if_group_foreign_host :
  ~ (forall url : string,
       Post.push_if_group [] url = [url] <-> GroupUrl.numeric_group_root url = true).
Proof.
  intros H.
  assert (E : Post.push_if_group [] "https://notfacebook.com/groups/1"
              = ["https://notfacebook.com/groups/1"]) by reflexivity.
  apply H in E. vm_compute in E. discriminate.
Qed.

(** Every URL of the shape the specification describes has the ending the
    pattern looks for: it is pushed. *)
Section GroupRootFacts.
Import GroupUrl.

Lemma strip_prefix_Some pre : forall s r, strip_prefix pre s = Some r -> s = pre ++ r.
Proof.
  induction pre as [| c pre IH]; intros s r; simpl.
  - now intros [= ->].
  - destruct s as [| d s]; [discriminate |].
    destruct (Ascii.eqb c d) eqn:E; [| discriminate].
    apply Ascii.eqb_eq in E as ->. intros H. now rewrite (IH _ _ H).
Qed.

Lemma split_host_app s : s = (split_host s).1 ++ (split_host s).2.
Proof.
  induction s as [| c s IH]; [reflexivity |]. simpl.
  destruct (Ascii.eqb c "/"); [reflexivity |].
  destruct (split_host s) as [h p]. simpl in *. now rewrite <- IH.
Qed.

Lemma ends_with_app suffix s :
  ends_with suffix s = true -> exists pre, s = pre ++ suffix.
Proof.
  unfold ends_with. destruct (strip_prefix _ _) as [r |] eqn:E; [| discriminate].
  intros _. apply strip_prefix_Some in E. exists (reverse r).
  apply (inj reverse). now rewrite reverse_app, reverse_involutive.
Qed.

Lemma span_digits_app s :
  s = (span_digits s).1 ++ (span_digits s).2
  /\ forallb is_digit (span_digits s).1 = true.
Proof.
  induction s as [| c s [IH1 IH2]]; [split; reflexivity |]. simpl.
  destruct (is_digit c) eqn:E; [| split; reflexivity].
  destruct (span_digits s) as [ds r]. simpl in *. split; [now rewrite <- IH1 |].
  now rewrite E, IH2.
Qed.

Lemma numeric_group_root_tail_shape url :
  numeric_group_root url = true -> tail_shape (String.list_ascii_of_string url).
Proof.
  unfold numeric_group_root. set (s := String.list_ascii_of_string url).
  intros H.
  assert (Hs : exists scheme r, s = scheme ++ r
            /\ (let '(h, p) := split_host r in facebook_host h && group_root_path p) = true).
  { destruct (strip_prefix (String.list_ascii_of_string "https://") s) as [r |] eqn:E1.
    - apply strip_prefix_Some in E1. eauto.
    - destruct (strip_prefix (String.list_ascii_of_string "http://") s) as [r |] eqn:E2;
        [| discriminate].
      apply strip_prefix_Some in E2. eauto. }
  destruct Hs as (scheme & r & -> & Hr).
  pose proof (split_host_app r) as Hsplit. destruct (split_host r) as [h p].
  simpl in Hsplit. subst r. apply andb_true_iff in Hr as [Hh Hp].
  assert (Hhost : exists h', h = h' ++ String.list_ascii_of_string "facebook.com").
  { unfold facebook_host in Hh. apply orb_true_iff in Hh as [Hh | Hh].
    - apply bool_decide_eq_true in Hh as ->. now exists [].
    - apply ends_with_app in Hh as [pre ->]. exists (pre ++ ["."%char]).
      now rewrite <- app_assoc. }
  destruct Hhost as [h' ->].
  unfold group_root_path in Hp.
  destruct (strip_prefix (String.list_ascii_of_string "/groups/") p) as [rest |] eqn:Ep;
    [| discriminate].
  apply strip_prefix_Some in Ep as ->.
  pose proof (span_digits_app rest) as [Hrest Hdigits].
  destruct (span_digits rest) as [digits after]. simpl in *. subst rest.
  apply andb_true_iff in Hp as [Hne Hafter].
  exists (scheme ++ h'), digits, after. split; [| split; [| split]].
  - rewrite <- !app_assoc. reflexivity.
  - intros ->. discriminate.
  - assumption.
  - apply orb_true_iff in Hafter as [Ha | Ha]; apply bool_decide_eq_true in Ha; tauto.
Qed.

End GroupRootFacts.

(** ** Partition of the group links *)

Section PartitionFacts.
Import Partition.

Lemma init_lookup_gen (names : list string) (m0 : gmap string (list string)) name :
  foldl (fun m n => <[n := []]> m) m0 names !! name
  = if decide (name ∈ names) then Some [] else m0 !! name.
Proof.
  revert m0. induction names as [| n names IH]; intros m0; simpl.
  - destruct (decide (name ∈ [])) as [H | H]; [| reflexivity]. now apply not_elem_of_nil in H.
  - rewrite IH. destruct (decide (name ∈ names)) as [H | H].
    + rewrite decide_True by (now apply elem_of_cons; right). reflexivity.
    + destruct (decide (name = n)) as [-> | Hne].
      * rewrite decide_True by (apply elem_of_cons; now left).
        apply lookup_insert_eq.
      * rewrite decide_False by (rewrite elem_of_cons; tauto).
        now apply lookup_insert_ne.
Qed.

Lemma init_lookup names name :
  init names !! name = if decide (name ∈ names) then Some [] else None.
Proof. unfold init. now rewrite init_lookup_gen, lookup_empty. Qed.

Lemma assign_spec names k m idx link :
  0 < k ->
  (forall name, name ∈ names -> is_Some (m !! name)) ->
  exists m', assign names k m idx link = Some m'
    /\ forall name,
         m' !! name =
         (fun l => l ++ (if decide (names !! (idx / k) = Some name) then [link] else []))
           <$> m !! name.
Proof.
  intros Hk Hdom. unfold assign, floor_div.
  rewrite decide_False by lia.
  destruct (decide (idx / k < length names)) as [Hlt | Hge].
  - destruct (lookup_lt_is_Some_2 names (idx / k) Hlt) as [s Hs]. rewrite Hs.
    destruct (Hdom s) as [l Hl]; [eapply list_elem_of_lookup_2; eassumption |].
    unfold push_link. rewrite Hl. simpl. eexists. split; [reflexivity |].
    intros name. destruct (decide (s = name)) as [<- | Hne].
    + rewrite lookup_insert_eq, Hl. simpl. now rewrite decide_True.
    + rewrite lookup_insert_ne by assumption.
      rewrite decide_False by congruence.
      destruct (m !! name); simpl; [now rewrite app_nil_r | reflexivity].
  - exists m. split; [reflexivity |]. intros name.
    rewrite decide_False.
    + destruct (m !! name); simpl; [now rewrite app_nil_r | reflexivity].
    + intros H. apply lookup_lt_Some in H. lia.
Qed.

Lemma forEach_spec names k :
  0 < k ->
  forall links idx m,
    (forall name, name ∈ names -> is_Some (m !! name)) ->
    exists m', forEach names k idx links m = Some m'
      /\ forall name,
           m' !! name = (fun l => l ++ links_from names k name idx links) <$> m !! name.
Proof.
  intros Hk. induction links as [| link rest IH]; intros idx m Hdom; simpl.
  - exists m. split; [reflexivity |]. intros name.
    destruct (m !! name); simpl; [now rewrite app_nil_r | reflexivity].
  - destruct (assign_spec names k m idx link Hk Hdom) as (m1 & -> & H1). simpl.
    destruct (IH (S idx) m1) as (m2 & -> & H2).
    + intros name Hin. rewrite H1. destruct (Hdom name Hin) as [l ->]. simpl. eauto.
    + exists m2. split; [reflexivity |]. intros name.
      rewrite H2, H1. destruct (m !! name); simpl; [| reflexivity].
      now rewrite <- app_assoc.
Qed.


End PartitionFacts.




(** The scenario of the specification: ["l1"; "l2"] goes to "A" and ["l3"]
    to "B"; a fourth and a fifth link would go nowhere. *)
Example groupsBySession_scenario :
  map_to_list <$> Partition.groupsBySession ["A"; "B"] ["l1"; "l2"; "l3"] 2
  = Some [("A", ["l1"; "l2"]); ("B", ["l3"])]
  /\ map_to_list <$> Partition.groupsBySession ["A"; "B"] ["l1"; "l2"; "l3"; "l4"; "l5"; "l6"] 2
    = Some [("A", ["l1"; "l2"]); ("B", ["l3"; "l4"])]
  /\ map_to_list <$> Partition.groupsBySession ["A"; "B"] ["l1"; "l2"; "l3"] 0
    = Some [("A", []); ("B", [])].
Proof. vm_compute. repeat split; reflexivity. Qed.

(** ** What a program can push on [results] *)

Section YieldsFacts.

Variable P : Outcome -> Prop.

Lemma Yields_weaken {R : Type} (Q Q' : R -> Prop) (p : Prog R) :
  (forall r, Q r -> Q' r) -> Yields P Q p -> Yields P Q' p.
Proof. intros HQ H. induction H; constructor; auto. Qed.

Lemma Yields_bind {A B : Type} (Q : A -> Prop) (Q' : B -> Prop)
    (p : Prog A) (f : A -> Prog B) :
  Yields P Q p -> (forall a, Q a -> Yields P Q' (f a)) -> Yields P Q' (bind p f).
Proof. intros Hp Hf. induction Hp; simpl; try (constructor; auto); auto. Qed.

Lemma Yields_mbind {A B : Type} (Q : A -> Prop) (Q' : B -> Prop)
    (p : Prog A) (f : A -> Prog B) :
  Yields P Q p -> (forall a, Q a -> Yields P Q' (f a)) -> Yields P Q' (p ≫= f).
Proof. apply Yields_bind. Qed.

Lemma Yields_try_catch {R : Type} (Q : R -> Prop) (p : Prog R) (h : Error -> Prog R) :
  Yields P Q p -> (forall e, Yields P Q (h e)) -> Yields P Q (try_catch p h).
Proof. intros Hp Hh. induction Hp; simpl; try (constructor; auto); auto. Qed.

Lemma Yields_try_finally {R : Type} (Q : R -> Prop) (p : Prog R) (f : Prog unit) :
  Yields P Q p -> Pushes P f -> Yields P Q (try_finally p f).
Proof.
  intros Hp Hf. induction Hp; simpl; try (constructor; auto).
  - eapply Yields_bind; [exact Hf | intros; now constructor].
  - eapply Yields_bind; [exact Hf | intros; constructor].
Qed.

Lemma Yields_await {T : Type} (c : Call T) : Yields P (fun _ => True) (await c).
Proof. constructor. intros []; now constructor. Qed.

Lemma Yields_await_catch {T : Type} (c : Call T) (d : T) :
  Yields P (fun _ => True) (await_catch c d).
Proof. constructor. intros []; now constructor. Qed.

Lemma Yields_delay ms : Yields P (fun _ => True) (delay ms).
Proof. constructor. intros _; now constructor. Qed.

Lemma Yields_await_ignore {T : Type} (c : Call T) :
  Yields P (fun _ => True) (Await c (fun _ => Ret tt)).
Proof. constructor. intros _; now constructor. Qed.

Lemma Yields_stmt {T : Type} (s : Stmt T) :
  (forall r, pushed s = Some r -> P r) -> Yields P (fun _ => True) (stmt s).
Proof. intros H. constructor; [assumption | intros; now constructor]. Qed.

Lemma Yields_push r : P r -> Yields P (fun _ => True) (stmt (ResultsPush r)).
Proof. intros H. apply Yields_stmt. simpl. now intros ? [= <-]. Qed.

Lemma Yields_mkdirSync p : Yields P (fun _ => True) (mkdirSync p).
Proof. constructor; [discriminate | intros []; now constructor]. Qed.

Lemma exec_stmt_results W {T : Type} (s : Stmt T) st :
  results (exec_stmt W s st).2 = results st ++ option_list (pushed s).
Proof.
  destruct s; simpl; rewrite ?app_nil_r; try reflexivity.
  destruct (mkdir_error W path); simpl; now rewrite ?app_nil_r.
Qed.

(** Running a program up to its next suspension point appends to
    [results] only records that satisfy [P]. *)
Lemma run_pushes W {R : Type} (p : Prog R) :
  Pushes P p ->
  forall st, Forall P (results st) ->
    Forall P (results (run W p st).2)
    /\ match (run W p st).1 with
       | Blocked _ rest => Pushes P rest
       | _ => True
       end.
Proof.
  induction 1 as [r | e | T s k Hpush Hk IH | T c k Hk IH]; intros st Hst; simpl.
  - tauto.
  - tauto.
  - destruct (exec_stmt W s st) as [v st'] eqn:E. apply IH.
    change st' with (v, st').2. rewrite <- E, exec_stmt_results.
    apply Forall_app. split; [assumption |].
    destruct (pushed s) as [r |] eqn:Ep; simpl; [| constructor].
    constructor; [now apply Hpush | constructor].
  - split; [assumption | apply Hk].
Qed.

Section PoolPushes.

Variable W : World.
Variable N : nat.
Variable body : nat -> Prog LoopCtl.
Hypothesis body_pushes : forall i, Pushes P (body i).

Lemma worker_loop_pushes fuel st :
  Forall P (results st) ->
  Forall P (results (worker_loop W N body fuel st).2)
  /\ worker_pushes P (worker_loop W N body fuel st).1.
Proof.
  revert st. induction fuel as [| fuel IH]; intros st Hst; simpl; [tauto |].
  destruct ((index st <? N) && negb (stopRequested (job st))); [| simpl; tauto].
  pose proof (run_pushes W (body (index st)) (body_pushes _)
                (set_index (S (index st)) st) Hst) as [Hr Hs].
  destruct (run W (body (index st)) (set_index (S (index st)) st)) as [[[] | e | ev rest] st'];
    simpl in *; auto.
Qed.

Lemma resume_pushes rest st :
  Pushes P rest -> Forall P (results st) ->
  Forall P (results (resume W N body rest st).2)
  /\ worker_pushes P (resume W N body rest st).1.
Proof.
  intros Hrest Hst. unfold resume.
  pose proof (run_pushes W rest Hrest st Hst) as [Hr Hs].
  destruct (run W rest st) as [[[] | e | ev rest'] st']; simpl in *; auto.
  now apply worker_loop_pushes.
Qed.

Lemma spawn_pushes c st :
  Forall P (results st) ->
  config_pushes P {| pool := (spawn W N body c st).1; store := (spawn W N body c st).2 |}.
Proof.
  revert st. induction c as [| c IH]; intros st Hst; simpl.
  - split; [assumption | constructor].
  - pose proof (worker_loop_pushes (S (N - index st)) st Hst) as [Hr Hw].
    unfold worker. destruct (worker_loop W N body (S (N - index st)) st) as [w st1].
    simpl in Hr, Hw. specialize (IH st1 Hr) as [Hr2 Hp].
    destruct (spawn W N body c st1) as [ws st2]. simpl in *.
    split; [assumption | now constructor].
Qed.

Lemma stop_requested_results st :
  results (stop_requested_by_stopAll st) = results st.
Proof. unfold stop_requested_by_stopAll. now destruct (registered st). Qed.

Lemma step_pushes ev cfg :
  config_pushes P cfg -> config_pushes P (step W N body ev cfg).
Proof.
  intros [Hr Hp]. destruct ev as [w |]; simpl.
  - destruct (pool cfg !! w) as [[ev rest | | e] |] eqn:Ew; try (now split).
    pose proof (resume_pushes rest (store cfg)) as H.
    destruct (resume W N body rest (store cfg)) as [wk st'] eqn:Er. simpl in H.
    destruct H as [Hr' Hw']; [| assumption |].
    + eapply (Forall_lookup_1 _ _ _ _ Hp) in Ew. exact Ew.
    + split; simpl; [assumption |]. now apply Forall_insert.
  - split; simpl; [now rewrite stop_requested_results | assumption].
Qed.

Lemma steps_pushes evs cfg :
  config_pushes P cfg -> config_pushes P (steps W N body evs cfg).
Proof.
  revert cfg. induction evs as [| ev evs IH]; intros cfg Hc; simpl; [assumption |].
  apply IH. now apply step_pushes.
Qed.

Lemma await_all_pushes evs cfg s cfg' evs' :
  config_pushes P cfg ->
  await_all W N body evs cfg = Some (s, cfg', evs') ->
  config_pushes P cfg'.
Proof.
  revert cfg. induction evs as [| ev evs IH]; intros cfg Hc; simpl;
    destruct (promise_all (pool cfg)); try (intros [= <- <- <-]; assumption);
    try discriminate.
  apply IH. now apply step_pushes.
Qed.

End PoolPushes.

End YieldsFacts.

(** [ensureUserDir] pushes nothing. *)
Lemma ensureUserDir_results W userId st :
  results (run W (ensureUserDir W userId) st).2 = results st.
Proof.
  unfold ensureUserDir. simpl.
  destruct (bool_decide _); simpl; [reflexivity |].
  destruct (mkdir_error W _); reflexivity.
Qed.

(** Decomposes a goal [Yields P Q p] along the structure of [p]; what is
    left are the conditions on the pushed records and returned values. *)
Ltac yields_step :=
  match goal with
  | |- Pushes _ _ => unfold Pushes
  | |- Yields ?P _ (_ ≫= _) => apply (Yields_mbind P (fun _ => True))
  | |- Yields ?P _ (bind _ _) => apply (Yields_bind P (fun _ => True))
  | |- Yields _ _ (try_catch _ _) => apply Yields_try_catch
  | |- Yields _ _ (try_finally _ _) => apply Yields_try_finally
  | |- Yields _ _ (await _) => apply Yields_await
  | |- Yields _ _ (await_catch _ _) => apply Yields_await_catch
  | |- Yields _ _ (delay _) => apply Yields_delay
  | |- Yields _ _ (mkdirSync _) => apply Yields_mkdirSync
  | |- Yields _ _ (stmt (ResultsPush _)) => apply Yields_push
  | |- Yields _ _ (stmt _) => apply Yields_stmt; discriminate
  | |- Yields _ _ (Ret _) => apply Yields_Ret; try exact I
  | |- Yields _ _ (Throw _) => apply Yields_Throw
  | |- Yields _ _ (Await _ (fun _ => Ret tt)) => apply Yields_await_ignore
  | |- Yields _ _ (Await _ _) => apply Yields_Await
  | |- Yields _ _ (if ?b then _ else _) => destruct b
  | |- Yields _ _ (match ?x with Some _ => _ | None => _ end) => destruct x
  | |- forall _, _ => intros
  end.

(** ** Summaries *)



(** *** Session creation pushes only records that carry [ok] *)







Lemma CreateV2_summary W existing jobId userId accounts concurrency evs r cfg evs' :
  CreateV2.startCreateSessions W existing jobId userId accounts concurrency evs
    = Resolved r cfg evs' ->
  ret_summary r = summarize (ret_results r).
Proof.
  unfold CreateV2.startCreateSessions.
  destruct (run W (ensureUserDir W userId) (fresh_store existing)) as [[userDir | e | ? ?] st];
    try discriminate.
  destruct (spawn _ _ _ _ _) as [ws st1].
  now intros [= <- <- <-].
Qed.

(** *** Group join pushes consistent summaries *)

Lemma record_visit_ok t link joined :
  tally_ok t -> tally_ok (Join.record_visit t link joined).
Proof.
  unfold tally_ok, Join.record_visit. simpl. rewrite length_app. simpl.
  destruct joined; lia.
Qed.

Lemma record_error_ok t link err :
  tally_ok t -> tally_ok (Join.record_error t link err).
Proof.
  unfold tally_ok, Join.record_error. simpl. rewrite length_app. simpl. lia.
Qed.

Lemma visit_links_yields P joinSelector when_absent page :
  (forall pg, Pushes P (when_absent pg)) ->
  forall links t,
    tally_ok t ->
    Yields P tally_ok (Join.visit_links joinSelector when_absent page links t).
Proof.
  intros Habs. induction links as [| link rest IH]; intros t Ht; cbn [Join.visit_links].
  - now constructor.
  - apply (Yields_mbind P (fun _ => True)); [repeat yields_step |].
    intros [] _; [now constructor |].
    apply (Yields_mbind P tally_ok); [| intros; now apply IH].
    apply Yields_try_catch; [| intros; constructor; now apply record_error_ok].
    apply (Yields_mbind P (fun _ => True)); [repeat yields_step |]. intros _ _.
    apply (Yields_mbind P (fun _ => True)); [repeat yields_step |]. intros joinBtn _.
    apply (Yields_mbind P (fun _ => True)).
    + destruct joinBtn; repeat yields_step. apply Habs.
    + intros joined _. constructor. now apply record_visit_ok.
Qed.

Lemma finished_is_join_record sessName t :
  tally_ok t -> join_record (Join.finished sessName t).
Proof.
  intros Ht. right. eexists _, _, _. split; [reflexivity |]. simpl.
  split; [reflexivity | exact Ht].
Qed.

Lemma Join_body_pushes joinSelector when_absent userDir groupsBySession sessionNames i :
  (forall pg, Pushes join_record (when_absent pg)) ->
  Pushes join_record
    (Join.body joinSelector when_absent userDir groupsBySession sessionNames i).
Proof.
  intros Habs. unfold Join.body. destruct (sessionNames !! i) as [sessName |]; [| constructor].
  unfold Join.item.
  apply (Yields_mbind join_record (fun _ => True)); [repeat yields_step |].
  intros ex _. destruct (negb ex).
  - repeat yields_step. left. now exists sessName.
  - apply (Yields_mbind join_record (fun _ => True)); [repeat yields_step |]. intros browser _.
    apply (Yields_mbind join_record (fun _ => True)); [repeat yields_step |]. intros _ _.
    apply (Yields_mbind join_record (fun _ => True)); [| intros; now constructor].
    apply Yields_try_finally; [| repeat yields_step].
    apply (Yields_mbind join_record (fun _ => True)); [repeat yields_step |]. intros page _.
    apply (Yields_mbind join_record tally_ok).
    + apply visit_links_yields; [assumption | reflexivity].
    + intros t Ht. apply Yields_push. now apply finished_is_join_record.
Qed.

Lemma Join_results joinSelector when_absent W existing jobId userId sessionNames groupLinks
    concurrency groupsPerSession evs r cfg evs' :
  (forall pg, Pushes join_record (when_absent pg)) ->
  Join.startJoinGroups joinSelector when_absent W existing jobId userId sessionNames
    groupLinks concurrency groupsPerSession evs = Resolved r cfg evs' ->
  Forall join_record (jret_results r).
Proof.
  intros Habs. unfold Join.startJoinGroups.
  pose proof (ensureUserDir_results W userId (fresh_store existing)) as Hres.
  destruct (run W (ensureUserDir W userId) (fresh_store existing)) as [[userDir | e | ? ?] st];
    try discriminate.
  simpl in Hres.
  destruct (Partition.groupsBySession sessionNames groupLinks groupsPerSession)
    as [gbs |]; try discriminate.
  pose proof (Join_body_pushes joinSelector when_absent userDir gbs sessionNames) as Hb.
  pose proof (spawn_pushes join_record W (length sessionNames) _
                (fun i => Hb i Habs) concurrency st) as Hsp.
  destruct (spawn W (length sessionNames) _ concurrency st) as [ws st1]. simpl in Hsp.
  destruct (await_all _ _ _ evs _) as [[[[] cfg1] evs1] |] eqn:Ea; try discriminate.
  intros [= <- <- <-]. simpl.
  eapply await_all_pushes in Ea as [Hr _]; [exact Hr | intros; now apply Hb |].
  apply Hsp. rewrite Hres. constructor.
Qed.





(** ** The worker pool: the loop of a worker and the join *)

Lemma exec_stmt_index W {T : Type} (s : Stmt T) st :
  index (exec_stmt W s st).2 = index st.
Proof. destruct s; simpl; try reflexivity. now destruct (mkdir_error W path). Qed.

Lemma run_index W {R : Type} (p : Prog R) st : index (run W p st).2 = index st.
Proof.
  revert st. induction p as [a | e | T s k IH | T c k IH]; intros st; simpl; try reflexivity.
  pose proof (exec_stmt_index W s st) as Hi.
  destruct (exec_stmt W s st) as [v st']. simpl in Hi. now rewrite IH.
Qed.

(** The bound [S (N - index)] on the iterations of a worker's loop is never
    reached: any larger bound gives the same run. *)
Lemma worker_loop_fuel W N body fuel1 :
  forall fuel2 st,
    N - index st < fuel1 -> N - index st < fuel2 ->
    worker_loop W N body fuel1 st = worker_loop W N body fuel2 st.
Proof.
  induction fuel1 as [| fuel1 IH]; intros fuel2 st H1 H2; [lia |].
  destruct fuel2 as [| fuel2]; [lia |]. simpl.
  destruct (index st <? N) eqn:Elt; simpl; [| reflexivity].
  destruct (stopRequested (job st)); simpl; [reflexivity |].
  apply Nat.ltb_lt in Elt.
  pose proof (run_index W (body (index st)) (set_index (S (index st)) st)) as Hi.
  destruct (run W (body (index st)) (set_index (S (index st)) st))
    as [[[] | e | ev rest] st']; try reflexivity.
  simpl in Hi. apply IH; lia.
Qed.

Lemma promise_all_fulfilled ws :
  promise_all ws = AllFulfilled -> Forall (fun w => w = Exited) ws.
Proof.
  induction ws as [| w ws IH]; simpl; [constructor |].
  destruct w as [ev rest | | e]; try discriminate.
  - destruct (promise_all ws); discriminate.
  - intros H. constructor; [reflexivity | now apply IH].
Qed.

Lemma await_all_fulfilled W N body evs cfg v cfg' evs' :
  await_all W N body evs cfg = Some (Fulfilled v, cfg', evs') ->
  Forall (fun w => w = Exited) (pool cfg').
Proof.
  revert cfg. induction evs as [| ev evs IH]; intros cfg; simpl;
    destruct (promise_all (pool cfg)) eqn:E; try discriminate;
    try (intros [= <- <- <-]; now apply promise_all_fulfilled).
  apply IH.
Qed.

(** The first copy of [startCreateSessions] awaits [Promise.all(workers)]:
    when it resolves, every worker has returned. *)
Lemma CreateV1_resolves_after_workers W existing jobId userId accounts concurrency evs
    r cfg evs' :
  CreateV1.startCreateSessions W existing jobId userId accounts concurrency evs
    = Resolved r cfg evs' ->
  Forall (fun w => w = Exited) (pool cfg) /\ ret_results r = results (store cfg).
Proof.
  unfold CreateV1.startCreateSessions.
  destruct (run W (ensureUserDir W userId) (fresh_store existing)) as [[userDir | e | ? ?] st];
    try discriminate.
  destruct (spawn _ _ _ _ _) as [ws st1].
  destruct (await_all _ _ _ evs _) as [[[[] cfg1] evs1] |] eqn:Ea; try discriminate.
  intros [= <- <- <-]. simpl. split; [| reflexivity].
  eapply await_all_fulfilled. exact Ea.
Qed.

(** C1, on the second copy of [startCreateSessions] (lines 680-682): one
    account, concurrency 1, every call fulfils.  Whatever the schedule, the
    call resolves at once with no result and the summary 0/0, while its
    worker is still suspended on [puppeteer.launch]; the job is already
    deleted from [JOBS].  The worker pushes its record later, on the array
    that was handed out. *)
Theorem createSessions_V2_returns_before_workers (evs : list SchedEvent) :
  match CreateV2.startCreateSessions Examples.happy [] "job" "t1" [Examples.acc1] 1 evs with
  | Resolved r cfg evs' =>
      ret_results r = []
      /\ ret_summary r = {| success := 0; failed := 0 |}
      /\ map waiting_on (pool cfg) = [Some (EvCall (Launch "data/t1/111"))]
      /\ registered (store cfg) = false
      /\ evs' = evs
      /\ let later := steps Examples.happy 1 (CreateV2.body "data/t1" [Examples.acc1])
                        (repeat (Resume 0) 5) cfg in
         results (store later)
         = [CreateV2.already_valid Examples.acc1 "data/t1/111"]
         /\ pool later = [Exited]
  | _ => False
  end.
Proof. vm_compute. repeat split; reflexivity. Qed.

(** The same input on the first copy: the call resolves once the worker has
    returned, with one record. *)
Example createSessions_V1_joins :
  match CreateV1.startCreateSessions Examples.happy [] "job" "t1" [Examples.acc1] 1
          (repeat (Resume 0) 10) with
  | Resolved r cfg evs' =>
      ret_results r = [CreateV1.created Examples.acc1 "data/t1/111"]
      /\ ret_summary r = {| success := 1; failed := 0 |}
      /\ pool cfg = [Exited]
  | _ => False
  end.
Proof. vm_compute. repeat split; reflexivity. Qed.

(** While the worker has not returned, the first copy stays suspended. *)
Example createSessions_V1_waits :
  CreateV1.startCreateSessions Examples.happy [] "job" "t1" [Examples.acc1] 1
    (repeat (Resume 0) 9) = Suspended.
Proof. vm_compute. reflexivity. Qed.

(** ** Session creation: errors and the browser *)

(** C3, on the first copy (lines 118-168): one account, [browser.newPage()]
    rejects.  The error is caught and recorded as a failure, but the
    browser that was launched is never closed: no [close] call is issued,
    the handle stays in [job.browsers], and the job is deleted from [JOBS],
    so that [stopAll] cannot reach it either. *)
Theorem createSessions_V1_leaves_browser_open :
  match CreateV1.startCreateSessions (Examples.world [] Examples.is_newPage) []
          "job" "t1" [Examples.acc1] 1 [Resume 0; Resume 0] with
  | Resolved r cfg _ =>
      ret_results r = [CreateV1.failure Examples.acc1]
      /\ pool cfg = [Exited]
      /\ trace (store cfg)
         = [EvCall (Launch "data/t1/111"); EvCall (NewPage (BrowserH 0))]
      /\ filter (fun ev => closed (BrowserH 0) ev = true) (trace (store cfg)) = []
      /\ browsers (job (store cfg)) = [BrowserH 0]
      /\ registered (store cfg) = false
  | _ => False
  end.
Proof. vm_compute. repeat split; reflexivity. Qed.

(** On the second copy the [finally] block closes the browser in that
    situation. *)
Example createSessions_V2_closes_on_error :
  let st := (finish (Examples.world [] Examples.is_newPage) Examples.never
               (CreateV2.item "d" Examples.acc1) (fresh_store [])).2 in
  results st = [CreateV2.open_failed Examples.acc1]
  /\ trace st = [EvCall (Launch "d/111"); EvCall (NewPage (BrowserH 0));
                 EvCall (Close (BrowserH 0))].
Proof. vm_compute. split; reflexivity. Qed.

(** On the second copy an error of [browser.close()] in the [finally] block
    leaves the worker: the worker's promise rejects. *)
Example createSessions_V2_close_error_escapes :
  (finish (Examples.world [] Examples.is_close) Examples.never
     (CreateV2.item "d" Examples.acc1) (fresh_store [])).1
  = inr Examples.timeout.
Proof. vm_compute. reflexivity. Qed.

(** On the first copy an error of [browser.close()] adds a second record
    for the same account. *)
Example createSessions_V1_close_error_second_record :
  results (finish (Examples.world [] Examples.is_close) Examples.never
             (CreateV1.item "d" Examples.acc1) (fresh_store [])).2
  = [CreateV1.created Examples.acc1 "d/111"; CreateV1.failure Examples.acc1].
Proof. vm_compute. reflexivity. Qed.

(** ** A task on its own: facts about [finish] *)

Lemma suspend_trace {T : Type} cancel (c : Call T) st :
  trace (suspend cancel c st) = trace st ++ [EvCall c].
Proof.
  unfold suspend, stop_requested_by_stopAll. destruct (cancel _); [| reflexivity].
  simpl. now destruct (registered st).
Qed.

Lemma suspend_results {T : Type} cancel (c : Call T) st :
  results (suspend cancel c st) = results st.
Proof.
  unfold suspend, stop_requested_by_stopAll. destruct (cancel _); [| reflexivity].
  simpl. now destruct (registered st).
Qed.

Lemma exec_stmt_trace W {T : Type} (s : Stmt T) st :
  trace (exec_stmt W s st).2 = trace st.
Proof. destruct s; simpl; try reflexivity. now destruct (mkdir_error W path). Qed.

Lemma finish_bind W cancel {A B : Type} (p : Prog A) (f : A -> Prog B) st :
  finish W cancel (bind p f) st
  = match finish W cancel p st with
    | (inl a, st') => finish W cancel (f a) st'
    | (inr e, st') => (inr e, st')
    end.
Proof.
  revert st. induction p as [a | e | T s k IH | T c k IH]; intros st; simpl; try reflexivity.
  - destruct (exec_stmt W s st) as [v st']. apply IH.
  - apply IH.
Qed.

Lemma finish_trace_extends W cancel {R : Type} (p : Prog R) st :
  exists rest, trace (finish W cancel p st).2 = trace st ++ rest.
Proof.
  revert st. induction p as [a | e | T s k IH | T c k IH]; intros st; simpl.
  - exists []. now rewrite app_nil_r.
  - exists []. now rewrite app_nil_r.
  - pose proof (exec_stmt_trace W s st) as Ht.
    destruct (exec_stmt W s st) as [v st']. simpl in Ht.
    destruct (IH v st') as [rest Hr]. exists rest. now rewrite Hr, Ht.
  - destruct (IH (respond W T (length (trace st)) c) (suspend cancel c st)) as [rest Hr].
    exists (EvCall c :: rest). rewrite Hr, suspend_trace, <- app_assoc. reflexivity.
Qed.

Lemma finish_mbind W cancel {A B : Type} (p : Prog A) (f : A -> Prog B) st :
  finish W cancel (p ≫= f) st
  = match finish W cancel p st with
    | (inl a, st') => finish W cancel (f a) st'
    | (inr e, st') => (inr e, st')
    end.
Proof. apply finish_bind. Qed.

(** The test [if (job.stopRequested) break;] that ends an iteration leaves
    the store as it is. *)
Lemma finish_then_stop_check W cancel (p : Prog unit) st :
  (finish W cancel
     (p ≫= fun _ => stop ← stmt StopRequested; if stop : bool then Ret Break else Ret Next)
     st).2
  = (finish W cancel p st).2.
Proof.
  rewrite finish_mbind.
  destruct (finish W cancel p st) as [[[] | e] st']; [| reflexivity].
  simpl. now destruct (stopRequested (job st')).
Qed.

Ltac norm_store :=
  repeat first
    [ rewrite suspend_trace
    | rewrite suspend_results
    | rewrite length_app
    | rewrite Nat.add_1_r
    | progress cbn [length trace results set_job set_dirs set_results set_trace
                      set_index set_registered] ].

(** ** Session creation: failure of the first navigation *)

(** C5, as the code has it.  Let the browser be launched and its page be
    opened, and let the navigation to the home page reject.  In the second
    copy (the one that probes the authenticated marker) the error reaches
    the outer [catch]: the only record pushed is the failure "Gagal membuka
    browser atau koneksi ke Facebook bermasalah.", no selector is waited
    for, and the browser is closed.  In the first copy the error is
    swallowed and the workflow goes on to wait for the login form. *)
Theorem navigation_failure_by_copy (W : World) (cancel : nat -> bool) (userDir : string)
    (acc : Account) (st : Store) (b : Browser) (pg : Page) (e : Error) :
  let sessionPath := path_join userDir (sanitizeName (nomorAkun acc)) in
  let n := length (trace st) in
  mkdir_error W sessionPath = None ->
  respond W _ n (Launch sessionPath) = Fulfilled b ->
  respond W _ (S n) (NewPage b) = Fulfilled pg ->
  respond W _ (S (S n)) (Goto pg "https://www.facebook.com") = Rejected e ->
  (let st2 := (finish W cancel (CreateV2.item userDir acc) st).2 in
   results st2 = results st ++ [CreateV2.open_failed acc]
   /\ trace st2 = trace st ++ [EvCall (Launch sessionPath); EvCall (NewPage b);
                               EvCall (Goto pg "https://www.facebook.com");
                               EvCall (Close b)])
  /\ (let st1 := (finish W cancel (CreateV1.item userDir acc) st).2 in
      exists rest,
        trace st1 = trace st ++ [EvCall (Launch sessionPath); EvCall (NewPage b);
                                 EvCall (Goto pg "https://www.facebook.com");
                                 EvCall (WaitForSelector pg "#email")] ++ rest).
Proof.
  intros sessionPath n Hmk Hl Hp Hg. subst n. split.
  - unfold CreateV2.item. fold sessionPath. rewrite finish_mbind.
    assert (Hlaunch :
      finish W cancel
        (try_catch
           (ex ← stmt (ExistsSync sessionPath);
            (if ex : bool then Ret tt else mkdirSync sessionPath);;
            browser ← await (Launch sessionPath);
            Ret (Some browser))
           (fun _ => stmt (ResultsPush (CreateV2.open_failed acc));; Ret None)) st
      = (inl (Some b),
         suspend cancel (Launch sessionPath)
           (if bool_decide (sessionPath ∈ dirs st) then st
            else set_dirs (sessionPath :: dirs st) st))).
    { cbn -[path_join sanitizeName suspend sessionPath].
      destruct (bool_decide (sessionPath ∈ dirs st));
        cbn -[path_join sanitizeName suspend sessionPath];
        rewrite ?Hmk; cbn -[path_join sanitizeName suspend sessionPath];
        now rewrite Hl. }
    rewrite Hlaunch. clear Hlaunch. rewrite finish_then_stop_check.
    set (st0 := if bool_decide (sessionPath ∈ dirs st) then st
                else set_dirs (sessionPath :: dirs st) st).
    assert (Ht0 : trace st0 = trace st) by (subst st0; now destruct (bool_decide _)).
    assert (Hr0 : results st0 = results st) by (subst st0; now destruct (bool_decide _)).
    unfold CreateV2.session.
    cbn -[path_join sanitizeName suspend sessionPath].
    rewrite suspend_trace, length_app, Ht0. cbn [length]. rewrite Nat.add_1_r, Hp.
    cbn -[path_join sanitizeName suspend sessionPath].
    rewrite !suspend_trace, !length_app, Ht0. cbn [length]. rewrite !Nat.add_1_r, Hg.
    cbn -[path_join sanitizeName suspend sessionPath].
    destruct (respond W unit _ (Close b));
      cbn -[path_join sanitizeName suspend sessionPath];
      rewrite !suspend_trace, ?suspend_results; cbn [results trace set_results];
      rewrite ?suspend_results, ?suspend_trace, Ht0, ?Hr0, <- !app_assoc; split; reflexivity.
  - unfold CreateV1.item. fold sessionPath. rewrite finish_then_stop_check.
    cbn -[path_join sanitizeName suspend sessionPath].
    destruct (bool_decide (sessionPath ∈ dirs st)) eqn:Eb;
      cbn -[path_join sanitizeName suspend sessionPath];
      rewrite ?Hmk; cbn -[path_join sanitizeName suspend sessionPath];
      rewrite Hl; cbn -[path_join sanitizeName suspend sessionPath]; norm_store;
      rewrite Hp; cbn -[path_join sanitizeName suspend sessionPath]; norm_store;
      rewrite Hg; cbn -[path_join sanitizeName suspend sessionPath];
      match goal with
      | |- exists rest, trace (finish ?W ?c ?p ?s).2 = _ =>
          destruct (finish_trace_extends W c p s) as [rest Hrest];
          exists rest; rewrite Hrest
      end;
      norm_store; rewrite <- !app_assoc; reflexivity.
Qed.

(** C5, witness: the navigation of the single account rejects. *)
Lemma navigation_failure_by_copy_witness :
  (let st2 := (finish (Examples.world [] is_goto) Examples.never
                 (CreateV2.item "d" Examples.acc1) (fresh_store [])).2 in
   results st2 = results (fresh_store []) ++ [CreateV2.open_failed Examples.acc1]
   /\ trace st2
      = trace (fresh_store [])
        ++ [EvCall (Launch (path_join "d" (sanitizeName (nomorAkun Examples.acc1))));
            EvCall (NewPage (BrowserH 0));
            EvCall (Goto (PageH 1) "https://www.facebook.com");
            EvCall (Close (BrowserH 0))])
  /\ (let st1 := (finish (Examples.world [] is_goto) Examples.never
                    (CreateV1.item "d" Examples.acc1) (fresh_store [])).2 in
      exists rest,
        trace st1
        = trace (fresh_store [])
          ++ [EvCall (Launch (path_join "d" (sanitizeName (nomorAkun Examples.acc1))));
              EvCall (NewPage (BrowserH 0));
              EvCall (Goto (PageH 1) "https://www.facebook.com");
              EvCall (WaitForSelector (PageH 1) "#email")] ++ rest).
Proof.
  apply (navigation_failure_by_copy (Examples.world [] is_goto) Examples.never "d"
           Examples.acc1 (fresh_store []) (BrowserH 0) (PageH 1) Examples.timeout);
    reflexivity.
Defined.

(** C5, counterexample: in the second copy a rejected navigation is
    recorded as a failure of the account and the marker is never probed. *)
Lemma navigation_failure_is_recorded :
  let st := (finish (Examples.world [] is_goto) Examples.never
               (CreateV2.item "d" Examples.acc1) (fresh_store [])).2 in
  results st
  = [AccountOutcome "111" "a@x.com" false None
       (Some "Gagal membuka browser atau koneksi ke Facebook bermasalah.")]
  /\ filter (fun ev => is_probe ev = true) (trace st) = [].
Proof. vm_compute. split; reflexivity. Qed.


(** ** [stopAll] *)

Section StopAllFacts.
Import Registry.

Variable W : World.

Lemma close_browsers_spec bs :
  forall n i b,
    bs !! i = Some b ->
    CloseCalled b ∈ close_browsers W n bs
    /\ forall e proc,
         respond W _ (n + i) (Close b) = Rejected e ->
         browser_process W b = Some proc ->
         KillCalled proc "SIGKILL" ∈ close_browsers W n bs.
Proof.
  induction bs as [| b0 bs IH]; intros n i b Hi; [discriminate |].
  cbn [close_browsers]. destruct i as [| i]; simpl in Hi.
  - injection Hi as ->. rewrite Nat.add_0_r. split.
    + apply elem_of_app. left. unfold close_or_kill. apply elem_of_cons. now left.
    + intros e proc He Hproc. apply elem_of_app. left. unfold close_or_kill.
      rewrite He, Hproc. apply elem_of_cons. right. apply elem_of_cons. now left.
  - destruct (IH (S n) i b Hi) as [Hc Hk]. split.
    + apply elem_of_app. now right.
    + intros e proc He Hproc. apply elem_of_app. right.
      apply (Hk e proc); [| assumption]. now replace (S n + i) with (n + S i) by lia.
Qed.

Lemma sweep_spec entries :
  forall n,
    (sweep W n entries).1.*1 = entries.*1
    /\ Forall2 (fun e e' => browsers e'.2 = browsers e.2 /\ stopRequested e'.2 = true)
         entries (sweep W n entries).1
    /\ (forall id, id ∈ entries.*1 -> FlagSet id ∈ (sweep W n entries).2)
    /\ (forall i b,
          tracked entries !! i = Some b ->
          CloseCalled b ∈ (sweep W n entries).2
          /\ forall e proc,
               respond W _ (n + i) (Close b) = Rejected e ->
               browser_process W b = Some proc ->
               KillCalled proc "SIGKILL" ∈ (sweep W n entries).2).
Proof.
  induction entries as [| [id j] rest IH]; intros n.
  - simpl. repeat split; try constructor.
    + intros id Hid. now apply not_elem_of_nil in Hid.
    + discriminate.
    + discriminate.
  - cbn [sweep]. specialize (IH (n + length (browsers j))).
    destruct (sweep W (n + length (browsers j)) rest) as [objs acts].
    destruct IH as (Hids & Hobjs & Hflags & Hclose). simpl in *.
    split; [now f_equal |]. split; [constructor; [now split | assumption] |].
    split.
    + intros id' Hid'. apply elem_of_cons in Hid' as [-> | Hid'].
      * apply elem_of_cons. now left.
      * apply elem_of_cons. right. apply elem_of_app. right. now apply Hflags.
    + intros i b Hi. unfold tracked in Hi. cbn in Hi.
      apply lookup_app_Some in Hi as [Hi | [Hge Hi]].
      * destruct (close_browsers_spec (browsers j) n i b Hi) as [Hc Hk]. split.
        -- apply elem_of_cons. right. apply elem_of_app. now left.
        -- intros e proc He Hproc. apply elem_of_cons. right. apply elem_of_app. left.
           now apply (Hk e proc).
      * destruct (Hclose _ b Hi) as [Hc Hk]. split.
        -- apply elem_of_cons. right. apply elem_of_app. now right.
        -- intros e proc He Hproc. apply elem_of_cons. right. apply elem_of_app. right.
           apply (Hk e proc); [| assumption].
           now replace (n + length (browsers j) + (i - length (browsers j)))
             with (n + i) by lia.
Qed.

End StopAllFacts.

(** C4: [stopAll] raises the flag of every job of the table, calls [close]
    on every browser the table tracks, sends SIGKILL to the process of every
    browser whose [close] rejects, and leaves the table empty: no job, no
    tracked browser.  The [i]-th tracked browser is closed by the call at
    position [n + i]. *)
Theorem stopAll_stops_everything (W : World) (n : nat) (JOBS : Registry.Table) :
  let r := Registry.stopAll W n JOBS in
  (Registry.objects r).*1 = JOBS.*1
  /\ Forall2 (fun e e' => browsers e'.2 = browsers e.2 /\ stopRequested e'.2 = true)
       JOBS (Registry.objects r)
  /\ (forall id, id ∈ JOBS.*1 -> Registry.FlagSet id ∈ Registry.actions r)
  /\ (forall i b,
        Registry.tracked JOBS !! i = Some b ->
        Registry.CloseCalled b ∈ Registry.actions r
        /\ forall e proc,
             respond W _ (n + i) (Close b) = Rejected e ->
             browser_process W b = Some proc ->
             Registry.KillCalled proc "SIGKILL" ∈ Registry.actions r)
  /\ Registry.table r = []
  /\ Registry.tracked (Registry.table r) = [].
Proof.
  unfold Registry.stopAll. pose proof (sweep_spec W JOBS n) as H.
  destruct (Registry.sweep W n JOBS) as [objs acts]. simpl in *.
  destruct H as (H1 & H2 & H3 & H4).
  split; [assumption |]. split; [assumption |]. split; [assumption |].
  split; [assumption |]. split; reflexivity.
Qed.

(** C4, witness: two jobs, three browsers; the second browser refuses to
    close and its process is killed. *)
Lemma stopAll_stops_everything_witness :
  let JOBS := [("j1", {| browsers := [BrowserH 1; BrowserH 2]; stopRequested := false |});
               ("j2", {| browsers := [BrowserH 3]; stopRequested := false |})] in
  let W := Examples.world [] (closed (BrowserH 2)) in
  Registry.actions (Registry.stopAll W 0 JOBS)
  = [Registry.FlagSet "j1"; Registry.CloseCalled (BrowserH 1);
     Registry.CloseCalled (BrowserH 2); Registry.KillCalled (ProcessH 2) "SIGKILL";
     Registry.FlagSet "j2"; Registry.CloseCalled (BrowserH 3)]
  /\ Registry.KillCalled (ProcessH 2) "SIGKILL" ∈ Registry.actions (Registry.stopAll W 0 JOBS)
  /\ Registry.table (Registry.stopAll W 0 JOBS) = [].
Proof.
  intros JOBS W. split; [reflexivity |].
  destruct (stopAll_stops_everything W 0 JOBS) as (_ & _ & _ & Hclose & Hempty & _).
  split; [| exact Hempty].
  apply (proj2 (Hclose 1 (BrowserH 2) eq_refl) Examples.timeout (ProcessH 2));
    reflexivity.
Defined.

(** In the pool, a call of [stopAll] acts on the job of the call exactly as
    [Registry.stopAll] acts on a table that holds this job alone. *)
Lemma stop_requested_by_stopAll_agrees W n id st :
  registered st = true ->
  job (stop_requested_by_stopAll st)
  = default (job st) (snd <$> head (Registry.objects (Registry.stopAll W n [(id, job st)])))
  /\ registered (stop_requested_by_stopAll st) = false.
Proof. intros H. unfold stop_requested_by_stopAll. rewrite H. split; reflexivity. Qed.

(* ===================================================================== *)
(** * Further properties of the code                                      *)
(* ===================================================================== *)

(** ** Effects of a task on every path *)

Section EndsFacts.

Lemma pushes_app m1 m2 : pushes (m1 ++ m2) = pushes m1 ++ pushes m2.
Proof. unfold pushes. apply bind_app. Qed.

Lemma calls_app m1 m2 : calls (m1 ++ m2) = calls m1 ++ calls m2.
Proof. unfold calls. apply bind_app. Qed.

Lemma track_app m1 m2 bs : track (m1 ++ m2) bs = track m2 (track m1 bs).
Proof. unfold track. apply foldl_app. Qed.

Lemma Replays_refl st : Replays st [] st.
Proof. unfold Replays. simpl. now rewrite !app_nil_r. Qed.

Lemma Replays_trans st m1 st1 m2 st2 :
  Replays st m1 st1 -> Replays st1 m2 st2 -> Replays st (m1 ++ m2) st2.
Proof.
  intros (R1 & T1 & B1) (R2 & T2 & B2). unfold Replays.
  rewrite pushes_app, calls_app, track_app, R2, T2, B2, R1, T1, B1.
  now rewrite !app_assoc.
Qed.

Lemma exec_stmt_replays W {T : Type} (s : Stmt T) st :
  Replays st (effect_of s) (exec_stmt W s st).2.
Proof.
  destruct s; simpl; try apply Replays_refl;
    try (unfold Replays; simpl; now rewrite ?app_nil_r).
  destruct (mkdir_error W path); simpl; [apply Replays_refl |].
  unfold Replays. simpl. now rewrite !app_nil_r.
Qed.

Lemma suspend_replays cancel {T : Type} (c : Call T) st :
  Replays st [Called (EvCall c)] (suspend cancel c st).
Proof.
  unfold suspend, stop_requested_by_stopAll, Replays.
  destruct (cancel _); simpl; [destruct (registered st); simpl |];
    now rewrite ?app_nil_r.
Qed.

Lemma Ends_weaken {R : Type} (p : Prog R) :
  forall (Pr Pr' : list Effect -> R -> Prop) (Pt Pt' : list Effect -> Error -> Prop),
    (forall m r, Pr m r -> Pr' m r) ->
    (forall m e, Pt m e -> Pt' m e) ->
    Ends Pr Pt p -> Ends Pr' Pt' p.
Proof.
  induction p as [a | e | T s k IH | T c k IH]; intros Pr Pr' Pt Pt' Hr Ht; simpl.
  - apply Hr.
  - apply Ht.
  - intros H v. eapply IH; [| | apply H]; simpl; eauto.
  - intros H v. eapply IH; [| | apply H]; simpl; eauto.
Qed.

Lemma Ends_bind {A B : Type} (p : Prog A) (f : A -> Prog B) :
  forall (Pr' : list Effect -> A -> Prop) (Pr : list Effect -> B -> Prop)
         (Pt : list Effect -> Error -> Prop),
    Ends Pr' Pt p ->
    (forall m a, Pr' m a ->
       Ends (fun m' => Pr (m ++ m')) (fun m' => Pt (m ++ m')) (f a)) ->
    Ends Pr Pt (bind p f).
Proof.
  induction p as [a | e | T s k IH | T c k IH]; intros Pr' Pr Pt Hp Hf; simpl in *.
  - exact (Hf [] a Hp).
  - exact Hp.
  - intros v. eapply IH; [apply Hp |]. simpl. intros m a Hm.
    eapply Ends_weaken; [| | apply (Hf _ _ Hm)]; simpl; intros ? ?;
      now rewrite app_assoc.
  - intros v. eapply IH; [apply Hp |]. simpl. intros m a Hm.
    exact (Hf _ _ Hm).
Qed.

Lemma Ends_mbind {A B : Type} (p : Prog A) (f : A -> Prog B)
    (Pr' : list Effect -> A -> Prop) (Pr : list Effect -> B -> Prop)
    (Pt : list Effect -> Error -> Prop) :
  Ends Pr' Pt p ->
  (forall m a, Pr' m a ->
     Ends (fun m' => Pr (m ++ m')) (fun m' => Pt (m ++ m')) (f a)) ->
  Ends Pr Pt (p ≫= f).
Proof. apply Ends_bind. Qed.

Lemma Ends_try_catch {R : Type} (p : Prog R) (h : Error -> Prog R) :
  forall (Pr : list Effect -> R -> Prop) (Pt' Pt : list Effect -> Error -> Prop),
    Ends Pr Pt' p ->
    (forall m e, Pt' m e ->
       Ends (fun m' => Pr (m ++ m')) (fun m' => Pt (m ++ m')) (h e)) ->
    Ends Pr Pt (try_catch p h).
Proof.
  induction p as [a | e | T s k IH | T c k IH]; intros Pr Pt' Pt Hp Hh; simpl in *.
  - exact Hp.
  - exact (Hh [] e Hp).
  - intros v. eapply IH; [apply Hp |]. simpl. intros m e Hm.
    eapply Ends_weaken; [| | apply (Hh _ _ Hm)]; simpl; intros ? ?;
      now rewrite app_assoc.
  - intros v. eapply IH; [apply Hp |]. simpl. intros m e Hm.
    exact (Hh _ _ Hm).
Qed.

Lemma Ends_try_finally {R : Type} (p : Prog R) (f : Prog unit) :
  forall (Pr' Pr : list Effect -> R -> Prop) (Pt' Pt : list Effect -> Error -> Prop),
    Ends Pr' Pt' p ->
    (forall m r, Pr' m r ->
       Ends (fun m' _ => Pr (m ++ m') r) (fun m' => Pt (m ++ m')) f) ->
    (forall m e, Pt' m e ->
       Ends (fun m' _ => Pt (m ++ m') e) (fun m' => Pt (m ++ m')) f) ->
    Ends Pr Pt (try_finally p f).
Proof.
  induction p as [a | e | T s k IH | T c k IH]; intros Pr' Pr Pt' Pt Hp Hr Ht;
    simpl in *.
  - eapply Ends_bind; [apply (Hr [] a Hp) |]. simpl. intros m _ Hm.
    now rewrite app_nil_r.
  - eapply Ends_bind; [apply (Ht [] e Hp) |]. simpl. intros m _ Hm.
    now rewrite app_nil_r.
  - intros v. eapply IH; [apply Hp | |]; simpl.
    + intros m r Hm. eapply Ends_weaken; [| | apply (Hr _ _ Hm)]; simpl; intros ? ?;
        now rewrite app_assoc.
    + intros m e Hm. eapply Ends_weaken; [| | apply (Ht _ _ Hm)]; simpl; intros ? ?;
        now rewrite app_assoc.
  - intros v. eapply IH; [apply Hp | |]; simpl.
    + intros m r Hm. exact (Hr _ _ Hm).
    + intros m e Hm. exact (Ht _ _ Hm).
Qed.

(** A task run on its own ends as [Ends] says. *)
Lemma Ends_finish W cancel {R : Type} (p : Prog R) :
  forall (Pr : list Effect -> R -> Prop) (Pt : list Effect -> Error -> Prop) st,
    Ends Pr Pt p ->
    exists m, Replays st m (finish W cancel p st).2
      /\ match (finish W cancel p st).1 with
         | inl r => Pr m r
         | inr e => Pt m e
         end.
Proof.
  induction p as [a | e | T s k IH | T c k IH]; intros Pr Pt st Hp; simpl in *.
  - exists []. split; [apply Replays_refl | exact Hp].
  - exists []. split; [apply Replays_refl | exact Hp].
  - pose proof (exec_stmt_replays W s st) as Hs.
    destruct (exec_stmt W s st) as [v st1]. simpl in Hs.
    destruct (IH v _ _ st1 (Hp v)) as (m & Hm & Hres).
    exists (effect_of s ++ m). split; [eapply Replays_trans; eassumption | exact Hres].
  - destruct (IH _ _ _ (suspend cancel c st) (Hp (respond W T (length (trace st)) c)))
      as (m & Hm & Hres).
    exists (Called (EvCall c) :: m). split; [| exact Hres].
    apply (Replays_trans _ [Called (EvCall c)] _ _ _ (suspend_replays cancel c st) Hm).
Qed.

(** A task run up to its next suspension point. *)
Lemma NoThrow_run W {R : Type} (p : Prog R) :
  forall st, NoThrow p ->
    match (run W p st).1 with
    | Done _ => True
    | Raised _ => False
    | Blocked _ rest => NoThrow rest
    end.
Proof.
  unfold NoThrow.
  induction p as [a | e | T s k IH | T c k IH]; intros st Hp; simpl in *.
  - exact I.
  - exact Hp.
  - destruct (exec_stmt W s st) as [v st1]. apply IH, Hp.
  - apply Hp.
Qed.

End EndsFacts.

(** Explores the paths of a program without loops. *)
Ltac ends_paths :=
  repeat (cbn; intros;
          match goal with
          | |- context [match ?x with _ => _ end] => is_var x; destruct x
          end).

Lemma Ends_True {R : Type} (p : Prog R) :
  Ends (fun _ _ => True) (fun _ _ => True) p.
Proof. induction p; simpl; auto. Qed.

Lemma Replays_called st m st' ev :
  Replays st m st' -> Called ev ∈ m -> ev ∈ trace st'.
Proof.
  intros (_ & Ht & _) Hin. rewrite Ht. apply elem_of_app. right.
  unfold calls. apply list_elem_of_bind. exists (Called ev). split; [set_solver | exact Hin].
Qed.

(** ** One iteration of session creation *)

Lemma CreateV2_item_ends userDir acc :
  let sessionPath := path_join userDir (sanitizeName (nomorAkun acc)) in
  let one m :=
    exists r, pushes m = [r]
      /\ r ∈ [CreateV2.already_valid acc sessionPath; CreateV2.logged_in acc sessionPath;
              CreateV2.login_failed acc; CreateV2.open_failed acc] in
  Ends (fun m _ => one m) (fun m _ => one m) (CreateV2.item userDir acc).
Proof.
  intros sessionPath one. subst one. unfold CreateV2.item, CreateV2.session.
  ends_paths.
  all: eexists; split; [reflexivity |]; set_solver.
Qed.

(** X1: in the second copy, an iteration of the worker's loop that has ended,
    by falling through, by [break] or by an exception, has pushed exactly one
    record for its account, and that record is one of the four the code
    builds. *)
Theorem createSessions_V2_one_record_per_item (W : World) (cancel : nat -> bool)
    (userDir : string) (acc : Account) (st : Store) :
  let sessionPath := path_join userDir (sanitizeName (nomorAkun acc)) in
  exists r,
    results (finish W cancel (CreateV2.item userDir acc) st).2 = results st ++ [r]
    /\ r ∈ [CreateV2.already_valid acc sessionPath; CreateV2.logged_in acc sessionPath;
            CreateV2.login_failed acc; CreateV2.open_failed acc].
Proof.
  intros sessionPath.
  destruct (Ends_finish W cancel _ _ _ st (CreateV2_item_ends userDir acc))
    as (m & (Hr & _ & _) & Hres).
  assert (Hone : exists r, pushes m = [r]
      /\ r ∈ [CreateV2.already_valid acc sessionPath; CreateV2.logged_in acc sessionPath;
              CreateV2.login_failed acc; CreateV2.open_failed acc]).
  { destruct (finish W cancel (CreateV2.item userDir acc) st).1; exact Hres. }
  destruct Hone as (r & Hp & Hin). exists r. split; [| exact Hin].
  now rewrite Hr, Hp.
Qed.

Lemma CreateV1_item_ends userDir acc :
  let sessionPath := path_join userDir (sanitizeName (nomorAkun acc)) in
  Ends (fun m _ =>
          exists r tail, pushes m = r :: tail
            /\ r ∈ [CreateV1.created acc sessionPath; CreateV1.failure acc]
            /\ (tail = [] \/ tail = [CreateV1.failure acc]))
       (fun _ _ => False) (CreateV1.item userDir acc).
Proof.
  intros sessionPath. unfold CreateV1.item.
  ends_paths.
  all: eexists _, _; split; [reflexivity |]; split; [set_solver | auto].
Qed.

(** X2: in the first copy, an iteration of the worker's loop never throws,
    whatever the browser does.  It pushes one record for its account, the
    "created" or the failure record, and after it at most one more, which is
    then the failure record: an account can appear twice in [results]. *)
Theorem createSessions_V1_item_records (W : World) (cancel : nat -> bool)
    (userDir : string) (acc : Account) (st : Store) :
  let sessionPath := path_join userDir (sanitizeName (nomorAkun acc)) in
  let res := finish W cancel (CreateV1.item userDir acc) st in
  (exists ctl, res.1 = inl ctl)
  /\ exists r tail,
       results res.2 = results st ++ r :: tail
       /\ r ∈ [CreateV1.created acc sessionPath; CreateV1.failure acc]
       /\ (tail = [] \/ tail = [CreateV1.failure acc]).
Proof.
  intros sessionPath res. subst res.
  destruct (Ends_finish W cancel _ _ _ st (CreateV1_item_ends userDir acc))
    as (m & (Hr & _ & _) & Hres).
  destruct (finish W cancel (CreateV1.item userDir acc) st).1 as [ctl | e];
    [| contradiction].
  split; [now exists ctl |].
  destruct Hres as (r & tail & Hp & Hin & Htail). exists r, tail.
  rewrite Hr, Hp. auto.
Qed.

(** ** The worker pool *)

Lemma exec_stmt_registered W {T : Type} (s : Stmt T) st :
  registered (exec_stmt W s st).2 = registered st.
Proof. destruct s; simpl; try reflexivity. now destruct (mkdir_error W path). Qed.

Lemma exec_stmt_stop W {T : Type} (s : Stmt T) st :
  stopRequested (job (exec_stmt W s st).2) = stopRequested (job st).
Proof. destruct s; simpl; try reflexivity. now destruct (mkdir_error W path). Qed.

Lemma run_registered W {R : Type} (p : Prog R) st :
  registered (run W p st).2 = registered st.
Proof.
  revert st. induction p as [a | e | T s k IH | T c k IH]; intros st; simpl; try reflexivity.
  pose proof (exec_stmt_registered W s st) as Hi.
  destruct (exec_stmt W s st) as [v st']. simpl in Hi. now rewrite IH.
Qed.

Lemma run_stop W {R : Type} (p : Prog R) st :
  stopRequested (job (run W p st).2) = stopRequested (job st).
Proof.
  revert st. induction p as [a | e | T s k IH | T c k IH]; intros st; simpl; try reflexivity.
  pose proof (exec_stmt_stop W s st) as Hi.
  destruct (exec_stmt W s st) as [v st']. simpl in Hi. now rewrite IH.
Qed.

Lemma exec_stmt_pushed W {T : Type} (s : Stmt T) st :
  results (exec_stmt W s st).2 = results st ++ option_list (pushed s).
Proof.
  destruct s; simpl; rewrite ?app_nil_r; try reflexivity.
  destruct (mkdir_error W path); simpl; now rewrite ?app_nil_r.
Qed.

Lemma Sync_run W P {R : Type} (p : Prog R) :
  forall st, Sync P p ->
    exists l, results (run W p st).2 = results st ++ l /\ Forall P l.
Proof.
  induction p as [a | e | T s k IH | T c k IH]; intros st Hp; simpl in *;
    try (exists []; split; [now rewrite app_nil_r | constructor]).
  destruct Hp as [Hs Hk]. pose proof (exec_stmt_pushed W s st) as Hx.
  destruct (exec_stmt W s st) as [v st1]. simpl in Hx.
  destruct (IH v st1 (Hk v)) as (l & Hl & HP).
  exists (option_list (pushed s) ++ l). split; [now rewrite Hl, Hx, app_assoc |].
  apply Forall_app. split; [| exact HP].
  destruct (pushed s) as [r |]; simpl; [| constructor].
  constructor; [now apply Hs | constructor].
Qed.

Section PoolFacts.

Variable W : World.
Variable N : nat.
Variable body : nat -> Prog LoopCtl.

(** What an activation of a worker does to the store, for a property of
    stores that every run of a program and every claim of an index keeps. *)
Section Invariant.

Variable Inv : Store -> Store -> Prop.
Hypothesis Inv_refl : forall st, Inv st st.
Hypothesis Inv_trans : forall a b c, Inv a b -> Inv b c -> Inv a c.
Hypothesis Inv_claim :
  forall st, index st < N -> stopRequested (job st) = false ->
    Inv st (set_index (S (index st)) st).
Hypothesis Inv_run :
  forall (R : Type) (p : Prog R) st, Inv st (run W p st).2.

Lemma worker_loop_inv fuel : forall st, Inv st (worker_loop W N body fuel st).2.
Proof.
  induction fuel as [| fuel IH]; intros st; simpl; [apply Inv_refl |].
  destruct (index st <? N) eqn:Hlt; simpl; [| apply Inv_refl].
  destruct (stopRequested (job st)) eqn:Hstop; simpl; [apply Inv_refl |].
  apply Nat.ltb_lt in Hlt.
  pose proof (Inv_claim st Hlt Hstop) as H1.
  pose proof (Inv_run _ (body (index st)) (set_index (S (index st)) st)) as H2.
  destruct (run W (body (index st)) (set_index (S (index st)) st))
    as [[[] | e | ev rest] st']; simpl in *; eauto.
Qed.

Lemma resume_inv rest st : Inv st (resume W N body rest st).2.
Proof.
  unfold resume, worker. pose proof (Inv_run _ rest st) as H1.
  destruct (run W rest st) as [[[] | e | ev rest'] st']; cbn [fst snd] in *;
    try exact H1.
  eapply Inv_trans; [exact H1 | apply worker_loop_inv].
Qed.

Lemma spawn_inv c : forall st, Inv st (spawn W N body c st).2.
Proof.
  induction c as [| c IH]; intros st; simpl; [apply Inv_refl |].
  pose proof (worker_loop_inv (S (N - index st)) st) as H1. unfold worker.
  destruct (worker_loop W N body (S (N - index st)) st) as [w st1].
  pose proof (IH st1) as H2.
  destruct (spawn W N body c st1) as [ws st2]. simpl in *. eauto.
Qed.

Hypothesis Inv_stop : forall st, Inv st (stop_requested_by_stopAll st).

Lemma step_inv ev cfg : Inv (store cfg) (store (step W N body ev cfg)).
Proof.
  destruct ev as [w |]; simpl; [| apply Inv_stop].
  destruct (pool cfg !! w) as [[ev rest | | e] |]; try apply Inv_refl.
  pose proof (resume_inv rest (store cfg)) as H1.
  destruct (resume W N body rest (store cfg)) as [wk st']. exact H1.
Qed.

Lemma steps_inv evs : forall cfg, Inv (store cfg) (store (steps W N body evs cfg)).
Proof.
  unfold steps.
  induction evs as [| ev evs IH]; intros cfg; simpl; [apply Inv_refl |].
  eapply Inv_trans; [apply step_inv | apply IH].
Qed.

End Invariant.

(** The cursor only moves forward and stays within the items. *)
Lemma cursor_inv_steps evs cfg : cursor_inv N (store cfg) (store (steps W N body evs cfg)).
Proof.
  apply steps_inv; unfold cursor_inv.
  - intros st. lia.
  - intros a b c [] []. split; [lia | auto].
  - intros st Hlt _. simpl. lia.
  - intros R p st. rewrite run_index. lia.
  - intros st. unfold stop_requested_by_stopAll. destruct (registered st); simpl; lia.
Qed.

Lemma cursor_inv_spawn c st : cursor_inv N st (spawn W N body c st).2.
Proof.
  apply spawn_inv; unfold cursor_inv.
  - intros st0. lia.
  - intros a b c0 [] []. split; [lia | auto].
  - intros st0 Hlt _. simpl. lia.
  - intros R p st0. rewrite run_index. lia.
Qed.

(** Once the flag is raised the cursor stands still and the flag stays. *)
Lemma stopped_inv_steps evs cfg :
  stopped_inv (store cfg) (store (steps W N body evs cfg)).
Proof.
  apply steps_inv; unfold stopped_inv.
  - auto.
  - intros a b c Hab Hbc Ha. destruct (Hab Ha) as [Hb Hi].
    destruct (Hbc Hb) as [Hc Hj]. split; [exact Hc | congruence].
  - intros st _ Hf Ht. congruence.
  - intros R p st Ht. now rewrite run_stop, run_index.
  - intros st Ht. unfold stop_requested_by_stopAll. destruct (registered st); simpl; auto.
Qed.

(** Without [stopAll], the job stays in [JOBS] while the workers run. *)
Lemma registered_inv_spawn c st : registered_inv st (spawn W N body c st).2.
Proof.
  apply spawn_inv; unfold registered_inv; try congruence; try reflexivity.
  intros R p st0. apply run_registered.
Qed.

Lemma registered_await_all evs :
  forall cfg r cfg' evs',
    Forall (fun ev => ev <> StopAllCalled) evs ->
    await_all W N body evs cfg = Some (r, cfg', evs') ->
    registered (store cfg') = registered (store cfg).
Proof.
  induction evs as [| ev evs IH]; intros cfg r cfg' evs' Hevs; simpl;
    destruct (promise_all (pool cfg)); try discriminate;
    try (intros [= _ <- _]; reflexivity).
  apply Forall_cons in Hevs as [Hev Hevs].
  intros H. rewrite (IH _ _ _ _ Hevs H).
  destruct ev as [w |]; [| congruence]. simpl.
  destruct (pool cfg !! w) as [[ev rest | | e] |]; try reflexivity.
  pose proof (resume_inv registered_inv) as Hres.
  specialize (Hres (fun st => eq_refl)).
  assert (Ht : forall a b c, registered_inv a b -> registered_inv b c -> registered_inv a c)
    by (unfold registered_inv; congruence).
  specialize (Hres Ht (fun st _ _ => eq_refl)
                (fun R p st => run_registered W p st) rest (store cfg)).
  destruct (resume W N body rest (store cfg)) as [wk st']. exact Hres.
Qed.

(** Workers whose iterations never throw never reject. *)
Hypothesis body_nothrow : forall i, i < N -> NoThrow (body i).

Lemma worker_loop_nothrow fuel :
  forall st, worker_nothrow (worker_loop W N body fuel st).1.
Proof.
  induction fuel as [| fuel IH]; intros st; simpl; [exact I |].
  destruct (index st <? N) eqn:Hlt; simpl; [| exact I].
  destruct (negb (stopRequested (job st))); [| exact I].
  apply Nat.ltb_lt in Hlt.
  pose proof (NoThrow_run W (body (index st)) (set_index (S (index st)) st)
                (body_nothrow _ Hlt)) as H.
  destruct (run W (body (index st)) (set_index (S (index st)) st))
    as [[[] | e | ev rest] st']; simpl in *; auto.
Qed.

Lemma resume_nothrow rest st :
  NoThrow rest -> worker_nothrow (resume W N body rest st).1.
Proof.
  intros Hrest. unfold resume, worker. pose proof (NoThrow_run W rest st Hrest) as H.
  destruct (run W rest st) as [[[] | e | ev rest'] st']; cbn [fst snd] in *; auto.
  apply worker_loop_nothrow.
Qed.

Lemma spawn_nothrow c : forall st, Forall worker_nothrow (spawn W N body c st).1.
Proof.
  induction c as [| c IH]; intros st; simpl; [constructor |].
  pose proof (worker_loop_nothrow (S (N - index st)) st) as H1. unfold worker.
  destruct (worker_loop W N body (S (N - index st)) st) as [w st1].
  pose proof (IH st1) as H2.
  destruct (spawn W N body c st1) as [ws st2]. simpl in *. now constructor.
Qed.

Lemma step_nothrow ev cfg :
  Forall worker_nothrow (pool cfg) -> Forall worker_nothrow (pool (step W N body ev cfg)).
Proof.
  intros Hpool. destruct ev as [w |]; simpl; [| exact Hpool].
  destruct (pool cfg !! w) as [[ev rest | | e] |] eqn:Hw; try exact Hpool.
  pose proof (resume_nothrow rest (store cfg)) as H1.
  destruct (resume W N body rest (store cfg)) as [wk st']. simpl in *.
  apply Forall_insert; [exact Hpool |]. apply H1.
  rewrite Forall_lookup in Hpool. exact (Hpool _ _ Hw).
Qed.

Lemma promise_all_nothrow ws e :
  Forall worker_nothrow ws -> promise_all ws <> AllRejected e.
Proof.
  induction 1 as [| w ws Hw _ IH]; simpl; [discriminate |].
  destruct w as [ev rest | | e']; [| exact IH | contradiction].
  destruct (promise_all ws); [discriminate | discriminate | exact IH].
Qed.

Lemma await_all_nothrow evs :
  forall cfg e cfg' evs',
    Forall worker_nothrow (pool cfg) ->
    await_all W N body evs cfg <> Some (Rejected e, cfg', evs').
Proof.
  induction evs as [| ev evs IH]; intros cfg e cfg' evs' Hpool; simpl;
    destruct (promise_all (pool cfg)) eqn:Hall; try discriminate.
  - intros [= -> _ _]. exact (promise_all_nothrow _ _ Hpool Hall).
  - apply IH, step_nothrow, Hpool.
  - intros [= -> _ _]. exact (promise_all_nothrow _ _ Hpool Hall).
Qed.

End PoolFacts.

(** ** Cancellation and the cursor *)

(** X3: once [job.stopRequested] is set, no worker claims another item: on
    every schedule the cursor keeps its value and the flag stays set. *)
Theorem stop_freezes_cursor (W : World) (N : nat) (body : nat -> Prog LoopCtl)
    (evs : list SchedEvent) (cfg : Config) :
  stopRequested (job (store cfg)) = true ->
  stopRequested (job (store (steps W N body evs cfg))) = true
  /\ index (store (steps W N body evs cfg)) = index (store cfg).
Proof. apply stopped_inv_steps. Qed.

(** X3, witness: two accounts, one worker, [stopAll] during the first call;
    the second account is never claimed. *)
Lemma stop_freezes_cursor_witness :
  let body := CreateV1.body "data/t1" [Examples.acc1; Cases.acc2] in
  let cfg' := steps Examples.happy 2 body (repeat (Resume 0) 12) Cases.stopped_pool in
  stopRequested (job (store cfg')) = true
  /\ index (store cfg') = index (store Cases.stopped_pool).
Proof.
  apply (stop_freezes_cursor Examples.happy 2
           (CreateV1.body "data/t1" [Examples.acc1; Cases.acc2])
           (repeat (Resume 0) 12) Cases.stopped_pool).
  vm_compute. reflexivity.
Defined.

(** X4: the cursor of a pool never moves back and never passes the number of
    items, whatever the concurrency and the schedule: the loop body is only
    entered with an index inside the array. *)
Theorem cursor_stays_within_items (W : World) (N : nat) (body : nat -> Prog LoopCtl)
    (concurrency : nat) (evs : list SchedEvent) (st : Store) :
  index st <= N ->
  let started := spawn W N body concurrency st in
  let cfg := steps W N body evs {| pool := started.1; store := started.2 |} in
  index st <= index (store cfg) /\ index (store cfg) <= N.
Proof.
  intros Hle started cfg.
  destruct (cursor_inv_spawn W N body concurrency st) as [H1 H2].
  destruct (cursor_inv_steps W N body evs {| pool := started.1; store := started.2 |})
    as [H3 H4].
  subst cfg started. simpl in *. split; [lia | auto].
Qed.

(** X4, witness: two accounts and three workers. *)
Lemma cursor_stays_within_items_witness :
  let body := CreateV1.body "data/t1" [Examples.acc1; Cases.acc2] in
  let started := spawn Examples.happy 2 body 3 (fresh_store ["data/t1"]) in
  let cfg := steps Examples.happy 2 body [Resume 1; Resume 0; Resume 2; Resume 1]
               {| pool := started.1; store := started.2 |} in
  index (fresh_store ["data/t1"]) <= index (store cfg) /\ index (store cfg) <= 2.
Proof.
  apply (cursor_stays_within_items Examples.happy 2
           (CreateV1.body "data/t1" [Examples.acc1; Cases.acc2]) 3
           [Resume 1; Resume 0; Resume 2; Resume 1] (fresh_store ["data/t1"])).
  simpl. lia.
Defined.

(** ** [ensureUserDir] *)

Lemma ensureUserDir_run W userId st :
  let dir := path_join (DATA_DIR W) userId in
  run W (ensureUserDir W userId) st
  = if bool_decide (dir ∈ dirs st) then (Done dir, st)
    else match mkdir_error W dir with
         | Some e => (Raised e, st)
         | None => (Done dir, set_dirs (dir :: dirs st) st)
         end.
Proof.
  intros dir. unfold ensureUserDir. fold dir. simpl.
  destruct (bool_decide (dir ∈ dirs st)); simpl; [reflexivity |].
  now destruct (mkdir_error W dir).
Qed.

(** X5: for a user id that is a plain path segment, [ensureUserDir]
    returns [path.join(DATA_DIR, userId)], the normalised path, and leaves
    the directory in place; calling it again then changes nothing and
    cannot throw, whatever [mkdirSync] would do.  When it throws, the error
    is that of [mkdirSync] on a directory that did not exist, and nothing
    has changed. *)
Theorem ensureUserDir_idempotent (W : World) (userId : string) (st : Store) :
  plain_segment userId ->
  let dir := path_join (DATA_DIR W) userId in
  match run W (ensureUserDir W userId) st with
  | (Done d, st') =>
      d = dir /\ dir ∈ dirs st'
      /\ (forall W', DATA_DIR W' = DATA_DIR W ->
            run W' (ensureUserDir W' userId) st' = (Done dir, st'))
  | (Raised e, st') => st' = st /\ (dir ∉ dirs st) /\ mkdir_error W dir = Some e
  | (Blocked _ _, _) => False
  end.
Proof.
  intros _ dir. rewrite ensureUserDir_run. fold dir.
  destruct (bool_decide (dir ∈ dirs st)) eqn:Hex.
  - apply bool_decide_eq_true in Hex. repeat split; [exact Hex |].
    intros W' HW. rewrite ensureUserDir_run, HW. fold dir.
    now rewrite bool_decide_eq_true_2.
  - apply bool_decide_eq_false in Hex.
    destruct (mkdir_error W dir) as [e |] eqn:Hmk; [auto |].
    repeat split; [simpl; set_solver |].
    intros W' HW. rewrite ensureUserDir_run, HW. fold dir.
    rewrite bool_decide_eq_true_2; [reflexivity | simpl; set_solver].
Qed.

(** X5, witness: the default [DATA_DIR], the user [t1], and no directory
    yet: the path returned has lost its [./]. *)
Lemma ensureUserDir_idempotent_witness :
  match run Examples.happy (ensureUserDir Examples.happy "t1") (fresh_store ["data"]) with
  | (Done d, st') =>
      d = path_join (DATA_DIR Examples.happy) "t1"
      /\ path_join (DATA_DIR Examples.happy) "t1" ∈ dirs st'
      /\ (forall W', DATA_DIR W' = DATA_DIR Examples.happy ->
            run W' (ensureUserDir W' "t1") st'
            = (Done (path_join (DATA_DIR Examples.happy) "t1"), st'))
  | (Raised e, st') =>
      st' = fresh_store ["data"]
      /\ (path_join (DATA_DIR Examples.happy) "t1" ∉ dirs (fresh_store ["data"]))
      /\ mkdir_error Examples.happy (path_join (DATA_DIR Examples.happy) "t1") = Some e
  | (Blocked _ _, _) => False
  end.
Proof.
  apply (ensureUserDir_idempotent Examples.happy "t1" (fresh_store ["data"])).
  apply (bool_decide_unpack _). vm_compute. reflexivity.
Defined.

(** On the default [DATA_DIR] the path returned is [data/t1]; for an empty
    user id it is [DATA_DIR] itself, normalised, and nothing is created
    when that exists. *)
Example ensureUserDir_default :
  run Examples.happy (ensureUserDir Examples.happy "t1") (fresh_store [])
  = (Done "data/t1", set_dirs ["data/t1"] (fresh_store []))
  /\ run Examples.happy (ensureUserDir Examples.happy EmptyString) (fresh_store ["data"])
     = (Done "data", fresh_store ["data"]).
Proof. vm_compute. split; reflexivity. Qed.

(** ** Session creation on the pool *)

Lemma CreateV1_body_nothrow userDir accounts i :
  i < length accounts -> NoThrow (CreateV1.body userDir accounts i).
Proof.
  intros Hi. unfold CreateV1.body.
  destruct (lookup_lt_is_Some_2 accounts i Hi) as [acc ->].
  eapply Ends_weaken; [| | apply CreateV1_item_ends]; simpl; auto.
Qed.

(** X6: the first copy of [startCreateSessions] rejects in one case only:
    [mkdirSync] fails on the user's directory, before any worker is started.
    No failure of a browser call and no schedule makes it reject. *)
Theorem createSessions_V1_rejects_only_on_mkdir (W : World) (existing : list string)
    (jobId userId : string) (accounts : list Account) (concurrency : nat)
    (evs : list SchedEvent) (e : Error) (cfg : Config) (evs' : list SchedEvent) :
  CreateV1.startCreateSessions W existing jobId userId accounts concurrency evs
    = Failed e cfg evs' ->
  let dir := path_join (DATA_DIR W) userId in
  (dir ∉ existing) /\ mkdir_error W dir = Some e
  /\ cfg = {| pool := []; store := fresh_store existing |} /\ evs' = evs.
Proof.
  intros H dir. unfold CreateV1.startCreateSessions in H.
  rewrite ensureUserDir_run in H. fold dir in H. simpl in H.
  assert (Hno : forall st e0 c0 evs0,
             (let '(ws, st1) := spawn W (length accounts) (CreateV1.body dir accounts)
                                  concurrency st in
              match await_all W (length accounts) (CreateV1.body dir accounts) evs
                      {| pool := ws; store := st1 |} with
              | None => Suspended
              | Some (Rejected e1, cfg1, evs1) => Failed e1 cfg1 evs1
              | Some (Fulfilled _, cfg1, evs1) =>
                  Resolved {| ret_jobId := jobId;
                              ret_results := results (set_registered false (store cfg1));
                              ret_summary :=
                                summarize (results (set_registered false (store cfg1))) |}
                           {| pool := pool cfg1;
                              store := set_registered false (store cfg1) |} evs1
              end) <> Failed e0 c0 evs0).
  { intros st e0 c0 evs0.
    pose proof (spawn_nothrow W (length accounts) (CreateV1.body dir accounts)
                  (CreateV1_body_nothrow dir accounts) concurrency st) as Hsp.
    destruct (spawn W (length accounts) (CreateV1.body dir accounts) concurrency st)
      as [ws st1]. simpl in Hsp.
    pose proof (await_all_nothrow W (length accounts) (CreateV1.body dir accounts)
                  (CreateV1_body_nothrow dir accounts) evs
                  {| pool := ws; store := st1 |}) as Haw.
    destruct (await_all _ _ _ evs _) as [[[[[] | e1] cfg1] evs1] |]; try discriminate.
    intros _. exact (Haw e1 cfg1 evs1 Hsp eq_refl). }
  destruct (bool_decide (dir ∈ existing)) eqn:Hex.
  - exfalso. exact (Hno _ _ _ _ H).
  - apply bool_decide_eq_false in Hex.
    destruct (mkdir_error W dir) as [e1 |] eqn:Hmk.
    + injection H as <- <- <-. auto.
    + exfalso. exact (Hno _ _ _ _ H).
Qed.

(** X6, witness: the user's directory is missing and cannot be created. *)
Lemma createSessions_V1_rejects_only_on_mkdir_witness :
  ("data/t1" ∉ ([] : list string))
  /\ mkdir_error Cases.readonly "data/t1" = Some Cases.denied
  /\ {| pool := []; store := fresh_store [] |} = {| pool := []; store := fresh_store [] |}
  /\ [Resume 0] = [Resume 0].
Proof.
  apply (createSessions_V1_rejects_only_on_mkdir Cases.readonly [] "job" "t1"
           [Examples.acc1] 1 [Resume 0] Cases.denied
           {| pool := []; store := fresh_store [] |} [Resume 0]).
  vm_compute. reflexivity.
Defined.

Lemma CreateV2_body_sync userDir accounts i :
  Sync (fun o => exists acc, acc ∈ accounts /\ o = CreateV2.open_failed acc)
    (CreateV2.body userDir accounts i).
Proof.
  unfold CreateV2.body. destruct (accounts !! i) as [acc |] eqn:Hacc; [| exact I].
  apply list_elem_of_lookup_2 in Hacc. unfold CreateV2.item.
  repeat (cbn; intros;
          match goal with
          | |- _ /\ _ => split
          | H : None = Some _ |- _ => discriminate H
          | H : Some _ = Some _ |- _ => injection H as <-
          | |- context [match ?x with _ => _ end] => is_var x; destruct x
          | |- True => exact I
          | |- exists _, _ => exists acc; split; [exact Hacc | reflexivity]
          end).
Qed.

Section SyncFacts.

Variable W : World.
Variable N : nat.
Variable body : nat -> Prog LoopCtl.
Variable P : Outcome -> Prop.
Hypothesis body_sync : forall i, Sync P (body i).

Lemma worker_loop_sync fuel :
  forall st, exists l,
    results (worker_loop W N body fuel st).2 = results st ++ l /\ Forall P l.
Proof.
  induction fuel as [| fuel IH]; intros st; simpl;
    [exists []; split; [now rewrite app_nil_r | constructor] |].
  destruct ((index st <? N) && negb (stopRequested (job st)));
    [| exists []; split; [now rewrite app_nil_r | constructor]].
  destruct (Sync_run W P (body (index st)) (set_index (S (index st)) st)
              (body_sync _)) as (l & Hl & HP).
  destruct (run W (body (index st)) (set_index (S (index st)) st))
    as [[[] | e | ev rest] st']; cbn [fst snd] in *; try (exists l; now split).
  destruct (IH st') as (l' & Hl' & HP'). exists (l ++ l').
  split; [now rewrite Hl', Hl, app_assoc | now apply Forall_app].
Qed.

Lemma spawn_sync c :
  forall st, exists l,
    results (spawn W N body c st).2 = results st ++ l /\ Forall P l.
Proof.
  induction c as [| c IH]; intros st; simpl;
    [exists []; split; [now rewrite app_nil_r | constructor] |].
  destruct (worker_loop_sync (S (N - index st)) st) as (l & Hl & HP). unfold worker.
  destruct (worker_loop W N body (S (N - index st)) st) as [w st1].
  destruct (IH st1) as (l' & Hl' & HP').
  destruct (spawn W N body c st1) as [ws st2]. cbn [fst snd] in *.
  exists (l ++ l'). split; [now rewrite Hl', Hl, app_assoc | now apply Forall_app].
Qed.

End SyncFacts.

Lemma CreateV2_resolved_results W existing jobId userId accounts concurrency evs r cfg evs' :
  CreateV2.startCreateSessions W existing jobId userId accounts concurrency evs
    = Resolved r cfg evs' ->
  Forall (fun o => exists acc, acc ∈ accounts /\ o = CreateV2.open_failed acc)
    (ret_results r).
Proof.
  unfold CreateV2.startCreateSessions. rewrite ensureUserDir_run. simpl.
  set (dir := path_join (DATA_DIR W) userId).
  assert (G : forall st, results st = [] ->
            (let '(ws, st1) := spawn W (length accounts) (CreateV2.body dir accounts)
                                 concurrency st in
             Resolved {| ret_jobId := jobId;
                         ret_results := results (set_registered false st1);
                         ret_summary := summarize (results (set_registered false st1)) |}
                      {| pool := ws; store := set_registered false st1 |} evs)
            = Resolved r cfg evs' ->
            Forall (fun o => exists acc, acc ∈ accounts /\ o = CreateV2.open_failed acc)
              (ret_results r)).
  { intros st Hst.
    destruct (spawn_sync W (length accounts) (CreateV2.body dir accounts) _
                (CreateV2_body_sync dir accounts) concurrency st) as (l & Hl & HP).
    destruct (spawn W (length accounts) (CreateV2.body dir accounts) concurrency st)
      as [ws st1]. cbn [fst snd] in *.
    intros [= <- _ _]. simpl. now rewrite Hl, Hst. }
  destruct (bool_decide (dir ∈ existing)); [now apply G |].
  destruct (mkdir_error W dir); [discriminate | now apply G].
Qed.

(** X7: whatever the accounts, the world and the concurrency, the records
    the second copy of [startCreateSessions] hands over when it resolves are
    all failure records with the "could not open" message (pushed without
    suspension when a profile directory cannot be created): no record with
    [ok: true] is ever among them, and [summary.success] is 0. *)
Theorem createSessions_V2_resolves_with_failures_only (W : World)
    (existing : list string) (jobId userId : string) (accounts : list Account)
    (concurrency : nat) (evs : list SchedEvent) :
  match CreateV2.startCreateSessions W existing jobId userId accounts concurrency evs with
  | Resolved r cfg evs' =>
      Forall (fun o => exists acc, acc ∈ accounts /\ o = CreateV2.open_failed acc)
        (ret_results r)
      /\ success (ret_summary r) = 0
      /\ failed (ret_summary r) = length (ret_results r)
  | _ => True
  end.
Proof.
  destruct (CreateV2.startCreateSessions W existing jobId userId accounts concurrency evs)
    as [| r cfg evs' | e cfg evs'] eqn:E; try exact I.
  pose proof (CreateV2_resolved_results _ _ _ _ _ _ _ _ _ _ E) as HF.
  rewrite (CreateV2_summary _ _ _ _ _ _ _ _ _ _ E). unfold summarize. simpl.
  split; [exact HF |].
  induction HF as [| o rs (acc & _ & ->) _ [IH1 IH2]]; [split; reflexivity |].
  rewrite !filter_cons.
  destruct (decide (ok_field (CreateV2.open_failed acc) = Some true)) as [H | _];
    [discriminate H |].
  destruct (decide (ok_field (CreateV2.open_failed acc) = Some false)) as [_ | H];
    [| now contradiction H].
  simpl. split; [exact IH1 | now rewrite IH2].
Qed.

(** No profile directory can be created: both accounts are recorded as
    failed before the call resolves. *)
Example createSessions_V2_directories_denied :
  match CreateV2.startCreateSessions Cases.readonly ["data/t1"] "job" "t1"
          [Examples.acc1; Cases.acc2] 1 [] with
  | Resolved r _ _ =>
      ret_results r = [CreateV2.open_failed Examples.acc1; CreateV2.open_failed Cases.acc2]
      /\ ret_summary r = {| success := 0; failed := 2 |}
  | _ => False
  end.
Proof. vm_compute. auto. Qed.

(** ** The upload route *)

Lemma persist_nothing basename db_error userId rs :
  Forall (fun r => Upload.stored_path r = None) rs ->
  forall n db, Upload.persist basename db_error userId rs n db = (None, db).
Proof.
  induction 1 as [| r rs Hr _ IH]; intros n db; simpl; [reflexivity |].
  rewrite Hr. apply IH.
Qed.

(** X8: when the route's [startCreateSessions] is the second copy, the loop
    that stores created sessions stores nothing and issues no query: every
    record it is given has [ok: false]. *)
Theorem upload_with_V2_persists_nothing (basename : string -> string)
    (db_error : nat -> option Error) (W : World) (existing : list string)
    (jobId userId : string) (accounts : list Account) (concurrency : nat)
    (evs : list SchedEvent) (owner : string) (n : nat) (db : list Upload.Row) :
  match CreateV2.startCreateSessions W existing jobId userId accounts concurrency evs with
  | Resolved r _ _ =>
      Upload.persist basename db_error owner (ret_results r) n db = (None, db)
  | _ => True
  end.
Proof.
  destruct (CreateV2.startCreateSessions W existing jobId userId accounts concurrency evs)
    as [| r cfg evs' | e cfg evs'] eqn:E; try exact I.
  apply persist_nothing.
  eapply Forall_impl; [apply (CreateV2_resolved_results _ _ _ _ _ _ _ _ _ _ E) |].
  intros o (acc & _ & ->). reflexivity.
Qed.

(** ** The partition of the links *)

Lemma forEach_zero names links :
  forall idx m, Partition.forEach names 0 idx links m = Some m.
Proof.
  induction links as [| link rest IH]; intros idx m; simpl; [reflexivity |].
  unfold Partition.assign, Partition.floor_div. simpl. apply IH.
Qed.

Lemma groupsBySession_total names links k :
  is_Some (Partition.groupsBySession names links k).
Proof.
  unfold Partition.groupsBySession. destruct k as [| k].
  - rewrite forEach_zero. eauto.
  - destruct (forEach_spec names (S k) ltac:(lia) links 0 (Partition.init names))
      as (m & -> & _); [| eauto].
    intros name Hin. rewrite init_lookup, decide_True by assumption. eauto.
Qed.

Lemma forEach_int_nonneg names k :
  (0 <= k)%Z ->
  forall links idx m,
    Partition.forEach_int names k idx links m
    = Partition.forEach names (Z.to_nat k) idx links m.
Proof.
  intros Hk. induction links as [| link rest IH]; intros idx m; simpl; [reflexivity |].
  unfold Partition.assign_int. rewrite decide_True by exact Hk.
  destruct (Partition.assign names (Z.to_nat k) m idx link) as [m' |]; simpl;
    [apply IH | reflexivity].
Qed.

Lemma forEach_int_negative names k :
  (k < 0)%Z ->
  forall links idx m,
    0 < idx ->
    is_Some (Partition.forEach_int names k idx links m)
    <-> links = [] \/ is_Some (m !! "undefined").
Proof.
  intros Hk. induction links as [| link rest IH]; intros idx m Hidx; simpl.
  - split; [now left | eauto].
  - unfold Partition.assign_int. rewrite decide_False by lia.
    destruct idx as [| idx]; [lia |]. unfold Partition.push_link.
    destruct (m !! "undefined") as [l |] eqn:Hm; simpl.
    + rewrite IH by lia. rewrite lookup_insert_eq. split; [eauto | intros _; eauto].
    + split; [intros [? ?]; discriminate | intros [? | [? ?]]; discriminate].
Qed.

(** X9: the partition for an integer [groupsPerSession].  When it is not
    negative the table is always built, whatever the names and the links;
    with [groupsPerSession = 0] the quotient is [Infinity] (or [NaN]), no
    link is assigned, and the table maps every session name to the empty
    list.  When it is negative, the partition throws a TypeError unless
    there is one link at most or a session is named [undefined]. *)
Theorem groupsBySession_throws_only_when_negative (sessionNames groupLinks : list string)
    (k : Z) :
  ((0 <= k)%Z ->
     Partition.groupsBySession_int sessionNames groupLinks k
     = Partition.groupsBySession sessionNames groupLinks (Z.to_nat k)
     /\ is_Some (Partition.groupsBySession_int sessionNames groupLinks k))
  /\ ((k < 0)%Z ->
       (is_Some (Partition.groupsBySession_int sessionNames groupLinks k)
        <-> length groupLinks <= 1 \/ "undefined" ∈ sessionNames))
  /\ Partition.groupsBySession_int sessionNames groupLinks 0
     = Some (Partition.init sessionNames)
  /\ forall name,
       Partition.init sessionNames !! name
       = if decide (name ∈ sessionNames) then Some [] else None.
Proof.
  assert (Hpos : forall k0, (0 <= k0)%Z ->
            Partition.groupsBySession_int sessionNames groupLinks k0
            = Partition.groupsBySession sessionNames groupLinks (Z.to_nat k0)).
  { intros k0 Hk0. apply forEach_int_nonneg, Hk0. }
  split; [| split; [| split]].
  - intros Hk. rewrite Hpos by exact Hk. split; [reflexivity | apply groupsBySession_total].
  - intros Hk. unfold Partition.groupsBySession_int.
    destruct groupLinks as [| link rest]; simpl.
    + split; [intros _; left; lia | eauto].
    + unfold Partition.assign_int. rewrite decide_False by lia.
      destruct (sessionNames !! 0) as [sessName |] eqn:H0; simpl.
      * assert (Hin : sessName ∈ sessionNames) by (eapply list_elem_of_lookup_2, H0).
        unfold Partition.push_link. rewrite init_lookup, decide_True by exact Hin. simpl.
        rewrite forEach_int_negative by (exact Hk || lia).
        destruct (decide (sessName = "undefined")) as [-> | Hne].
        -- rewrite lookup_insert_eq. split; [intros _; now right | intros _; eauto].
        -- rewrite lookup_insert_ne, init_lookup by exact Hne.
           destruct (decide ("undefined" ∈ sessionNames)) as [Hu | Hu].
           ++ split; [intros _; now right | intros _; eauto].
           ++ split.
              ** intros [-> | [? ?]]; [left; simpl; lia | discriminate].
              ** intros [Hl | ?]; [| contradiction]. left.
                 destruct rest; [reflexivity | simpl in Hl; lia].
      * rewrite forEach_int_negative by (exact Hk || lia).
        destruct sessionNames as [| ? ?]; [| discriminate].
        unfold Partition.init. simpl. rewrite lookup_empty. split.
        -- intros [-> | [? ?]]; [left; simpl; lia | discriminate].
        -- intros [Hl | Hu]; [| now apply elem_of_nil in Hu]. left.
           destruct rest; [reflexivity | simpl in Hl; lia].
  - rewrite Hpos by lia. apply forEach_zero.
  - intros name. apply init_lookup.
Qed.

(** The partition on -1: the second link is pushed on the list of the key
    [undefined], and the access throws unless a session has that name. *)
Example groupsBySession_negative :
  Partition.groupsBySession_int ["A"; "B"] ["l1"; "l2"] (-1) = None
  /\ Partition.groupsBySession_int ["A"; "B"] ["l1"] (-1)
     = Some {[ "A" := ["l1"]; "B" := [] ]}
  /\ Partition.groupsBySession_int ["A"; "undefined"] ["l1"; "l2"; "l3"] (-1)
     = Some {[ "A" := ["l1"]; "undefined" := ["l2"; "l3"] ]}.
Proof. vm_compute. repeat split; reflexivity. Qed.

Lemma div_eq_iff idx k j : 0 < k -> idx / k = j <-> j * k <= idx < (j + 1) * k.
Proof.
  intros Hk. pose proof (Nat.div_mod idx k ltac:(lia)) as Hd.
  pose proof (Nat.mod_upper_bound idx k ltac:(lia)) as Hm. split.
  - intros <-. nia.
  - intros [H1 H2]. symmetry. apply (Nat.div_unique idx k j (idx - j * k)); lia.
Qed.

Lemma links_from_chunk names k j name :
  0 < k -> NoDup names -> names !! j = Some name ->
  forall links idx,
    links_from names k name idx links
    = take ((j + 1) * k - Nat.max idx (j * k)) (drop (j * k - idx) links).
Proof.
  intros Hk Hnd Hj. induction links as [| link rest IH]; intros idx.
  - simpl. now rewrite drop_nil, take_nil.
  - cbn [links_from]. rewrite IH.
    assert (Hiff : names !! (idx / k) = Some name <-> j * k <= idx < (j + 1) * k).
    { rewrite <- div_eq_iff by assumption. split.
      - intros H. exact (NoDup_lookup _ _ _ _ Hnd H Hj).
      - intros ->. exact Hj. }
    destruct (decide (names !! (idx / k) = Some name)) as [Hin | Hout].
    + apply Hiff in Hin. replace (j * k - idx) with 0 by lia.
      replace (j * k - S idx) with 0 by lia. simpl drop.
      replace ((j + 1) * k - Nat.max idx (j * k))
        with (S ((j + 1) * k - Nat.max (S idx) (j * k))) by lia.
      reflexivity.
    + rewrite Hiff in Hout. simpl app.
      destruct (decide (idx < j * k)) as [Hlt | Hge].
      * replace (j * k - idx) with (S (j * k - S idx)) by lia. simpl drop.
        f_equal. lia.
      * replace ((j + 1) * k - Nat.max (S idx) (j * k)) with 0 by lia.
        replace ((j + 1) * k - Nat.max idx (j * k)) with 0 by lia.
        reflexivity.
Qed.

(** X10: when the session names are pairwise distinct and
    [groupsPerSession = k > 0], the list of the [j]-th session is the [j]-th
    block of [k] consecutive links: [groupLinks.slice(j * k, j * k + k)]. *)
Theorem groupsBySession_chunks (sessionNames groupLinks : list string) (k j : nat)
    (name : string) :
  0 < k -> NoDup sessionNames -> sessionNames !! j = Some name ->
  exists m,
    Partition.groupsBySession sessionNames groupLinks k = Some m
    /\ m !! name = Some (take k (drop (j * k) groupLinks)).
Proof.
  intros Hk Hnd Hj. unfold Partition.groupsBySession.
  destruct (forEach_spec sessionNames k Hk groupLinks 0 (Partition.init sessionNames))
    as (m & Hm & Hlook).
  { intros n Hin. rewrite init_lookup, decide_True by assumption. eauto. }
  exists m. split; [exact Hm |].
  rewrite Hlook, init_lookup.
  rewrite decide_True by (eapply list_elem_of_lookup_2; eassumption).
  simpl. rewrite (links_from_chunk _ _ _ _ Hk Hnd Hj). f_equal. f_equal; [lia | f_equal; lia].
Qed.

(** X10, witness: three sessions, five links, two links per session: the
    third session gets the last link alone. *)
Lemma groupsBySession_chunks_witness :
  exists m,
    Partition.groupsBySession ["A"; "B"; "C"] ["l1"; "l2"; "l3"; "l4"; "l5"] 2 = Some m
    /\ m !! "C" = Some (take 2 (drop (2 * 2) ["l1"; "l2"; "l3"; "l4"; "l5"])).
Proof.
  apply (groupsBySession_chunks ["A"; "B"; "C"] ["l1"; "l2"; "l3"; "l4"; "l5"] 2 2 "C").
  - lia.
  - apply (bool_decide_unpack _). vm_compute. reflexivity.
  - reflexivity.
Defined.

(** ** Entry points with nothing to do *)

Section IdlePool.

Variable W : World.
Variable N : nat.
Variable body : nat -> Prog LoopCtl.





End IdlePool.



(** ** A call that rejects *)

Lemma pool_rejected_registered W N body c st evs :
  Forall (fun ev => ev <> StopAllCalled) evs ->
  registered st = true ->
  forall r cfg evs',
    (let '(ws, st1) := spawn W N body c st in
     await_all W N body evs {| pool := ws; store := st1 |}) = Some (r, cfg, evs') ->
    registered (store cfg) = true.
Proof.
  intros Hevs Hreg r cfg evs'.
  pose proof (registered_inv_spawn W N body c st) as Hsp.
  destruct (spawn W N body c st) as [ws st1]. cbn [snd] in Hsp.
  intros H. rewrite (registered_await_all W N body evs _ _ _ _ Hevs H).
  simpl. now rewrite Hsp.
Qed.

(** X12: when an awaited entry point rejects and [stopAll] has not been
    called, [JOBS] still holds its job: [JOBS.delete(jobId)] is only reached
    when every worker has returned. *)
Theorem rejected_call_stays_registered (W : World) (existing : list string)
    (jobId userId : string) (accounts : list Account) (sessionNames groupLinks : list string)
    (imagePath commentText captionText : string) (concurrency groupsPerSession : nat)
    (evs : list SchedEvent) :
  Forall (fun ev => ev <> StopAllCalled) evs ->
  rejected_registered
    (CreateV1.startCreateSessions W existing jobId userId accounts concurrency evs)
  /\ (forall joinSelector when_absent,
        rejected_registered
          (Join.startJoinGroups joinSelector when_absent W existing jobId userId
             sessionNames groupLinks concurrency groupsPerSession evs))
  /\ (forall attempt,
        rejected_registered
          (Post.startPostAndComment attempt W existing jobId userId sessionNames
             imagePath commentText concurrency captionText evs)).
Proof.
  intros Hevs.
  unfold CreateV1.startCreateSessions, Join.startJoinGroups, Post.startPostAndComment.
  rewrite ensureUserDir_run. simpl.
  set (dir := path_join (DATA_DIR W) userId).
  assert (G : forall st, registered st = true ->
    rejected_registered
      (let '(ws0, st1) := spawn W (length accounts) (CreateV1.body dir accounts)
                            concurrency st in
       match await_all W (length accounts) (CreateV1.body dir accounts) evs
               {| pool := ws0; store := st1 |} with
       | None => Suspended
       | Some (Rejected e, cfg, evs') => Failed e cfg evs'
       | Some (Fulfilled _, cfg, evs') =>
           Resolved {| ret_jobId := jobId;
                       ret_results := results (set_registered false (store cfg));
                       ret_summary := summarize (results (set_registered false (store cfg))) |}
                    {| pool := pool cfg; store := set_registered false (store cfg) |} evs'
       end)
    /\ (forall joinSelector when_absent,
        rejected_registered
          match Partition.groupsBySession sessionNames groupLinks groupsPerSession with
          | None => Failed TypeError_undefined {| pool := []; store := st |} evs
          | Some gbs =>
              let '(ws0, st1) :=
                spawn W (length sessionNames)
                  (Join.body joinSelector when_absent dir gbs sessionNames) concurrency st in
              match await_all W (length sessionNames)
                      (Join.body joinSelector when_absent dir gbs sessionNames) evs
                      {| pool := ws0; store := st1 |} with
              | None => Suspended
              | Some (Rejected e, cfg, evs') => Failed e cfg evs'
              | Some (Fulfilled _, cfg, evs') =>
                  Resolved {| jret_jobId := jobId;
                              jret_results := results (set_registered false (store cfg)) |}
                           {| pool := pool cfg; store := set_registered false (store cfg) |}
                           evs'
              end
          end)
    /\ (forall attempt,
        rejected_registered
          (let '(ws0, st1) :=
             spawn W (length sessionNames)
               (Post.body attempt dir imagePath commentText captionText sessionNames)
               concurrency st in
           match await_all W (length sessionNames)
                   (Post.body attempt dir imagePath commentText captionText sessionNames) evs
                   {| pool := ws0; store := st1 |} with
           | None => Suspended
           | Some (Rejected e, cfg, evs') => Failed e cfg evs'
           | Some (Fulfilled _, cfg, evs') =>
               Resolved {| ret_jobId := jobId;
                           ret_results := results (set_registered false (store cfg));
                           ret_summary :=
                             summarize (results (set_registered false (store cfg))) |}
                        {| pool := pool cfg; store := set_registered false (store cfg) |} evs'
           end))).
  { intros st Hreg. split; [| split].
    - pose proof (pool_rejected_registered W (length accounts) (CreateV1.body dir accounts)
                    concurrency st evs Hevs Hreg) as H.
      destruct (spawn _ _ _ concurrency st) as [ws st1].
      destruct (await_all _ _ _ evs _) as [[[[[] | e] cfg] evs'] |]; simpl; auto.
      exact (H _ _ _ eq_refl).
    - intros joinSelector when_absent.
      destruct (Partition.groupsBySession _ _ _) as [gbs |]; [| exact Hreg].
      pose proof (pool_rejected_registered W (length sessionNames)
                    (Join.body joinSelector when_absent dir gbs sessionNames)
                    concurrency st evs Hevs Hreg) as H.
      destruct (spawn _ _ _ concurrency st) as [ws st1].
      destruct (await_all _ _ _ evs _) as [[[[[] | e] cfg] evs'] |]; simpl; auto.
      exact (H _ _ _ eq_refl).
    - intros attempt.
      pose proof (pool_rejected_registered W (length sessionNames)
                    (Post.body attempt dir imagePath commentText captionText sessionNames)
                    concurrency st evs Hevs Hreg) as H.
      destruct (spawn _ _ _ concurrency st) as [ws st1].
      destruct (await_all _ _ _ evs _) as [[[[[] | e] cfg] evs'] |]; simpl; auto.
      exact (H _ _ _ eq_refl). }
  destruct (bool_decide (dir ∈ existing)); [now apply G |].
  destruct (mkdir_error W dir) as [e |]; [simpl; auto | now apply G].
Qed.

(** X12, witness: the launch of the only session rejects; the call rejects
    with that error and the job is still registered. *)
Lemma rejected_call_stays_registered_witness :
  let W := Examples.world [] Cases.is_launch in
  let existing := ["data/t1"; "data/t1/A"] in
  rejected_registered
    (CreateV1.startCreateSessions W existing "job" "t1" [Examples.acc1] 1 [Resume 0])
  /\ (forall joinSelector when_absent,
        rejected_registered
          (Join.startJoinGroups joinSelector when_absent W existing "job" "t1"
             ["A"] ["l1"] 1 1 [Resume 0]))
  /\ (forall attempt,
        rejected_registered
          (Post.startPostAndComment attempt W existing "job" "t1" ["A"]
             "img.png" "hello" 1 "cap" [Resume 0])).
Proof.
  apply (rejected_call_stays_registered (Examples.world [] Cases.is_launch)
           ["data/t1"; "data/t1/A"] "job" "t1" [Examples.acc1] ["A"] ["l1"]
           "img.png" "hello" "cap" 1 1 [Resume 0]).
  repeat constructor; discriminate.
Defined.

(** The launch of the only session rejects: [startJoinGroups] rejects with
    the error of the launch, no record is pushed, and the job stays in
    [JOBS]. *)
Example joinGroups_launch_rejected :
  match JoinV1.startJoinGroups (Examples.world [] Cases.is_launch)
          ["data/t1"; "data/t1/A"] "job" "t1" ["A"] ["l1"] 1 1 [Resume 0] with
  | Failed e cfg evs' =>
      e = Examples.timeout /\ results (store cfg) = []
      /\ registered (store cfg) = true /\ pool cfg = [Crashed Examples.timeout]
  | _ => False
  end.
Proof. vm_compute. auto. Qed.

(** ** One iteration of group join and of post and comment *)

(** The [finally] block of both workflows. *)
Lemma closing_block_ends {R : Type} (p : Prog R) (b : Browser) :
  let closes m := exists m0, m = m0 ++ [Called (EvCall (Close b)); Untracked b] in
  Ends (fun m _ => closes m) (fun m _ => closes m)
    (try_finally p (await_catch (Close b) tt;; stmt (BrowsersRemove b))).
Proof.
  intros closes.
  eapply Ends_try_finally; [apply Ends_True | |]; simpl; intros m ? _ [[] | e]; simpl;
    exists m; reflexivity.
Qed.

Lemma Replays_closed st m0 st' b :
  Replays st (m0 ++ [Called (EvCall (Close b)); Untracked b]) st' ->
  EvCall (Close b) ∈ trace st' /\ b ∉ browsers (job st').
Proof.
  intros HR. split.
  - eapply Replays_called; [exact HR |]. set_solver.
  - destruct HR as (_ & _ & ->). rewrite track_app. simpl.
    intros Hin. apply list_elem_of_filter in Hin as [Hne _]. now apply Hne.
Qed.

Lemma finish_closing W cancel {R : Type} (p : Prog R) b st :
  let st' := (finish W cancel
                (try_finally p (await_catch (Close b) tt;; stmt (BrowsersRemove b))) st).2 in
  EvCall (Close b) ∈ trace st' /\ b ∉ browsers (job st').
Proof.
  intros st'. subst st'.
  destruct (Ends_finish W cancel _ _ _ st (closing_block_ends p b)) as (m & HR & Hm).
  destruct (finish W cancel (try_finally p _) st) as [[r | e] st1]; simpl in *;
    destruct Hm as [m0 ->]; eapply Replays_closed, HR.
Qed.

Lemma finish_closing_then W cancel {R A : Type} (p : Prog R) (k : R -> Prog A) b st :
  let st' := (finish W cancel
                (try_finally p (await_catch (Close b) tt;; stmt (BrowsersRemove b))
                   ≫= fun r => k r) st).2 in
  (forall r st0, (finish W cancel (k r) st0).2 = st0) ->
  EvCall (Close b) ∈ trace st' /\ b ∉ browsers (job st').
Proof.
  intros st' Hk. subst st'. rewrite finish_mbind.
  pose proof (finish_closing W cancel p b st) as H. simpl in H.
  destruct (finish W cancel (try_finally p _) st) as [[r | e] st1]; simpl in *;
    [now rewrite Hk | exact H].
Qed.

(** X13: in group join and in post and comment, a browser that was launched
    is passed to [close] and taken out of [job.browsers] before the
    iteration ends, on every path: when the page cannot be opened, when a
    step throws, when the run is cancelled.  (The first copy of session
    creation does not have this property.) *)
Theorem launched_browser_is_closed (W : World) (cancel : nat -> bool)
    (userDir sessName : string) (st : Store) (b : Browser) :
  let sessionPath := path_join userDir (sanitizeName sessName) in
  sessionPath ∈ dirs st ->
  respond W _ (length (trace st)) (Launch sessionPath) = Fulfilled b ->
  (forall joinSelector when_absent groupsBySession,
     let st' := (finish W cancel
                   (Join.item joinSelector when_absent userDir groupsBySession sessName)
                   st).2 in
     EvCall (Close b) ∈ trace st' /\ b ∉ browsers (job st'))
  /\ (forall attempt imagePath commentText captionText,
        let st' := (finish W cancel
                      (Post.item attempt userDir imagePath commentText captionText sessName)
                      st).2 in
        EvCall (Close b) ∈ trace st' /\ b ∉ browsers (job st')).
Proof.
  intros sessionPath Hdir Hlaunch. split.
  - intros joinSelector when_absent gbs st'. subst st'. unfold Join.item.
    fold sessionPath. rewrite finish_mbind. cbn [finish stmt exec_stmt].
    rewrite bool_decide_eq_true_2 by assumption. cbn [negb].
    rewrite finish_mbind. cbn [finish await]. rewrite Hlaunch.
    cbn [finish]. rewrite finish_mbind. cbn [finish stmt exec_stmt].
    apply finish_closing_then. reflexivity.
  - intros attempt imagePath commentText captionText st'. subst st'. unfold Post.item.
    fold sessionPath. rewrite finish_mbind. cbn [finish stmt exec_stmt].
    rewrite bool_decide_eq_true_2 by assumption. cbn [negb].
    rewrite finish_mbind. cbn [finish await]. rewrite Hlaunch.
    cbn [finish]. rewrite finish_mbind. cbn [finish stmt exec_stmt].
    apply finish_closing.
Qed.

(** X13, witness: the page of the launched browser cannot be opened. *)
Lemma launched_browser_is_closed_witness :
  let W := Examples.world [] Examples.is_newPage in
  let st := fresh_store ["data/t1"; "data/t1/A"] in
  (forall joinSelector when_absent groupsBySession,
     let st' := (finish W Examples.never
                   (Join.item joinSelector when_absent "data/t1" groupsBySession "A")
                   st).2 in
     EvCall (Close (BrowserH 0)) ∈ trace st' /\ BrowserH 0 ∉ browsers (job st'))
  /\ (forall attempt imagePath commentText captionText,
        let st' := (finish W Examples.never
                      (Post.item attempt "data/t1" imagePath commentText captionText "A")
                      st).2 in
        EvCall (Close (BrowserH 0)) ∈ trace st' /\ BrowserH 0 ∉ browsers (job st')).
Proof.
  apply (launched_browser_is_closed (Examples.world [] Examples.is_newPage) Examples.never
           "data/t1" "A" (fresh_store ["data/t1"; "data/t1/A"]) (BrowserH 0)).
  - apply (bool_decide_unpack _). vm_compute. reflexivity.
  - reflexivity.
Defined.

Lemma closing_await_ends {R : Type} (p : Prog R) (b : Browser) :
  let closes m := Called (EvCall (Close b)) ∈ m in
  Ends (fun m _ => closes m) (fun m _ => closes m) (try_finally p (await (Close b))).
Proof.
  intros closes.
  eapply Ends_try_finally; [apply Ends_True | |]; simpl; intros m ? _ [[] | e]; simpl;
    unfold closes; set_solver.
Qed.

(** X14: in the second copy of session creation, a browser that was launched
    is passed to [close] before the iteration ends, on every path. *)
Theorem createSessions_V2_closes_launched_browser (W : World) (cancel : nat -> bool)
    (userDir : string) (acc : Account) (st : Store) (b : Browser) :
  let sessionPath := path_join userDir (sanitizeName (nomorAkun acc)) in
  sessionPath ∈ dirs st \/ mkdir_error W sessionPath = None ->
  respond W _ (length (trace st)) (Launch sessionPath) = Fulfilled b ->
  EvCall (Close b) ∈ trace (finish W cancel (CreateV2.item userDir acc) st).2.
Proof.
  intros sessionPath Hdir Hlaunch. unfold CreateV2.item. fold sessionPath.
  rewrite finish_mbind.
  assert (Hfirst : exists st1,
    finish W cancel
      (try_catch
         (ex ← stmt (ExistsSync sessionPath);
          (if ex : bool then Ret tt else mkdirSync sessionPath);;
          browser ← await (Launch sessionPath);
          Ret (Some browser))
         (fun _ => stmt (ResultsPush (CreateV2.open_failed acc));; Ret None)) st
    = (inl (Some b), st1)).
  { cbn -[path_join sanitizeName].
    destruct (bool_decide (sessionPath ∈ dirs st)) eqn:Hex.
    - cbn -[path_join sanitizeName]. rewrite Hlaunch. eauto.
    - destruct Hdir as [Hin | Hmk];
        [apply bool_decide_eq_false in Hex; contradiction |].
      cbn -[path_join sanitizeName]. rewrite Hmk.
      cbn -[path_join sanitizeName]. rewrite Hlaunch. eauto. }
  destruct Hfirst as [st1 ->]. rewrite finish_mbind.
  destruct (Ends_finish W cancel _ _ _ st1
              (closing_await_ends
                 (try_catch (CreateV2.session acc sessionPath b)
                    (fun _ => stmt (ResultsPush (CreateV2.open_failed acc)))) b))
    as (m & HR & Hm).
  destruct (finish W cancel (try_finally _ _) st1) as [[r | e] st2]; simpl in *.
  - destruct (stopRequested (job st2)); simpl; eapply Replays_called; eassumption.
  - eapply Replays_called; eassumption.
Qed.

(** X14, witness: the navigation to the home page rejects. *)
Lemma createSessions_V2_closes_launched_browser_witness :
  EvCall (Close (BrowserH 0))
    ∈ trace (finish (Examples.world [] is_goto) Examples.never
               (CreateV2.item "data/t1" Examples.acc1) (fresh_store [])).2.
Proof.
  apply (createSessions_V2_closes_launched_browser (Examples.world [] is_goto)
           Examples.never "data/t1" Examples.acc1 (fresh_store []) (BrowserH 0)).
  - right. reflexivity.
  - reflexivity.
Defined.

Lemma pushed_None_effect {T : Type} (s : Stmt T) :
  pushed s = None -> pushes (effect_of s) = [].
Proof. destruct s; simpl; congruence. Qed.

(** A program that pushes no record ends with no record pushed. *)
Lemma Yields_quiet {R : Type} (Q : R -> Prop) (p : Prog R) :
  Yields (fun _ => False) Q p ->
  Ends (fun m _ => pushes m = []) (fun m _ => pushes m = []) p.
Proof.
  induction 1 as [r Hr | e | T s k Hs _ IH | T c k _ IH]; simpl; try reflexivity.
  - intros v. eapply Ends_weaken; [| | apply IH]; simpl; intros m _ Hm;
      rewrite pushes_app, Hm, app_nil_r; apply pushed_None_effect;
      destruct (pushed s) as [r |] eqn:E; try reflexivity; destruct (Hs r eq_refl).
  - intros v. eapply Ends_weaken; [| | apply IH]; simpl; auto.
Qed.

Lemma Join_item_ends joinSelector when_absent userDir groupsBySession sessName :
  (forall pg, Pushes (fun _ => False) (when_absent pg)) ->
  Ends (fun m _ =>
          exists r, pushes m = [r]
            /\ (r = Join.missing sessName \/ exists t, r = Join.finished sessName t))
       (fun m _ => pushes m = [])
       (Join.item joinSelector when_absent userDir groupsBySession sessName).
Proof.
  intros Habs. unfold Join.item. intros [|]; cbn [negb].
  - intros [b | e]; [| reflexivity]. intros []. cbn [Prog_bind bind mbind].
    eapply Ends_bind with
      (Pr' := fun m _ => exists t, pushes m = [Join.finished sessName t]).
    + eapply Ends_try_finally with
        (Pr' := fun m _ => exists t, pushes m = [Join.finished sessName t])
        (Pt' := fun m _ => pushes m = []).
      * intros [page | e]; [| reflexivity]. cbn [Prog_bind bind mbind].
        eapply Ends_bind with (Pr' := fun m _ => pushes m = []).
        -- eapply (Yields_quiet tally_ok), visit_links_yields; [exact Habs |].
           reflexivity.
        -- intros m t Hm []. simpl. exists t. now rewrite pushes_app, Hm.
      * intros m r [t Hm] [[] | e] []; simpl; exists t; now rewrite pushes_app, Hm.
      * intros m e Hm [[] | e'] []; simpl; now rewrite pushes_app, Hm.
    + intros m _ [t Hm]. simpl. exists (Join.finished sessName t).
      rewrite app_nil_r. eauto.
  - intros []. simpl. eauto.
Qed.

(** X15: an iteration of group join that ends normally has pushed exactly
    one record, under the name of its session: the "folder not found"
    record or the "Selesai" record of a tally.  An iteration that throws
    (the launch or the opening of the page rejected) has pushed none. *)
Theorem joinGroups_one_record_per_session (W : World) (cancel : nat -> bool)
    (userDir : string) (groupsBySession : gmap string (list string))
    (sessName : string) (st : Store) :
  let one_record (item : string -> gmap string (list string) -> string -> Prog LoopCtl) :=
    let res := finish W cancel (item userDir groupsBySession sessName) st in
    match res.1 with
    | inl _ =>
        exists r, results res.2 = results st ++ [r]
          /\ (r = Join.missing sessName \/ exists t, r = Join.finished sessName t)
    | inr _ => results res.2 = results st
    end in
  one_record JoinV1.item /\ one_record JoinV2.item.
Proof.
  assert (G : forall joinSelector when_absent,
    (forall pg, Pushes (fun _ => False) (when_absent pg)) ->
    let res := finish W cancel
                 (Join.item joinSelector when_absent userDir groupsBySession sessName) st in
    match res.1 with
    | inl _ =>
        exists r, results res.2 = results st ++ [r]
          /\ (r = Join.missing sessName \/ exists t, r = Join.finished sessName t)
    | inr _ => results res.2 = results st
    end).
  { intros joinSelector when_absent Habs res. subst res.
    destruct (Ends_finish W cancel _ _ _ st
                (Join_item_ends joinSelector when_absent userDir groupsBySession sessName
                   Habs)) as (m & (Hr & _ & _) & Hres).
    destruct (finish W cancel _ st).1 as [ctl | e].
    - destruct Hres as (r & Hp & Hor). exists r. now rewrite Hr, Hp.
    - now rewrite Hr, Hres, app_nil_r. }
  intros one_record. subst one_record. split.
  - apply G. intros pg. constructor. exact I.
  - apply G. intros pg. unfold JoinV2.when_absent. apply Yields_await_catch; auto.
Qed.

(** ** Sessions without a profile directory *)

Section NoSuspension.

Variable W : World.
Variable names : list string.
Variable body : nat -> Prog LoopCtl.
Variable record : string -> Outcome.
Variable D : list string.

(** Every iteration pushes its record and falls through, without
    suspending, as long as the directories are [D]. *)
Hypothesis body_run :
  forall i name st,
    names !! i = Some name -> dirs st = D ->
    run W (body i) st = (Done Next, set_results (results st ++ [record name]) st).



End NoSuspension.


Lemma Join_item_missing W joinSelector when_absent userDir gbs sessName st :
  path_join userDir (sanitizeName sessName) ∉ dirs st ->
  run W (Join.item joinSelector when_absent userDir gbs sessName) st
  = (Done Next, set_results (results st ++ [Join.missing sessName]) st).
Proof.
  intros Hmissing. unfold Join.item. cbn -[path_join sanitizeName].
  rewrite bool_decide_eq_false_2 by assumption. reflexivity.
Qed.




(** For the session name [..] the directory looked up is the parent of the
    user's directory. *)
Example parent_directory_is_looked_up :
  path_join (path_join "./data" "t1") (sanitizeName "..") = "data".
Proof. reflexivity. Qed.

(** ** Posting with retries *)

Lemma postCommentDirectly_ends commentSelector page text :
  Ends (fun m b =>
          pushes m = [] /\ (forall bs, track m bs = bs)
          /\ (b = true -> Called (EvCall (KeyboardPress page "Enter")) ∈ m))
       (fun _ _ => False)
       (Post.postCommentDirectly commentSelector page text).
Proof.
  unfold Post.postCommentDirectly. ends_paths.
  all: split; [reflexivity |]; split; [reflexivity |]; intros H;
    try discriminate H; set_solver.
Qed.

(** X17: [postCommentDirectly] never throws: every failure of a step makes it
    return [false].  It pushes no record and leaves [job.browsers] alone, and
    it returns [true] only after [Enter] has been pressed. *)
Theorem postCommentDirectly_never_throws (W : World) (cancel : nat -> bool)
    (commentSelector : string) (page : Page) (text : string) (st : Store) :
  let res := finish W cancel (Post.postCommentDirectly commentSelector page text) st in
  exists b,
    res.1 = inl b
    /\ results res.2 = results st
    /\ browsers (job res.2) = browsers (job st)
    /\ (b = true -> EvCall (KeyboardPress page "Enter") ∈ trace res.2).
Proof.
  intros res. subst res.
  destruct (Ends_finish W cancel _ _ _ st
              (postCommentDirectly_ends commentSelector page text))
    as (m & HR & Hres).
  destruct (finish W cancel _ st).1 as [b | e]; [| contradiction].
  destruct Hres as (Hp & Ht & Hb). exists b. split; [reflexivity |].
  pose proof HR as (Hr & _ & Hbs). rewrite Hr, Hp, app_nil_r, Hbs, Ht.
  repeat split. intros Htrue. eapply Replays_called; [exact HR | auto].
Qed.

Ltac attempt_leaf :=
  first [ reflexivity
        | left; split; [reflexivity | eexists _, _; reflexivity]
        | right; split; reflexivity ].

Lemma PostV1_try_block_ends page imagePath text captionText :
  Ends (fun m b => (b = true /\ posted (pushes m)) \/ (b = false /\ pushes m = []))
       (fun m _ => pushes m = [])
       (PostV1.try_block page imagePath text captionText).
Proof.
  unfold PostV1.try_block, PostV1.compose, Post.compose, Post.unless_stopped,
    Post.click_if_found, Post.postCommentDirectly, posted.
  ends_paths. all: attempt_leaf.
Qed.

Lemma PostV2_try_block_ends page imagePath text captionText :
  Ends (fun m b => (b = true /\ posted (pushes m)) \/ (b = false /\ pushes m = []))
       (fun m _ => pushes m = [])
       (PostV2.try_block page imagePath text captionText).
Proof.
  unfold PostV2.try_block, Post.compose, Post.unless_stopped,
    Post.click_if_found, Post.postCommentDirectly, posted.
  ends_paths. all: attempt_leaf.
Qed.

Lemma on_error_ends MAX attempt page err :
  Ends (fun m r =>
          (r = None /\ pushes m = [])
          \/ (r = Some false /\ (pushes m = [] \/ gave_up (pushes m))))
       (fun _ _ => False)
       (Post.on_error MAX attempt page err).
Proof.
  unfold Post.on_error, gave_up. intros [|]; [simpl; auto |].
  destruct (attempt <? MAX); ends_paths;
    first [left; split; reflexivity | right; split; [reflexivity | right; eexists; reflexivity]].
Qed.

Lemma attempts_ends try_block MAX page :
  Ends (fun m b => (b = true /\ posted (pushes m)) \/ (b = false /\ pushes m = []))
       (fun m _ => pushes m = []) try_block ->
  forall remaining attempt,
    Ends (fun m b =>
            (b = true /\ posted (pushes m))
            \/ (b = false /\ (pushes m = [] \/ gave_up (pushes m))))
         (fun _ _ => False)
         (Post.attempts try_block MAX page remaining attempt).
Proof.
  intros Htry. induction remaining as [| remaining IH]; intros attempt.
  - simpl. auto.
  - cbn [Post.attempts]. intros [|]; [simpl; auto |]. cbn [Prog_bind bind mbind].
    eapply Ends_bind with
      (Pr' := fun m r =>
                (r = Some true /\ posted (pushes m))
                \/ (r = Some false /\ (pushes m = [] \/ gave_up (pushes m)))
                \/ (r = None /\ pushes m = [])).
    + eapply Ends_try_catch with (Pt' := fun m _ => pushes m = []).
      * eapply Ends_bind; [exact Htry |]. intros m b [[-> H] | [-> H]]; simpl;
          rewrite app_nil_r; auto.
      * intros m e Hm. eapply Ends_weaken; [| | apply on_error_ends]; simpl; [| tauto].
        intros m' r. rewrite pushes_app, Hm. simpl. tauto.
    + intros m r [[-> H] | [[-> H] | [-> H]]]; simpl; rewrite ?app_nil_r; auto.
      eapply Ends_weaken; [| | apply IH]; simpl; [| tauto].
      intros m' b. rewrite pushes_app, H. simpl. tauto.
Qed.

(** X18: [attemptPostingWithRetries] never throws and pushes at most one
    record.  It returns [true] exactly when it has pushed a record with
    [post: true]; when it returns [false] it has pushed nothing (the run was
    cancelled) or the single record [{ post: false, comment: false }] of the
    last failed attempt.  Both copies. *)
Theorem attemptPostingWithRetries_outcome (W : World) (cancel : nat -> bool)
    (page : Page) (imagePath text captionText : string) (st : Store) :
  let outcome (attempt : Page -> string -> string -> string -> Prog bool) :=
    let res := finish W cancel (attempt page imagePath text captionText) st in
    exists l,
      results res.2 = results st ++ l
      /\ ((res.1 = inl true /\ posted l)
          \/ (res.1 = inl false /\ (l = [] \/ gave_up l))) in
  outcome PostV1.attemptPostingWithRetries /\ outcome PostV2.attemptPostingWithRetries.
Proof.
  assert (G : forall try_block MAX remaining attempt,
    Ends (fun m b => (b = true /\ posted (pushes m)) \/ (b = false /\ pushes m = []))
         (fun m _ => pushes m = []) try_block ->
    let res := finish W cancel (Post.attempts try_block MAX page remaining attempt) st in
    exists l,
      results res.2 = results st ++ l
      /\ ((res.1 = inl true /\ posted l)
          \/ (res.1 = inl false /\ (l = [] \/ gave_up l)))).
  { intros try_block MAX remaining attempt Htry res. subst res.
    destruct (Ends_finish W cancel _ _ _ st
                (attempts_ends try_block MAX page Htry remaining attempt))
      as (m & (Hr & _ & _) & Hres).
    exists (pushes m). split; [exact Hr |].
    destruct (finish W cancel _ st).1 as [b | e]; [| contradiction].
    destruct Hres as [[-> H] | [-> H]]; auto. }
  intros outcome. subst outcome. split.
  - apply G, PostV1_try_block_ends.
  - apply G, PostV2_try_block_ends.
Qed.

(** ** Names, URLs *)

Lemma sanitizeName_app x y : sanitizeName (x +:+ y) = sanitizeName x +:+ sanitizeName y.
Proof.
  induction x as [| c x IH]; [reflexivity |].
  change (String c x +:+ y) with (String c (x +:+ y)).
  rewrite !sanitizeName_cons, IH. reflexivity.
Qed.

Lemma sanitizeName_length x : String.length (sanitizeName x) = String.length x.
Proof.
  induction x as [| c x IH]; [reflexivity |].
  rewrite sanitizeName_cons. simpl. now rewrite IH.
Qed.

(** X19: [sanitizeName] keeps the length of its argument, and it is not
    injective: two names that differ only in characters outside
    [[a-zA-Z0-9_.@-]] have the same sanitised name, hence the same profile
    directory. *)
Theorem sanitizeName_collides (x y : string) (c d : ascii) (userDir : string) :
  safe_char c = false -> safe_char d = false ->
  let a := x +:+ String c y in
  let b := x +:+ String d y in
  String.length (sanitizeName a) = String.length a
  /\ path_join userDir (sanitizeName a) = path_join userDir (sanitizeName b).
Proof.
  intros Hc Hd a b. split; [apply sanitizeName_length |].
  subst a b. now rewrite !sanitizeName_app, !sanitizeName_cons, Hc, Hd.
Qed.

(** X19, witness: a space and a slash in the same place. *)
Lemma sanitizeName_collides_witness :
  let a := "fb" +:+ String " " "1" in
  let b := "fb" +:+ String "/" "1" in
  String.length (sanitizeName a) = String.length a
  /\ path_join "data/t1" (sanitizeName a) = path_join "data/t1" (sanitizeName b).
Proof.
  apply (sanitizeName_collides "fb" "1" " " "/" "data/t1"); reflexivity.
Defined.

Lemma list_ascii_of_string_app a b :
  String.list_ascii_of_string (a +:+ b)
  = String.list_ascii_of_string a ++ String.list_ascii_of_string b.
Proof. induction a as [| c a IH]; simpl; [reflexivity | now rewrite IH]. Qed.

Lemma string_app_assoc (a b c : string) : (a +:+ b) +:+ c = a +:+ (b +:+ c).
Proof.
  induction a as [| x a IH]; [reflexivity |].
  change (String x ((a +:+ b) +:+ c) = String x (a +:+ (b +:+ c))). now rewrite IH.
Qed.

(** X20: the fallback URL of a group is its URL followed by
    [/buy_sell_discussion], and it is the same whether or not the URL ends
    with a slash: exactly one slash separates the two parts. *)
Theorem buySellUrl_one_slash (url : string) :
  Post.endsWith_slash url = false ->
  Post.buySellUrl url = url +:+ "/buy_sell_discussion"
  /\ Post.buySellUrl (url +:+ "/") = url +:+ "/buy_sell_discussion".
Proof.
  intros Hno. unfold Post.buySellUrl. rewrite Hno. split; [reflexivity |].
  assert (Hyes : Post.endsWith_slash (url +:+ "/") = true).
  { unfold Post.endsWith_slash. rewrite list_ascii_of_string_app, reverse_app. reflexivity. }
  rewrite Hyes. apply string_app_assoc.
Qed.

(** X20, witness: the URL of a group root without trailing slash. *)
Lemma buySellUrl_one_slash_witness :
  Post.buySellUrl "https://www.facebook.com/groups/1"
  = "https://www.facebook.com/groups/1" +:+ "/buy_sell_discussion"
  /\ Post.buySellUrl ("https://www.facebook.com/groups/1" +:+ "/")
     = "https://www.facebook.com/groups/1" +:+ "/buy_sell_discussion".
Proof.
  apply (buySellUrl_one_slash "https://www.facebook.com/groups/1"). reflexivity.
Defined.

(** X21: the discovery loop returns the hrefs of the scanned anchors that
    match the pattern, appended to the list it started from, in scan order
    and without removing duplicates; the first [evaluate] that rejects ends
    the loop with its error. *)
Theorem collect_filters_hrefs (W : World) (cancel : nat -> bool) (page : Page)
    (linkElements : list Elem) (urls : list string) (st : Store) :
  (finish W cancel (Post.collect page linkElements urls) st).1
  = match hrefs_of W page (length (trace st)) linkElements with
    | inl hrefs => inl (urls ++ filter (fun u => Regex.test urlsPattern u = true) hrefs)
    | inr e => inr e
    end.
Proof.
  revert urls st. induction linkElements as [| el rest IH]; intros urls st.
  - simpl. now rewrite app_nil_r.
  - cbn [Post.collect hrefs_of]. rewrite finish_mbind. cbn [finish await].
    destruct (respond W string (length (trace st)) (EvaluateHref page el)) as [url | e];
      [| reflexivity].
    cbn [finish]. rewrite IH, suspend_trace, length_app, Nat.add_1_r. cbn [length].
    destruct (hrefs_of W page (S (length (trace st))) rest) as [hrefs | e]; [| reflexivity].
    rewrite filter_cons. unfold Post.push_if_group.
    destruct (Regex.test urlsPattern url) eqn:Ht.
    + rewrite decide_True by reflexivity. now rewrite <- app_assoc.
    + rewrite decide_False by discriminate. reflexivity.
Qed.

(** ** [stopAll]: what it does and nothing else *)

Section StopAllOrder.
Import Registry.

Variable W : World.

Lemma close_rejected_app bs bs' :
  forall n, close_rejected W n (bs ++ bs')
            = close_rejected W n bs ++ close_rejected W (n + length bs) bs'.
Proof.
  induction bs as [| b bs IH]; intros n; simpl.
  - now rewrite Nat.add_0_r.
  - rewrite IH. replace (S n + length bs) with (n + S (length bs)) by lia.
    now destruct (respond W () n (Close b)).
Qed.

Lemma close_browsers_calls bs :
  forall n,
    close_calls (close_browsers W n bs) = bs
    /\ flags_set (close_browsers W n bs) = []
    /\ kill_calls (close_browsers W n bs)
       = omap (browser_process W) (close_rejected W n bs).
Proof.
  unfold close_calls, flags_set, kill_calls.
  induction bs as [| b bs IH]; intros n; [auto |].
  destruct (IH (S n)) as (IH1 & IH2 & IH3).
  cbn [close_browsers close_rejected]. rewrite !bind_app, IH1, IH2, IH3.
  unfold close_or_kill.
  destruct (respond W () n (Close b)) as [[] | e]; simpl; [auto |].
  destruct (browser_process W b); simpl; auto.
Qed.

Lemma sweep_calls entries :
  forall n,
    close_calls (sweep W n entries).2 = tracked entries
    /\ flags_set (sweep W n entries).2 = entries.*1
    /\ kill_calls (sweep W n entries).2
       = omap (browser_process W) (close_rejected W n (tracked entries)).
Proof.
  induction entries as [| [id j] rest IH]; intros n; [auto |].
  cbn [sweep]. destruct (IH (n + length (browsers j))) as (IH1 & IH2 & IH3).
  destruct (sweep W (n + length (browsers j)) rest) as [objs acts]. cbn [snd] in *.
  destruct (close_browsers_calls (browsers j) n) as (C1 & C2 & C3).
  unfold close_calls, flags_set, kill_calls in *.
  change (tracked ((id, j) :: rest)) with (browsers j ++ tracked rest).
  rewrite close_rejected_app, omap_app.
  cbn [mbind list_bind]. rewrite !bind_app, IH1, IH2, IH3, C1, C2, C3.
  auto.
Qed.

End StopAllOrder.

(** X22: [stopAll] does the following and nothing else: it sets the flag of
    each job once, in table order; it calls [close] once on each tracked
    browser, in table order; and it kills exactly the processes of the
    browsers whose [close] rejected.  A browser that closed is never
    killed. *)
Theorem stopAll_does_nothing_else (W : World) (n : nat) (JOBS : Registry.Table) :
  let acts := Registry.actions (Registry.stopAll W n JOBS) in
  flags_set acts = JOBS.*1
  /\ close_calls acts = Registry.tracked JOBS
  /\ kill_calls acts
     = omap (browser_process W) (close_rejected W n (Registry.tracked JOBS))
  /\ length acts = length (flags_set acts) + length (close_calls acts)
                   + length (kill_calls acts).
Proof.
  intros acts. subst acts. unfold Registry.stopAll.
  destruct (sweep_calls W JOBS n) as (H1 & H2 & H3).
  destruct (Registry.sweep W n JOBS) as [objs acts]. cbn [snd Registry.actions] in *.
  repeat split; try assumption.
  unfold flags_set, close_calls, kill_calls. clear.
  induction acts as [| a acts IH]; [reflexivity |].
  destruct a; simpl in *; unfold mbind in *; lia.
Qed.

(** ** The upload route: storing the created sessions *)

Section PersistFacts.
Import Upload.

Variable basename : string -> string.

Lemma findFirst_None db userId name :
  findFirst db userId name = None <-> (userId, name) ∉ key <$> db.
Proof.
  unfold findFirst. induction db as [| row db IH].
  - split; [intros _; apply not_elem_of_nil | reflexivity].
  - rewrite filter_cons, fmap_cons, not_elem_of_cons.
    destruct (decide (key row = (userId, name))) as [Hk | Hk]; simpl.
    + split; [discriminate | intros [H _]; now destruct H].
    + rewrite IH. split; [intros H; split; [congruence | exact H] | tauto].
Qed.

Lemma persist_extends db_error userId rs :
  forall n db,
    exists added,
      (persist basename db_error userId rs n db).2 = db ++ added
      /\ Forall (added_by basename userId rs) added.
Proof.
  induction rs as [| r rs IH]; intros n db.
  - exists []. simpl. now rewrite app_nil_r.
  - assert (Hmono : forall l, Forall (added_by basename userId rs) l ->
                              Forall (added_by basename userId (r :: rs)) l).
    { intros l Hl. eapply Forall_impl; [exact Hl |]. intros row (H1 & H2 & r' & Hin & Hp).
      repeat split; try assumption. exists r'. split; [now right | exact Hp]. }
    cbn [persist]. destruct (stored_path r) as [p |] eqn:Hp.
    + destruct (db_error n); [exists []; simpl; now rewrite app_nil_r |].
      destruct (findFirst db userId (basename p)).
      * destruct (IH (S n) db) as (added & -> & HF). exists added. auto.
      * destruct (db_error (S n)); [exists []; simpl; now rewrite app_nil_r |].
        destruct (IH (S (S n))
                    (db ++ [{| row_userId := userId; row_name := basename p;
                               row_path := p |}])) as (added & -> & HF).
        eexists (_ :: added). rewrite <- app_assoc. split; [reflexivity |].
        constructor; [| auto].
        repeat split. exists r. split; [now left | exact Hp].
    + destruct (IH n db) as (added & -> & HF). exists added. auto.
Qed.

Lemma persist_NoDup db_error userId rs :
  forall n db,
    NoDup (key <$> db) ->
    NoDup (key <$> (persist basename db_error userId rs n db).2).
Proof.
  induction rs as [| r rs IH]; intros n db Hnd; [exact Hnd |].
  cbn [persist]. destruct (stored_path r) as [p |]; [| now apply IH].
  destruct (db_error n); [exact Hnd |].
  destruct (findFirst db userId (basename p)) eqn:Hfind; [now apply IH |].
  destruct (db_error (S n)); [exact Hnd |].
  apply IH. rewrite fmap_app. apply NoDup_app. split; [exact Hnd |].
  split; [| apply NoDup_singleton].
  intros k Hk Hk'. apply list_elem_of_singleton in Hk'. subst k.
  apply findFirst_None in Hfind. exact (Hfind Hk).
Qed.

Lemma persist_covers db_error userId rs :
  forall n db db',
    persist basename db_error userId rs n db = (None, db') ->
    (forall k, k ∈ key <$> db -> k ∈ key <$> db')
    /\ forall r p, r ∈ rs -> stored_path r = Some p ->
         (userId, basename p) ∈ key <$> db'.
Proof.
  induction rs as [| r rs IH]; intros n db db'.
  - simpl. intros [= <-]. split; [auto |]. intros r p Hin. now apply elem_of_nil in Hin.
  - cbn [persist]. destruct (stored_path r) as [p0 |] eqn:Hp0.
    + destruct (db_error n); [discriminate |].
      destruct (findFirst db userId (basename p0)) eqn:Hfind.
      * intros H. destruct (IH _ _ _ H) as [Hsub Hcov]. split; [exact Hsub |].
        intros r' p Hin Hp. apply elem_of_cons in Hin as [-> | Hin]; [| eauto].
        rewrite Hp0 in Hp. injection Hp as <-. apply Hsub.
        destruct (decide ((userId, basename p0) ∈ key <$> db)) as [Hk | Hk];
          [exact Hk |].
        apply findFirst_None in Hk. congruence.
      * destruct (db_error (S n)); [discriminate |].
        intros H. destruct (IH _ _ _ H) as [Hsub Hcov].
        split.
        -- intros k Hk. apply Hsub. rewrite fmap_app. apply elem_of_app. now left.
        -- intros r' p Hin Hp. apply elem_of_cons in Hin as [-> | Hin]; [| eauto].
           rewrite Hp0 in Hp. injection Hp as <-. apply Hsub.
           rewrite fmap_app. apply elem_of_app. right. simpl. now apply list_elem_of_singleton.
    + intros H. destruct (IH _ _ _ H) as [Hsub Hcov]. split; [exact Hsub |].
      intros r' p Hin Hp. apply elem_of_cons in Hin as [-> | Hin]; [congruence | eauto].
Qed.

Lemma persist_noop db_error userId rs :
  forall n db,
    (forall r p, r ∈ rs -> stored_path r = Some p ->
       (userId, basename p) ∈ key <$> db) ->
    (persist basename db_error userId rs n db).2 = db.
Proof.
  induction rs as [| r rs IH]; intros n db Hcov; [reflexivity |].
  assert (Hrest : forall r' p, r' ∈ rs -> stored_path r' = Some p ->
                    (userId, basename p) ∈ key <$> db)
    by (intros r' p Hin; apply Hcov; now right).
  cbn [persist]. destruct (stored_path r) as [p |] eqn:Hp; [| now apply IH].
  destruct (db_error n); [reflexivity |].
  destruct (findFirst db userId (basename p)) eqn:Hfind; [now apply IH |].
  apply findFirst_None in Hfind. destruct Hfind. apply (Hcov r p); [now left | exact Hp].
Qed.

End PersistFacts.

(** X23: the loop that stores the created sessions only appends rows: the
    rows of the table stay as they are, each new row belongs to the user,
    holds the path of a record with [ok: true] and a non-empty path, and is
    named by the base name of that path.  When no two rows of the table
    share user and name beforehand, none do afterwards, also when a query
    rejects midway and also when several records name the same session. *)
Theorem persist_adds_no_duplicate (basename : string -> string)
    (db_error : nat -> option Error) (userId : string) (rs : list Outcome) (n : nat)
    (db : list Upload.Row) :
  NoDup (Upload.key <$> db) ->
  let db' := (Upload.persist basename db_error userId rs n db).2 in
  NoDup (Upload.key <$> db')
  /\ exists added,
       db' = db ++ added
       /\ Forall (fun row =>
                    Upload.row_userId row = userId
                    /\ Upload.row_name row = basename (Upload.row_path row)
                    /\ exists r, r ∈ rs
                         /\ Upload.stored_path r = Some (Upload.row_path row)) added.
Proof.
  intros Hnd db'. subst db'. split; [now apply persist_NoDup |].
  apply persist_extends.
Qed.

(** X23, witness: the same created session twice and a failed account, on
    an empty table. *)
Lemma persist_adds_no_duplicate_witness :
  let rs := [AccountOutcome "1" "a@x.com" true (Some "d/1") None;
             AccountOutcome "2" "b@x.com" false None (Some "no");
             AccountOutcome "1" "a@x.com" true (Some "d/1") None] in
  let db' := (Upload.persist (fun p => p) (fun _ => None) "u" rs 0 []).2 in
  NoDup (Upload.key <$> db')
  /\ exists added,
       db' = [] ++ added
       /\ Forall (fun row =>
                    Upload.row_userId row = "u"
                    /\ Upload.row_name row = Upload.row_path row
                    /\ exists r, r ∈ rs
                         /\ Upload.stored_path r = Some (Upload.row_path row)) added.
Proof.
  apply (persist_adds_no_duplicate (fun p => p) (fun _ => None) "u"
           [AccountOutcome "1" "a@x.com" true (Some "d/1") None;
            AccountOutcome "2" "b@x.com" false None (Some "no");
            AccountOutcome "1" "a@x.com" true (Some "d/1") None] 0 []).
  simpl. apply NoDup_nil_2.
Defined.

(** X24: when the loop has run to its end without a rejected query, running
    it again on the same records changes nothing, whichever queries reject
    the second time: uploading the same accounts twice stores each session
    once. *)
Theorem persist_again_changes_nothing (basename : string -> string)
    (db_error db_error' : nat -> option Error) (userId : string) (rs : list Outcome)
    (n n' : nat) (db db' : list Upload.Row) :
  Upload.persist basename db_error userId rs n db = (None, db') ->
  (Upload.persist basename db_error' userId rs n' db').2 = db'.
Proof.
  intros H. apply persist_noop. apply (persist_covers _ _ _ _ _ _ _ H).
Qed.

(** X24, witness: two created sessions, stored by a first run on an empty
    table. *)
Lemma persist_again_changes_nothing_witness :
  (Upload.persist (fun p => p) (fun _ => None) "u"
     [AccountOutcome "1" "a@x.com" true (Some "d/1") None;
      AccountOutcome "2" "b@x.com" true (Some "d/2") None] 7
     [{| Upload.row_userId := "u"; Upload.row_name := "d/1"; Upload.row_path := "d/1" |};
      {| Upload.row_userId := "u"; Upload.row_name := "d/2"; Upload.row_path := "d/2" |}]).2
  = [{| Upload.row_userId := "u"; Upload.row_name := "d/1"; Upload.row_path := "d/1" |};
     {| Upload.row_userId := "u"; Upload.row_name := "d/2"; Upload.row_path := "d/2" |}].
Proof.
  apply (persist_again_changes_nothing (fun p => p) (fun _ => None) (fun _ => None) "u"
           [AccountOutcome "1" "a@x.com" true (Some "d/1") None;
            AccountOutcome "2" "b@x.com" true (Some "d/2") None] 0 7 []).
  reflexivity.
Defined.

(** ** Group join: the groups a record reports *)

Lemma visit_links_visits P joinSelector when_absent page :
  (forall pg, Pushes P (when_absent pg)) ->
  forall links done t,
    g_group <$> Join.sessionResults t = done ->
    Yields P (fun t' => exists k, g_group <$> Join.sessionResults t' = done ++ take k links)
      (Join.visit_links joinSelector when_absent page links t).
Proof.
  intros Habs. induction links as [| link rest IH]; intros done t Ht;
    cbn [Join.visit_links].
  - constructor. exists 0. now rewrite app_nil_r.
  - apply (Yields_mbind P (fun _ => True)); [repeat yields_step |].
    intros [] _; [constructor; exists 0; now rewrite app_nil_r |].
    apply (Yields_mbind P
             (fun t' => g_group <$> Join.sessionResults t' = done ++ [link])).
    + apply Yields_try_catch.
      * apply (Yields_mbind P (fun _ => True)); [repeat yields_step |]. intros _ _.
        apply (Yields_mbind P (fun _ => True)); [repeat yields_step |]. intros joinBtn _.
        apply (Yields_mbind P (fun _ => True)).
        -- destruct joinBtn; repeat yields_step. apply Habs.
        -- intros joined _. constructor. simpl. now rewrite fmap_app, Ht.
      * intros e. constructor. simpl. now rewrite fmap_app, Ht.
    + intros t' Ht'. eapply Yields_weaken; [| apply (IH _ _ Ht')].
      intros t'' [k Hk]. exists (S k). rewrite Hk, <- app_assoc. reflexivity.
Qed.

Lemma Join_body_reports joinSelector when_absent userDir gbs sessionNames i :
  (forall pg, Pushes (reports_assigned gbs) (when_absent pg)) ->
  Pushes (reports_assigned gbs)
    (Join.body joinSelector when_absent userDir gbs sessionNames i).
Proof.
  intros Habs. unfold Join.body. destruct (sessionNames !! i) as [sessName |]; [| constructor].
  unfold Join.item.
  apply (Yields_mbind _ (fun _ => True)); [repeat yields_step |].
  intros ex _. destruct (negb ex).
  - repeat yields_step. now exists 0.
  - apply (Yields_mbind _ (fun _ => True)); [repeat yields_step |]. intros browser _.
    apply (Yields_mbind _ (fun _ => True)); [repeat yields_step |]. intros _ _.
    apply (Yields_mbind _ (fun _ => True)); [| intros; now constructor].
    apply Yields_try_finally; [| repeat yields_step].
    apply (Yields_mbind _ (fun _ => True)); [repeat yields_step |]. intros page _.
    eapply Yields_mbind.
    + apply (visit_links_visits _ _ _ _ Habs _ []). reflexivity.
    + intros t [k Hk]. apply Yields_push. simpl. now exists k.
Qed.

Lemma Join_results_report joinSelector when_absent W existing jobId userId sessionNames
    groupLinks concurrency groupsPerSession evs r cfg evs' :
  (forall gbs pg, Pushes (reports_assigned gbs) (when_absent pg)) ->
  Join.startJoinGroups joinSelector when_absent W existing jobId userId sessionNames
    groupLinks concurrency groupsPerSession evs = Resolved r cfg evs' ->
  exists gbs,
    Partition.groupsBySession sessionNames groupLinks groupsPerSession = Some gbs
    /\ Forall (reports_assigned gbs) (jret_results r).
Proof.
  intros Habs. unfold Join.startJoinGroups.
  pose proof (ensureUserDir_results W userId (fresh_store existing)) as Hres.
  destruct (run W (ensureUserDir W userId) (fresh_store existing)) as [[userDir | e | ? ?] st];
    try discriminate.
  simpl in Hres.
  destruct (Partition.groupsBySession sessionNames groupLinks groupsPerSession)
    as [gbs |]; try discriminate.
  pose proof (Join_body_reports joinSelector when_absent userDir gbs sessionNames) as Hb.
  pose proof (spawn_pushes (reports_assigned gbs) W (length sessionNames) _
                (fun i => Hb i (Habs gbs)) concurrency st) as Hsp.
  destruct (spawn W (length sessionNames) _ concurrency st) as [ws st1]. simpl in Hsp.
  destruct (await_all _ _ _ evs _) as [[[[] cfg1] evs1] |] eqn:Ea; try discriminate.
  intros [= <- <- <-]. simpl. exists gbs. split; [reflexivity |].
  eapply await_all_pushes in Ea as [Hr _]; [exact Hr | intros; now apply Hb |].
  apply Hsp. rewrite Hres. constructor.
Qed.

(** X25: whenever [startJoinGroups] resolves, in either copy and on any
    schedule, the groups each record reports are the first links the
    partition assigned to the session of the record, in the order of the
    input and without a gap: a link is reported only under its own session,
    and cancellation cuts the list short but never skips a link. *)
Theorem joinGroups_reports_assigned_links (W : World) (existing : list string)
    (jobId userId : string) (sessionNames groupLinks : list string)
    (concurrency groupsPerSession : nat) (evs : list SchedEvent)
    (r : JoinReturned) (cfg : Config) (evs' : list SchedEvent) :
  JoinV1.startJoinGroups W existing jobId userId sessionNames groupLinks
    concurrency groupsPerSession evs = Resolved r cfg evs'
  \/ JoinV2.startJoinGroups W existing jobId userId sessionNames groupLinks
       concurrency groupsPerSession evs = Resolved r cfg evs' ->
  exists gbs,
    Partition.groupsBySession sessionNames groupLinks groupsPerSession = Some gbs
    /\ Forall (reports_assigned gbs) (jret_results r).
Proof.
  intros [H | H]; eapply Join_results_report; try exact H.
  - intros gbs pg. now constructor.
  - intros gbs pg. unfold JoinV2.when_absent. repeat yields_step.
Qed.

(** X25, witness: two sessions with two links each; [stopAll] is called
    while the first link of "A" settles. *)
Lemma joinGroups_reports_assigned_links_witness :
  match JoinV2.startJoinGroups Examples.happy ["data/t1/A"; "data/t1/B"] "job" "t1"
          ["A"; "B"] ["l1"; "l2"; "l3"; "l4"] 1 2
          (repeat (Resume 0) 6 ++ [StopAllCalled] ++ repeat (Resume 0) 2) with
  | Resolved r _ _ =>
      (exists gbs,
          Partition.groupsBySession ["A"; "B"] ["l1"; "l2"; "l3"; "l4"] 2 = Some gbs
          /\ Forall (reports_assigned gbs) (jret_results r))
      /\ jret_results r
         = [JoinOutcome "A" true "Selesai"
              {| s_success := 1; s_failed := 0; s_total := 1 |}
              [{| g_group := "l1"; g_ok := true; g_message := None |}]]
  | _ => False
  end.
Proof.
  destruct (JoinV2.startJoinGroups _ _ _ _ _ _ _ _ _) as [| r cfg evs' | e cfg evs'] eqn:E.
  - vm_compute in E. discriminate.
  - split.
    + apply (joinGroups_reports_assigned_links _ _ _ _ _ _ _ _ _ _ _ _ (or_intror E)).
    + vm_compute in E. injection E as <- _ _. reflexivity.
  - vm_compute in E. discriminate.
Defined.

(** ** Session creation, second copy: nothing for [stopAll] to close *)

Lemma Trackless_run W {R : Type} (p : Prog R) :
  forall st, Trackless p -> browsers (job st) = [] ->
    browsers (job (run W p st).2) = []
    /\ match (run W p st).1 with
       | Blocked _ rest => Trackless rest
       | _ => True
       end.
Proof.
  induction p as [a | e | T s k IH | T c k IH]; intros st Hp Hb; simpl; auto.
  destruct s; simpl in *; try (apply IH; [apply Hp | exact Hb]).
  - destruct (mkdir_error W path); apply IH; [apply Hp | exact Hb | apply Hp | exact Hb].
  - destruct Hp.
  - apply IH; [apply Hp |]. simpl. now rewrite Hb.
Qed.

Section TracklessPool.

Variable W : World.
Variable N : nat.
Variable body : nat -> Prog LoopCtl.
Hypothesis body_trackless : forall i, Trackless (body i).

Lemma worker_loop_trackless fuel :
  forall st, browsers (job st) = [] ->
    browsers (job (worker_loop W N body fuel st).2) = []
    /\ worker_trackless (worker_loop W N body fuel st).1.
Proof.
  induction fuel as [| fuel IH]; intros st Hb; simpl; [auto |].
  destruct ((index st <? N) && negb (stopRequested (job st))); [| simpl; auto].
  pose proof (Trackless_run W (body (index st)) (set_index (S (index st)) st)
                (body_trackless _) Hb) as [H1 H2].
  destruct (run W (body (index st)) (set_index (S (index st)) st))
    as [[[] | e | ev rest] st']; cbn [fst snd] in *; simpl; auto.
Qed.

Lemma resume_trackless rest st :
  Trackless rest -> browsers (job st) = [] ->
  browsers (job (resume W N body rest st).2) = []
  /\ worker_trackless (resume W N body rest st).1.
Proof.
  intros Hrest Hb. unfold resume, worker.
  pose proof (Trackless_run W rest st Hrest Hb) as [H1 H2].
  destruct (run W rest st) as [[[] | e | ev rest'] st']; cbn [fst snd] in *;
    try (simpl; auto; fail).
  now apply worker_loop_trackless.
Qed.

Lemma spawn_trackless c :
  forall st, browsers (job st) = [] ->
    browsers (job (spawn W N body c st).2) = []
    /\ Forall worker_trackless (spawn W N body c st).1.
Proof.
  induction c as [| c IH]; intros st Hb; simpl; [auto |].
  pose proof (worker_loop_trackless (S (N - index st)) st Hb) as [H1 H2]. unfold worker.
  destruct (worker_loop W N body (S (N - index st)) st) as [w st1]. cbn [fst snd] in *.
  destruct (IH st1 H1) as [H3 H4].
  destruct (spawn W N body c st1) as [ws st2]. cbn [fst snd] in *. auto.
Qed.

Lemma steps_trackless evs :
  forall cfg,
    browsers (job (store cfg)) = [] -> Forall worker_trackless (pool cfg) ->
    browsers (job (store (steps W N body evs cfg))) = [].
Proof.
  unfold steps. induction evs as [| ev evs IH]; intros cfg Hb Hp; [exact Hb |].
  cbn [foldl]. destruct ev as [w |]; cbn [step].
  - destruct (pool cfg !! w) as [[ev rest | | e] |] eqn:Hw; try now apply IH.
    pose proof (resume_trackless rest (store cfg)) as H.
    destruct (resume W N body rest (store cfg)) as [wk st']. cbn [fst snd] in H.
    destruct H as [H1 H2]; [| exact Hb |].
    + rewrite Forall_lookup in Hp. exact (Hp _ _ Hw).
    + apply IH; simpl; [exact H1 | now apply Forall_insert].
  - apply IH; simpl; [| exact Hp].
    unfold stop_requested_by_stopAll. destruct (registered (store cfg)); simpl; exact Hb.
Qed.

End TracklessPool.

Lemma CreateV2_body_trackless userDir accounts i :
  Trackless (CreateV2.body userDir accounts i).
Proof.
  unfold CreateV2.body. destruct (accounts !! i) as [acc |]; [| exact I].
  unfold CreateV2.item, CreateV2.session.
  repeat (cbn; intros;
          match goal with
          | |- context [match ?x with _ => _ end] => is_var x; destruct x
          | |- True => exact I
          end).
Qed.

Lemma unregistered_steps W N body evs cfg :
  registered (store cfg) = false -> stopRequested (job (store cfg)) = false ->
  registered (store (steps W N body evs cfg)) = false
  /\ stopRequested (job (store (steps W N body evs cfg))) = false.
Proof.
  apply (steps_inv W N body
           (fun st st' => registered st = false -> stopRequested (job st) = false ->
                          registered st' = false /\ stopRequested (job st') = false)).
  - auto.
  - intros a b c Hab Hbc Hr Hs. destruct (Hab Hr Hs). auto.
  - intros st _ _ Hr Hs. auto.
  - intros R p st Hr Hs. now rewrite run_registered, run_stop.
  - intros st Hr Hs. unfold stop_requested_by_stopAll. rewrite Hr. auto.
Qed.

Lemma spawn_stop W N body c st :
  stopRequested (job (spawn W N body c st).2) = stopRequested (job st).
Proof.
  apply (spawn_inv W N body
           (fun st st' => stopRequested (job st') = stopRequested (job st))).
  - reflexivity.
  - intros ? ? ? H1 H2. now rewrite H2.
  - reflexivity.
  - intros R p st0. apply run_stop.
Qed.

(** X26: once the second copy of [startCreateSessions] has resolved, its
    workers are out of reach of [stopAll], under any later schedule: the job
    is gone from [JOBS], so its flag is never raised, and no browser was
    ever added to [job.browsers], so none can be closed. *)
Theorem createSessions_V2_out_of_reach (W : World) (existing : list string)
    (jobId userId : string) (accounts : list Account) (concurrency : nat)
    (evs later : list SchedEvent) :
  match CreateV2.startCreateSessions W existing jobId userId accounts concurrency evs with
  | Resolved _ cfg _ =>
      let body := CreateV2.body (path_join (DATA_DIR W) userId) accounts in
      let cfg' := steps W (length accounts) body later cfg in
      browsers (job (store cfg')) = []
      /\ registered (store cfg') = false
      /\ stopRequested (job (store cfg')) = false
  | _ => True
  end.
Proof.
  unfold CreateV2.startCreateSessions. rewrite ensureUserDir_run. simpl.
  set (dir := path_join (DATA_DIR W) userId).
  assert (G : forall st, browsers (job st) = [] -> stopRequested (job st) = false ->
    match
      (let '(ws, st1) := spawn W (length accounts) (CreateV2.body dir accounts)
                           concurrency st in
       Resolved {| ret_jobId := jobId;
                   ret_results := results (set_registered false st1);
                   ret_summary := summarize (results (set_registered false st1)) |}
                {| pool := ws; store := set_registered false st1 |} evs)
    with
    | Resolved _ cfg _ =>
        browsers (job (store (steps W (length accounts) (CreateV2.body dir accounts)
                                later cfg))) = []
        /\ registered (store (steps W (length accounts) (CreateV2.body dir accounts)
                                later cfg)) = false
        /\ stopRequested (job (store (steps W (length accounts)
                                        (CreateV2.body dir accounts) later cfg))) = false
    | _ => True
    end).
  { intros st Hb Hs.
    destruct (spawn_trackless W (length accounts) (CreateV2.body dir accounts)
                (CreateV2_body_trackless dir accounts) concurrency st Hb) as [H1 H2].
    pose proof (spawn_stop W (length accounts) (CreateV2.body dir accounts)
                  concurrency st) as H3.
    destruct (spawn W (length accounts) (CreateV2.body dir accounts) concurrency st)
      as [ws st1]. cbn [fst snd] in *.
    split.
    - apply steps_trackless; [apply CreateV2_body_trackless | exact H1 | exact H2].
    - apply unregistered_steps; simpl; [reflexivity | now rewrite H3]. }
  destruct (bool_decide (dir ∈ existing)); [now apply G |].
  destruct (mkdir_error W dir); [exact I | now apply G].
Qed.

(** The browser of the first account is open and the worker waits for its
    page; [stopAll] is called: the list is empty, the flag stays down, and
    the worker goes on to the navigation. *)
Example createSessions_V2_browser_untracked :
  match CreateV2.startCreateSessions Examples.happy [] "job" "t1" [Examples.acc1] 1 [] with
  | Resolved _ cfg _ =>
      let body := CreateV2.body "data/t1" [Examples.acc1] in
      let cfg' := steps Examples.happy 1 body [Resume 0; StopAllCalled; Resume 0] cfg in
      waiting_on <$> pool cfg'
      = [Some (EvCall (Goto (PageH 1) "https://www.facebook.com"))]
      /\ browsers (job (store cfg')) = []
      /\ stopRequested (job (store cfg')) = false
  | _ => False
  end.
Proof. vm_compute. auto. Qed.

(** ** Session creation, second copy: the only exception *)

Lemma CreateV2_item_throws userDir acc :
  Ends (fun _ _ => True)
       (fun m _ => exists b, last m = Some (Called (EvCall (Close b))))
       (CreateV2.item userDir acc).
Proof.
  unfold CreateV2.item, CreateV2.session. ends_paths.
  all: try exact I; eexists; reflexivity.
Qed.

Lemma calls_last m ev : last m = Some (Called ev) -> last (calls m) = Some ev.
Proof.
  intros H. destruct (last_Some m (Called ev)) as [[m0 ->] _]; [exact H |].
  rewrite calls_app. simpl. apply last_snoc.
Qed.

(** X27: an iteration of the second copy throws only right after
    [browser.close()]: when it ends with an exception, the last call it
    issued is the [close] of the [finally] block.  Every other failure is
    caught and recorded. *)
Theorem createSessions_V2_throws_only_at_close (W : World) (cancel : nat -> bool)
    (userDir : string) (acc : Account) (st : Store) :
  let res := finish W cancel (CreateV2.item userDir acc) st in
  match res.1 with
  | inl _ => True
  | inr _ => exists b, last (trace res.2) = Some (EvCall (Close b))
  end.
Proof.
  intros res. subst res.
  destruct (Ends_finish W cancel _ _ _ st (CreateV2_item_throws userDir acc))
    as (m & (_ & Ht & _) & Hres).
  destruct (finish W cancel _ st).1 as [ctl | e]; [exact I |].
  destruct Hres as [b Hb]. exists b. rewrite Ht.
  apply calls_last in Hb. destruct (last_Some (calls m) (EvCall (Close b))) as [[l Hl] _];
    [exact Hb |].
  rewrite Hl, app_assoc. apply last_snoc.
Qed.

(** ** Posting to the discovered groups *)

Lemma pushes_cons_pushed r m : pushes (Pushed r :: m) = r :: pushes m.
Proof. reflexivity. Qed.

Lemma pushes_cons_called ev m : pushes (Called ev :: m) = pushes m.
Proof. reflexivity. Qed.

Section PostAll.

Variable attempt : Page -> string -> string -> string -> Prog bool.
Hypothesis attempt_ends :
  forall page imagePath text captionText,
    Ends (fun m b =>
            (b = true /\ posted (pushes m))
            \/ (b = false /\ (pushes m = [] \/ gave_up (pushes m))))
         (fun _ _ => False)
         (attempt page imagePath text captionText).

Lemma post_all_ends sessName page imagePath commentText captionText :
  forall urls,
    Ends (fun m _ => exists k, post_blocks sessName (take k urls) (pushes m))
         (fun _ _ => False)
         (Post.post_all attempt sessName page imagePath commentText captionText urls).
Proof.
  induction urls as [| url rest IH].
  - simpl. exists 0. constructor.
  - cbn [Post.post_all]. intros [|]; [simpl; exists 0; constructor |].
    intros [[] | e]; (intros [|]; [simpl; exists 0; constructor |]);
      cbn [Prog_bind bind mbind];
      (eapply Ends_bind; [apply attempt_ends |]);
      intros m b Hm []; intros _; cbn [Prog_bind bind mbind];
      (eapply Ends_weaken; [| | apply IH]; simpl; [| tauto]);
      intros m' _ [k Hk]; exists (S k);
      rewrite pushes_app, pushes_cons_pushed, pushes_cons_called; cbn [take];
      (apply (post_blocks_cons sessName url (take k rest) (pushes m) b); [| exact Hk]);
      destruct Hm as [[-> H] | [-> H]]; auto.
Qed.

End PostAll.

(** X28: the loop over the discovered groups never throws.  On [results] it
    leaves, for each group it reached (a prefix of the list, in order), the
    record of the attempt, if any, directly followed by the record of the
    group: [ok: true] comes directly after a record with [post: true], and
    [ok: false] after the record of the last failed attempt or after none.
    Both copies. *)
Theorem post_all_records (W : World) (cancel : nat -> bool) (sessName : string)
    (page : Page) (imagePath commentText captionText : string) (urls : list string)
    (st : Store) :
  let blocks (attempt : Page -> string -> string -> string -> Prog bool) :=
    let res := finish W cancel
                 (Post.post_all attempt sessName page imagePath commentText captionText urls)
                 st in
    res.1 = inl tt
    /\ exists k l, results res.2 = results st ++ l
                   /\ post_blocks sessName (take k urls) l in
  blocks PostV1.attemptPostingWithRetries /\ blocks PostV2.attemptPostingWithRetries.
Proof.
  assert (G : forall attempt,
    (forall page imagePath text captionText,
        Ends (fun m b =>
                (b = true /\ posted (pushes m))
                \/ (b = false /\ (pushes m = [] \/ gave_up (pushes m))))
             (fun _ _ => False)
             (attempt page imagePath text captionText)) ->
    let res := finish W cancel
                 (Post.post_all attempt sessName page imagePath commentText captionText urls)
                 st in
    res.1 = inl tt
    /\ exists k l, results res.2 = results st ++ l
                   /\ post_blocks sessName (take k urls) l).
  { intros attempt Hattempt res. subst res.
    destruct (Ends_finish W cancel _ _ _ st
                (post_all_ends attempt Hattempt sessName page imagePath commentText
                   captionText urls)) as (m & (Hr & _ & _) & Hres).
    destruct (finish W cancel _ st).1 as [[] | e]; [| contradiction].
    split; [reflexivity |]. destruct Hres as [k Hk]. exists k, (pushes m). auto. }
  intros blocks. subst blocks. split; apply G; intros; apply attempts_ends.
  - apply PostV1_try_block_ends.
  - apply PostV2_try_block_ends.
Qed.

(** ** The browsers the job tracks *)

Section HoldsFacts.

Lemma Holds_bind {A B : Type} (p : Prog A) (f : A -> Prog B) :
  forall h h1 hr ht,
    Holds h h1 ht p -> (forall a, Holds h1 hr ht (f a)) -> Holds h hr ht (bind p f).
Proof.
  induction p as [a | e | T s k IH | T c k IH]; intros h h1 hr ht Hp Hf; simpl in *.
  - subst h1. apply Hf.
  - exact Hp.
  - destruct (effect_of s) as [| [r | b | b | ev] [| ? ?]]; try (intros v; eapply IH; eauto);
      destruct Hp as [-> Hp]; (split; [reflexivity |]); intros v; eapply IH; eauto.
  - intros v. eapply IH; eauto.
Qed.

Lemma Holds_try_catch {R : Type} (p : Prog R) (hd : Error -> Prog R) :
  forall h h1 hr ht,
    Holds h hr h1 p -> (forall e, Holds h1 hr ht (hd e)) -> Holds h hr ht (try_catch p hd).
Proof.
  induction p as [a | e | T s k IH | T c k IH]; intros h h1 hr ht Hp Hf; simpl in *.
  - exact Hp.
  - subst h1. apply Hf.
  - destruct (effect_of s) as [| [r | b | b | ev] [| ? ?]]; try (intros v; eapply IH; eauto);
      destruct Hp as [-> Hp]; (split; [reflexivity |]); intros v; eapply IH; eauto.
  - intros v. eapply IH; eauto.
Qed.

Lemma Holds_try_finally {R : Type} (p : Prog R) (f : Prog unit) :
  forall h h1 h2 hr ht,
    Holds h h1 h2 p -> Holds h1 hr ht f -> Holds h2 ht ht f ->
    Holds h hr ht (try_finally p f).
Proof.
  induction p as [a | e | T s k IH | T c k IH]; intros h h1 h2 hr ht Hp Hr Ht;
    simpl in *.
  - subst h1. eapply Holds_bind; [exact Hr |]. reflexivity.
  - subst h2. eapply Holds_bind; [exact Ht |]. reflexivity.
  - destruct (effect_of s) as [| [r | b | b | ev] [| ? ?]]; try (intros v; eapply IH; eauto);
      destruct Hp as [-> Hp]; (split; [reflexivity |]); intros v; eapply IH; eauto.
  - intros v. eapply IH; eauto.
Qed.

Lemma Quiet_bind {A B : Type} (p : Prog A) (f : A -> Prog B) :
  Quiet p -> (forall a, Quiet (f a)) -> Quiet (bind p f).
Proof. intros Hp Hf h. eapply Holds_bind; [apply Hp | intros a; apply Hf]. Qed.

Lemma Quiet_mbind {A B : Type} (p : Prog A) (f : A -> Prog B) :
  Quiet p -> (forall a, Quiet (f a)) -> Quiet (p ≫= f).
Proof. apply Quiet_bind. Qed.

Lemma Quiet_try_catch {R : Type} (p : Prog R) (hd : Error -> Prog R) :
  Quiet p -> (forall e, Quiet (hd e)) -> Quiet (try_catch p hd).
Proof. intros Hp Hf h. eapply Holds_try_catch; [apply Hp | intros a; apply Hf]. Qed.

Lemma submseteq_filter {A : Type} (P : A -> Prop) `{forall x, Decision (P x)}
    (l k : list A) :
  l ⊆+ k -> filter P l ⊆+ filter P k.
Proof.
  induction 1 as [| x l k _ IH | x y l | x l k _ IH | l k1 k2 _ IH1 _ IH2].
  - reflexivity.
  - rewrite !filter_cons. destruct (decide (P x)); [now apply submseteq_skip | exact IH].
  - rewrite !filter_cons. destruct (decide (P x)), (decide (P y));
      try reflexivity. apply submseteq_swap.
  - rewrite filter_cons. destruct (decide (P x)); [now apply submseteq_cons | exact IH].
  - now transitivity (filter P k1).
Qed.

Lemma filter_out_held (b : Browser) (l o : list Browser) :
  l ⊆+ b :: o -> filter (fun x => x ≠ b) l ⊆+ o.
Proof.
  intros H. apply (submseteq_filter (fun x => x ≠ b)) in H.
  rewrite filter_cons in H. destruct (decide (b ≠ b)) as [Hne | _]; [now destruct Hne |].
  etransitivity; [exact H |]. clear.
  induction o as [| x o IH]; [reflexivity |].
  rewrite filter_cons. destruct (decide (x ≠ b));
    [now apply submseteq_skip | now apply submseteq_cons].
Qed.

(** What a statement does to the browsers held. *)
Lemma Holds_run W {R : Type} (p : Prog R) :
  forall h hr ht st o,
    Holds h hr ht p ->
    browsers (job st) ⊆+ option_list h ++ o ->
    match run W p st with
    | (Done _, st') => browsers (job st') ⊆+ option_list hr ++ o
    | (Raised _, st') => browsers (job st') ⊆+ option_list ht ++ o
    | (Blocked _ rest, st') =>
        exists h', Holds h' hr ht rest /\ browsers (job st') ⊆+ option_list h' ++ o
    end.
Proof.
  induction p as [a | e | T s k IH | T c k IH]; intros h hr ht st o Hp Hb; simpl in *.
  - now subst hr.
  - now subst ht.
  - destruct s; simpl in *; try (eapply IH; [apply Hp | exact Hb]).
    + destruct (mkdir_error W path); eapply IH; try apply Hp; exact Hb.
    + destruct Hp as [-> Hp]. eapply IH; [apply Hp |]. simpl in *.
      rewrite (Permutation_app_comm _ [b]). now apply submseteq_skip.
    + destruct Hp as [-> Hp]. eapply IH; [apply Hp |]. simpl in *.
      now apply filter_out_held.
  - exists h. split; [apply Hp | exact Hb].
Qed.

End HoldsFacts.

(** Explores the paths of a program without loops. *)
Ltac quiet_paths :=
  intros ?h;
  repeat (cbn; intros;
          match goal with
          | |- context [match ?x with _ => _ end] => is_var x; destruct x
          end);
  cbn; intros; reflexivity.

Lemma visit_links_quiet joinSelector when_absent page :
  (forall pg, Quiet (when_absent pg)) ->
  forall links t, Quiet (Join.visit_links joinSelector when_absent page links t).
Proof.
  intros Habs. induction links as [| link rest IH]; intros t; [quiet_paths |].
  cbn [Join.visit_links]. apply Quiet_mbind; [quiet_paths |]. intros [|]; [quiet_paths |].
  apply Quiet_mbind; [| intros; apply IH].
  apply Quiet_try_catch; [| intros; quiet_paths].
  apply Quiet_mbind; [quiet_paths |]. intros _.
  apply Quiet_mbind; [quiet_paths |]. intros [btn |].
  - quiet_paths.
  - apply Quiet_mbind; [| intros; quiet_paths].
    apply Quiet_mbind; [apply Habs | intros; quiet_paths].
Qed.

Lemma closing_holds (b : Browser) :
  Holds (Some b) None None (await_catch (Close b) tt;; stmt (BrowsersRemove b)).
Proof. intros [[] | e]; simpl; auto. Qed.

Lemma Join_body_holds joinSelector when_absent userDir gbs sessionNames i :
  (forall pg, Quiet (when_absent pg)) ->
  Holds None None None (Join.body joinSelector when_absent userDir gbs sessionNames i).
Proof.
  intros Habs. unfold Join.body. destruct (sessionNames !! i) as [sessName |]; [| reflexivity].
  unfold Join.item. intros [|]; cbn [negb].
  - intros [b | e]; [| reflexivity]. split; [reflexivity |]. intros [].
    cbn [Prog_bind bind mbind].
    eapply Holds_bind with (h1 := None); [| reflexivity].
    eapply Holds_try_finally with (h1 := Some b) (h2 := Some b);
      [| apply closing_holds | apply closing_holds].
    apply Quiet_mbind; [quiet_paths |]. intros page.
    apply Quiet_mbind; [apply visit_links_quiet, Habs | intros; quiet_paths].
  - intros []. reflexivity.
Qed.

Lemma PostV1_try_block_quiet page imagePath text captionText :
  Quiet (PostV1.try_block page imagePath text captionText).
Proof.
  unfold PostV1.try_block, PostV1.compose, Post.compose, Post.unless_stopped,
    Post.click_if_found, Post.postCommentDirectly.
  quiet_paths.
Qed.

Lemma PostV2_try_block_quiet page imagePath text captionText :
  Quiet (PostV2.try_block page imagePath text captionText).
Proof.
  unfold PostV2.try_block, Post.compose, Post.unless_stopped,
    Post.click_if_found, Post.postCommentDirectly.
  quiet_paths.
Qed.

Lemma attempts_quiet try_block MAX page :
  Quiet try_block ->
  forall remaining attempt, Quiet (Post.attempts try_block MAX page remaining attempt).
Proof.
  intros Htry. induction remaining as [| remaining IH]; intros attempt; [quiet_paths |].
  cbn [Post.attempts]. apply Quiet_mbind; [quiet_paths |]. intros [|]; [quiet_paths |].
  apply Quiet_mbind.
  - apply Quiet_try_catch.
    + apply Quiet_mbind; [exact Htry | intros; quiet_paths].
    + intros e. unfold Post.on_error. destruct (attempt <? MAX); quiet_paths.
  - intros [b |]; [quiet_paths | apply IH].
Qed.

Section PostHolds.

Variable attempt : Page -> string -> string -> string -> Prog bool.
Hypothesis attempt_quiet :
  forall page imagePath text captionText,
    Quiet (attempt page imagePath text captionText).

Lemma collect_quiet page : forall els urls, Quiet (Post.collect page els urls).
Proof.
  induction els as [| el rest IH]; intros urls; [quiet_paths |].
  cbn [Post.collect]. apply Quiet_mbind; [quiet_paths | intros; apply IH].
Qed.

Lemma post_all_quiet sessName page imagePath commentText captionText :
  forall urls,
    Quiet (Post.post_all attempt sessName page imagePath commentText captionText urls).
Proof.
  induction urls as [| url rest IH]; [quiet_paths |].
  cbn [Post.post_all]. apply Quiet_mbind; [quiet_paths |]. intros [|]; [quiet_paths |].
  apply Quiet_mbind; [quiet_paths |]. intros _.
  apply Quiet_mbind; [quiet_paths |]. intros [|]; [quiet_paths |].
  apply Quiet_mbind; [apply attempt_quiet |]. intros ok.
  apply Quiet_mbind; [quiet_paths |]. intros _.
  apply Quiet_mbind; [quiet_paths | intros; apply IH].
Qed.

Lemma Post_body_holds userDir imagePath commentText captionText sessionNames i :
  Holds None None None
    (Post.body attempt userDir imagePath commentText captionText sessionNames i).
Proof.
  unfold Post.body. destruct (sessionNames !! i) as [sessName |]; [| reflexivity].
  unfold Post.item. intros [|]; cbn [negb].
  - intros [b | e]; [| reflexivity]. split; [reflexivity |]. intros [].
    cbn [Prog_bind bind mbind].
    eapply Holds_try_finally with (h1 := Some b) (h2 := Some b);
      [| apply closing_holds | apply closing_holds].
    apply Quiet_mbind; [quiet_paths |]. intros page.
    apply Quiet_mbind; [quiet_paths |]. intros [|]; [quiet_paths |].
    apply Quiet_mbind; [quiet_paths |]. intros _.
    apply Quiet_try_catch; [| intros; quiet_paths].
    apply Quiet_mbind; [quiet_paths |]. intros _.
    apply Quiet_mbind; [quiet_paths |]. intros [|]; [quiet_paths |].
    apply Quiet_mbind; [quiet_paths |]. intros els.
    apply Quiet_mbind; [apply collect_quiet |]. intros urls.
    apply Quiet_mbind; [apply post_all_quiet | intros; quiet_paths].
  - intros []. reflexivity.
Qed.

End PostHolds.

Lemma omap_id_cons (h : option Browser) hs :
  omap id (h :: hs) = option_list h ++ omap id hs.
Proof. now destruct h. Qed.

Lemma omap_id_middle (hs : list (option Browser)) w h :
  hs !! w = Some h ->
  forall h',
    omap id (<[w := h']> hs)
    ≡ₚ option_list h' ++ (omap id (take w hs) ++ omap id (drop (S w) hs)).
Proof.
  intros Hw h'. rewrite insert_take_drop by (eapply lookup_lt_Some; eassumption).
  rewrite omap_app, omap_id_cons.
  rewrite !app_assoc. apply Permutation_app_tail. apply Permutation_app_comm.
Qed.

Section HeldPool.

Variable W : World.
Variable N : nat.
Variable body : nat -> Prog LoopCtl.
Hypothesis body_holds : forall i, Holds None None None (body i).

Lemma worker_loop_holds fuel :
  forall st o,
    browsers (job st) ⊆+ o ->
    exists h,
      worker_holds (worker_loop W N body fuel st).1 h
      /\ browsers (job (worker_loop W N body fuel st).2) ⊆+ option_list h ++ o.
Proof.
  induction fuel as [| fuel IH]; intros st o Hb; simpl; [now exists None |].
  destruct ((index st <? N) && negb (stopRequested (job st))); [| now exists None].
  pose proof (Holds_run W (body (index st)) None None None
                (set_index (S (index st)) st) o (body_holds _) Hb) as H.
  destruct (run W (body (index st)) (set_index (S (index st)) st))
    as [[[] | e | ev rest] st']; cbn [fst snd] in *.
  - apply IH. exact H.
  - now exists None.
  - now exists None.
  - exact H.
Qed.

Lemma resume_holds rest st o h :
  Holds h None None rest ->
  browsers (job st) ⊆+ option_list h ++ o ->
  exists h',
    worker_holds (resume W N body rest st).1 h'
    /\ browsers (job (resume W N body rest st).2) ⊆+ option_list h' ++ o.
Proof.
  intros Hrest Hb. unfold resume, worker.
  pose proof (Holds_run W rest h None None st o Hrest Hb) as H.
  destruct (run W rest st) as [[[] | e | ev rest'] st']; cbn [fst snd] in *.
  - apply worker_loop_holds. exact H.
  - now exists None.
  - now exists None.
  - exact H.
Qed.

Lemma spawn_holds c :
  forall st o,
    browsers (job st) ⊆+ o ->
    exists hs,
      Forall2 worker_holds (spawn W N body c st).1 hs
      /\ browsers (job (spawn W N body c st).2) ⊆+ omap id hs ++ o.
Proof.
  induction c as [| c IH]; intros st o Hb; simpl.
  - exists []. split; [constructor | exact Hb].
  - destruct (worker_loop_holds (S (N - index st)) st o Hb) as (h & Hw & Hb1).
    unfold worker.
    destruct (worker_loop W N body (S (N - index st)) st) as [w st1]. cbn [fst snd] in *.
    destruct (IH st1 _ Hb1) as (hs & Hws & Hb2).
    destruct (spawn W N body c st1) as [ws st2]. cbn [fst snd] in *.
    exists (h :: hs). split; [now constructor |].
    rewrite omap_id_cons. etransitivity; [exact Hb2 |].
    rewrite !app_assoc. apply submseteq_skips_r.
    rewrite (Permutation_app_comm (omap id hs)). reflexivity.
Qed.

Lemma step_holds ev cfg :
  browsers_held cfg -> browsers_held (step W N body ev cfg).
Proof.
  intros (hs & Hws & Hb). destruct ev as [w |]; cbn [step].
  - destruct (pool cfg !! w) as [[ev rest | | e] |] eqn:Hw;
      try (exists hs; now split).
    destruct (Forall2_lookup_l _ _ _ _ _ Hws Hw) as (h & Hh & Hrest). simpl in Hrest.
    pose proof (omap_id_middle hs w h Hh h) as Hperm.
    rewrite list_insert_id in Hperm by exact Hh.
    destruct (resume_holds rest (store cfg)
                (omap id (take w hs) ++ omap id (drop (S w) hs)) h Hrest) as (h' & Hw' & Hb').
    { now rewrite <- Hperm. }
    destruct (resume W N body rest (store cfg)) as [wk st']. cbn [fst snd] in *.
    exists (<[w := h']> hs). split; simpl.
    + now apply Forall2_insert.
    + now rewrite (omap_id_middle hs w h Hh h').
  - exists hs. split; [exact Hws |]. simpl.
    unfold stop_requested_by_stopAll. destruct (registered (store cfg)); exact Hb.
Qed.

Lemma steps_holds evs : forall cfg,
  browsers_held cfg -> browsers_held (steps W N body evs cfg).
Proof.
  unfold steps. induction evs as [| ev evs IH]; intros cfg H; [exact H |].
  apply IH, step_holds, H.
Qed.

Lemma steps_pool_length evs : forall cfg,
  length (pool (steps W N body evs cfg)) = length (pool cfg).
Proof.
  unfold steps. induction evs as [| ev evs IH]; intros cfg; [reflexivity |].
  cbn [foldl]. rewrite IH. destruct ev as [w |]; [| reflexivity]. simpl.
  destruct (pool cfg !! w) as [[ev rest | | e] |]; try reflexivity.
  destruct (resume W N body rest (store cfg)). simpl. apply length_insert.
Qed.

Lemma spawn_length c : forall st, length (spawn W N body c st).1 = c.
Proof.
  induction c as [| c IH]; intros st; simpl; [reflexivity |].
  destruct (worker W N body st) as [w st1]. specialize (IH st1).
  destruct (spawn W N body c st1). simpl in *. now rewrite IH.
Qed.

Lemma browsers_held_bound cfg :
  browsers_held cfg ->
  length (browsers (job (store cfg))) <= length (pool cfg)
  /\ (Forall (fun w => exited w = true) (pool cfg) -> browsers (job (store cfg)) = []).
Proof.
  intros (hs & Hws & Hb). split.
  - apply submseteq_length in Hb. rewrite (Forall2_length _ _ _ Hws).
    etransitivity; [exact Hb |]. clear. induction hs as [| h hs IH]; [reflexivity |].
    rewrite omap_id_cons, length_app. destruct h; simpl; lia.
  - intros Hex. assert (Hnone : omap id hs = []).
    { clear Hb. induction Hws as [| w h ws hs Hw _ IH]; [reflexivity |].
      apply Forall_cons in Hex as [Hw' Hex]. rewrite omap_id_cons, (IH Hex).
      destruct w; [discriminate Hw' | |]; simpl in Hw; now subst h. }
    rewrite Hnone in Hb. now apply submseteq_nil_r in Hb.
Qed.

Lemma pool_tracks_at_most c st evs :
  browsers (job st) = [] ->
  let started := spawn W N body c st in
  let cfg := steps W N body evs {| pool := started.1; store := started.2 |} in
  length (browsers (job (store cfg))) <= c
  /\ (Forall (fun w => exited w = true) (pool cfg) -> browsers (job (store cfg)) = []).
Proof.
  intros Hb started cfg.
  destruct (spawn_holds c st [] ltac:(rewrite Hb; reflexivity)) as (hs & Hws & Hbs).
  rewrite app_nil_r in Hbs.
  assert (Hheld : browsers_held cfg).
  { apply steps_holds. exists hs. split; assumption. }
  destruct (browsers_held_bound cfg Hheld) as [H1 H2]. split; [| exact H2].
  subst cfg. rewrite steps_pool_length in H1. simpl in H1.
  subst started. now rewrite spawn_length in H1.
Qed.

End HeldPool.

(** X29: in group join and in post and comment (both copies), on every
    schedule and whatever the world answers, [job.browsers] never holds
    more browsers than there are workers ([concurrency]), and it is empty
    whenever all workers have returned or rejected.  (In the first copy of
    session creation a browser can stay in the list for ever.) *)
Theorem join_and_post_track_at_most_concurrency (W : World) (userDir : string)
    (groupsBySession : gmap string (list string)) (sessionNames : list string)
    (imagePath commentText captionText : string) (concurrency : nat)
    (evs : list SchedEvent) (st : Store) :
  browsers (job st) = [] ->
  let bounded (body : nat -> Prog LoopCtl) :=
    let started := spawn W (length sessionNames) body concurrency st in
    let cfg := steps W (length sessionNames) body evs
                 {| pool := started.1; store := started.2 |} in
    length (browsers (job (store cfg))) <= concurrency
    /\ (Forall (fun w => exited w = true) (pool cfg) -> browsers (job (store cfg)) = []) in
  bounded (Join.body JoinV1.joinSelector JoinV1.when_absent userDir groupsBySession
             sessionNames)
  /\ bounded (Join.body JoinV2.joinSelector JoinV2.when_absent userDir groupsBySession
                sessionNames)
  /\ bounded (Post.body PostV1.attemptPostingWithRetries userDir imagePath commentText
                captionText sessionNames)
  /\ bounded (Post.body PostV2.attemptPostingWithRetries userDir imagePath commentText
                captionText sessionNames).
Proof.
  intros Hb bounded. subst bounded.
  assert (HJ1 : forall i, Holds None None None
                  (Join.body JoinV1.joinSelector JoinV1.when_absent userDir groupsBySession
                     sessionNames i)).
  { intros i. apply Join_body_holds. intros pg. unfold JoinV1.when_absent. quiet_paths. }
  assert (HJ2 : forall i, Holds None None None
                  (Join.body JoinV2.joinSelector JoinV2.when_absent userDir groupsBySession
                     sessionNames i)).
  { intros i. apply Join_body_holds. intros pg. unfold JoinV2.when_absent. quiet_paths. }
  assert (HP1 : forall i, Holds None None None
                  (Post.body PostV1.attemptPostingWithRetries userDir imagePath commentText
                     captionText sessionNames i)).
  { intros i. apply Post_body_holds. intros. apply attempts_quiet.
    apply PostV1_try_block_quiet. }
  assert (HP2 : forall i, Holds None None None
                  (Post.body PostV2.attemptPostingWithRetries userDir imagePath commentText
                     captionText sessionNames i)).
  { intros i. apply Post_body_holds. intros. apply attempts_quiet.
    apply PostV2_try_block_quiet. }
  split; [exact (pool_tracks_at_most W _ _ HJ1 concurrency st evs Hb) |].
  split; [exact (pool_tracks_at_most W _ _ HJ2 concurrency st evs Hb) |].
  split; [exact (pool_tracks_at_most W _ _ HP1 concurrency st evs Hb) |].
  exact (pool_tracks_at_most W _ _ HP2 concurrency st evs Hb).
Qed.

(** X29, witness: two sessions and two workers of group join, both
    suspended with a browser open: the list holds two browsers. *)
Lemma join_and_post_track_at_most_concurrency_witness :
  let W := Examples.happy in
  let st := fresh_store ["data/t1"; "data/t1/A"; "data/t1/B"] in
  let bounded (body : nat -> Prog LoopCtl) :=
    let started := spawn W (length ["A"; "B"]) body 2 st in
    let cfg := steps W (length ["A"; "B"]) body [Resume 0; Resume 1; Resume 0]
                 {| pool := started.1; store := started.2 |} in
    length (browsers (job (store cfg))) <= 2
    /\ (Forall (fun w => exited w = true) (pool cfg) -> browsers (job (store cfg)) = []) in
  bounded (Join.body JoinV1.joinSelector JoinV1.when_absent "data/t1"
             {[ "A" := ["l1"]; "B" := ["l2"] ]} ["A"; "B"])
  /\ bounded (Join.body JoinV2.joinSelector JoinV2.when_absent "data/t1"
                {[ "A" := ["l1"]; "B" := ["l2"] ]} ["A"; "B"])
  /\ bounded (Post.body PostV1.attemptPostingWithRetries "data/t1" "img.png" "hello"
                "cap" ["A"; "B"])
  /\ bounded (Post.body PostV2.attemptPostingWithRetries "data/t1" "img.png" "hello"
                "cap" ["A"; "B"]).
Proof.
  apply (join_and_post_track_at_most_concurrency Examples.happy "data/t1"
           {[ "A" := ["l1"]; "B" := ["l2"] ]} ["A"; "B"] "img.png" "hello" "cap" 2
           [Resume 0; Resume 1; Resume 0]
           (fresh_store ["data/t1"; "data/t1/A"; "data/t1/B"])).
  reflexivity.
Defined.

(** Two workers of group join, both with a browser open. *)
Example joinGroups_two_browsers :
  let body := Join.body JoinV1.joinSelector JoinV1.when_absent "data/t1"
                {[ "A" := ["l1"]; "B" := ["l2"] ]} ["A"; "B"] in
  let started := spawn Examples.happy 2 body 2
                   (fresh_store ["data/t1"; "data/t1/A"; "data/t1/B"]) in
  let cfg := steps Examples.happy 2 body [Resume 0; Resume 1; Resume 0]
               {| pool := started.1; store := started.2 |} in
  browsers (job (store cfg)) = [BrowserH 0; BrowserH 1].
Proof. vm_compute. reflexivity. Qed.

Lemma await_all_steps W N body evs :
  forall cfg s cfg' evs',
    await_all W N body evs cfg = Some (s, cfg', evs') ->
    exists done, evs = done ++ evs' /\ cfg' = steps W N body done cfg.
Proof.
  induction evs as [| ev evs IH]; intros cfg s cfg' evs'; simpl;
    destruct (promise_all (pool cfg)); try discriminate;
    try (intros [= _ <- <-]; exists []; split; reflexivity).
  intros H. destruct (IH _ _ _ _ H) as (done & -> & ->).
  exists (ev :: done). split; reflexivity.
Qed.

Lemma pool_settles W N body c st evs :
  (forall i, Holds None None None (body i)) ->
  browsers (job st) = [] ->
  match (let '(ws, st1) := spawn W N body c st in
         await_all W N body evs {| pool := ws; store := st1 |}) with
  | Some (Fulfilled _, cfg, _) => browsers (job (store cfg)) = []
  | Some (Rejected _, cfg, _) => length (browsers (job (store cfg))) <= c
  | None => True
  end.
Proof.
  intros Hbody Hb.
  pose proof (fun done => pool_tracks_at_most W N body Hbody c st done Hb) as Hbound.
  cbn zeta in Hbound.
  destruct (spawn W N body c st) as [ws st1]. cbn [fst snd] in Hbound.
  destruct (await_all W N body evs {| pool := ws; store := st1 |})
    as [[[[[] | e] cfg] evs'] |] eqn:Ha; [| | exact I].
  - destruct (await_all_steps _ _ _ _ _ _ _ _ Ha) as (done & _ & ->).
    apply (Hbound done). apply await_all_fulfilled in Ha.
    eapply Forall_impl; [exact Ha |]. now intros w ->.
  - destruct (await_all_steps _ _ _ _ _ _ _ _ Ha) as (done & _ & ->).
    apply (Hbound done).
Qed.

(** X30: when [startJoinGroups] or [startPostAndComment] resolves, in either
    copy and on any schedule, [job.browsers] is empty: every browser the
    call launched and tracked has been removed from the list.  When the call
    rejects, the list holds [concurrency] browsers at most. *)
Theorem join_and_post_leave_no_browser (W : World) (existing : list string)
    (jobId userId : string) (sessionNames groupLinks : list string)
    (imagePath commentText captionText : string) (concurrency groupsPerSession : nat)
    (evs : list SchedEvent) :
  browsers_settled concurrency
    (JoinV1.startJoinGroups W existing jobId userId sessionNames groupLinks
       concurrency groupsPerSession evs)
  /\ browsers_settled concurrency
       (JoinV2.startJoinGroups W existing jobId userId sessionNames groupLinks
          concurrency groupsPerSession evs)
  /\ browsers_settled concurrency
       (PostV1.startPostAndComment W existing jobId userId sessionNames imagePath
          commentText concurrency captionText evs)
  /\ browsers_settled concurrency
       (PostV2.startPostAndComment W existing jobId userId sessionNames imagePath
          commentText concurrency captionText evs).
Proof.
  assert (GJ : forall joinSelector when_absent,
    (forall pg, Quiet (when_absent pg)) ->
    browsers_settled concurrency
      (Join.startJoinGroups joinSelector when_absent W existing jobId userId
         sessionNames groupLinks concurrency groupsPerSession evs)).
  { intros joinSelector when_absent Habs. unfold Join.startJoinGroups.
    rewrite ensureUserDir_run. simpl.
    set (dir := path_join (DATA_DIR W) userId).
    assert (G : forall st, browsers (job st) = [] ->
      browsers_settled concurrency
        match Partition.groupsBySession sessionNames groupLinks groupsPerSession with
        | None => Failed TypeError_undefined {| pool := []; store := st |} evs
        | Some gbs =>
            let '(ws0, st1) :=
              spawn W (length sessionNames)
                (Join.body joinSelector when_absent dir gbs sessionNames) concurrency st in
            match await_all W (length sessionNames)
                    (Join.body joinSelector when_absent dir gbs sessionNames) evs
                    {| pool := ws0; store := st1 |} with
            | None => Suspended
            | Some (Rejected e, cfg, evs') => Failed e cfg evs'
            | Some (Fulfilled _, cfg, evs') =>
                Resolved {| jret_jobId := jobId;
                            jret_results := results (set_registered false (store cfg)) |}
                         {| pool := pool cfg; store := set_registered false (store cfg) |}
                         evs'
            end
        end).
    { intros st Hb.
      destruct (Partition.groupsBySession _ _ _) as [gbs |];
        [| simpl; rewrite Hb; simpl; lia].
      pose proof (pool_settles W (length sessionNames)
                    (Join.body joinSelector when_absent dir gbs sessionNames)
                    concurrency st evs
                    (fun i => Join_body_holds _ _ _ _ _ i Habs) Hb) as H.
      destruct (spawn _ _ _ concurrency st) as [ws st1].
      destruct (await_all _ _ _ evs _) as [[[[[] | e] cfg] evs'] |]; simpl; auto. }
    destruct (bool_decide (dir ∈ existing)); [now apply G |].
    destruct (mkdir_error W dir); [simpl; lia | now apply G]. }
  assert (GP : forall attempt,
    (forall page imagePath text captionText,
        Quiet (attempt page imagePath text captionText)) ->
    browsers_settled concurrency
      (Post.startPostAndComment attempt W existing jobId userId sessionNames imagePath
         commentText concurrency captionText evs)).
  { intros attempt Hattempt. unfold Post.startPostAndComment.
    rewrite ensureUserDir_run. simpl.
    set (dir := path_join (DATA_DIR W) userId).
    assert (G : forall st, browsers (job st) = [] ->
      browsers_settled concurrency
        (let '(ws0, st1) :=
           spawn W (length sessionNames)
             (Post.body attempt dir imagePath commentText captionText sessionNames)
             concurrency st in
         match await_all W (length sessionNames)
                 (Post.body attempt dir imagePath commentText captionText sessionNames) evs
                 {| pool := ws0; store := st1 |} with
         | None => Suspended
         | Some (Rejected e, cfg, evs') => Failed e cfg evs'
         | Some (Fulfilled _, cfg, evs') =>
             Resolved {| ret_jobId := jobId;
                         ret_results := results (set_registered false (store cfg));
                         ret_summary :=
                           summarize (results (set_registered false (store cfg))) |}
                      {| pool := pool cfg; store := set_registered false (store cfg) |} evs'
         end)).
    { intros st Hb.
      pose proof (pool_settles W (length sessionNames)
                    (Post.body attempt dir imagePath commentText captionText sessionNames)
                    concurrency st evs
                    (Post_body_holds attempt Hattempt _ _ _ _ _) Hb) as H.
      destruct (spawn _ _ _ concurrency st) as [ws st1].
      destruct (await_all _ _ _ evs _) as [[[[[] | e] cfg] evs'] |]; simpl; auto. }
    destruct (bool_decide (dir ∈ existing)); [now apply G |].
    destruct (mkdir_error W dir); [simpl; lia | now apply G]. }
  split; [| split; [| split]].
  - apply GJ. intros pg. unfold JoinV1.when_absent. quiet_paths.
  - apply GJ. intros pg. unfold JoinV2.when_absent. quiet_paths.
  - apply GP. intros. apply attempts_quiet, PostV1_try_block_quiet.
  - apply GP. intros. apply attempts_quiet, PostV2_try_block_quiet.
Qed.

(* ===================================================================== *)
(** * Group join on the directories that exist                            *)
(* ===================================================================== *)

(** ** Records, calls and directories on every path *)

Lemma Obeys_weaken {R : Type} (P P' : Outcome -> Prop) (C C' : Event -> Prop)
    (Q Q' : R -> Prop) (p : Prog R) :
  (forall r, P r -> P' r) -> (forall ev, C ev -> C' ev) -> (forall r, Q r -> Q' r) ->
  Obeys P C Q p -> Obeys P' C' Q' p.
Proof.
  intros HP HC HQ. induction p as [a | e | T s k IH | T c k IH]; simpl.
  - apply HQ.
  - auto.
  - intros (Hs & Hm & Hk). repeat split; auto.
  - intros (Hc & Hk). split; auto.
Qed.

Lemma Obeys_bind {A B : Type} (P : Outcome -> Prop) (C : Event -> Prop)
    (Q' : A -> Prop) (Q : B -> Prop) (p : Prog A) (f : A -> Prog B) :
  Obeys P C Q' p -> (forall a, Q' a -> Obeys P C Q (f a)) -> Obeys P C Q (bind p f).
Proof.
  intros Hp Hf. induction p as [a | e | T s k IH | T c k IH]; simpl in *.
  - auto.
  - exact I.
  - destruct Hp as (Hs & Hm & Hk). repeat split; auto.
  - destruct Hp as (Hc & Hk). split; auto.
Qed.

Lemma Obeys_mbind {A B : Type} (P : Outcome -> Prop) (C : Event -> Prop)
    (Q' : A -> Prop) (Q : B -> Prop) (p : Prog A) (f : A -> Prog B) :
  Obeys P C Q' p -> (forall a, Q' a -> Obeys P C Q (f a)) -> Obeys P C Q (p ≫= f).
Proof. apply Obeys_bind. Qed.

Lemma Obeys_try_catch {R : Type} (P : Outcome -> Prop) (C : Event -> Prop)
    (Q : R -> Prop) (p : Prog R) (h : Error -> Prog R) :
  Obeys P C Q p -> (forall e, Obeys P C Q (h e)) -> Obeys P C Q (try_catch p h).
Proof.
  intros Hp Hh. induction p as [a | e | T s k IH | T c k IH]; simpl in *.
  - exact Hp.
  - apply Hh.
  - destruct Hp as (Hs & Hm & Hk). repeat split; auto.
  - destruct Hp as (Hc & Hk). split; auto.
Qed.

Lemma Obeys_try_finally {R : Type} (P : Outcome -> Prop) (C : Event -> Prop)
    (Q : R -> Prop) (p : Prog R) (f : Prog unit) :
  Obeys P C Q p -> Obeys P C (fun _ => True) f -> Obeys P C Q (try_finally p f).
Proof.
  intros Hp Hf. induction p as [a | e | T s k IH | T c k IH]; simpl in *.
  - eapply Obeys_bind; [exact Hf |]. intros _ _. exact Hp.
  - eapply Obeys_bind; [exact Hf |]. intros _ _. exact I.
  - destruct Hp as (Hs & Hm & Hk). repeat split; auto.
  - destruct Hp as (Hc & Hk). split; auto.
Qed.

Lemma exec_stmt_dirs W {T : Type} (s : Stmt T) st :
  is_mkdir s = false -> dirs (exec_stmt W s st).2 = dirs st.
Proof. destruct s; simpl; try reflexivity. discriminate. Qed.

(** A task that obeys [P] and [C], run up to its next suspension point. *)
Lemma Obeys_run W (P : Outcome -> Prop) (C : Event -> Prop) {R : Type} (Q : R -> Prop)
    (p : Prog R) :
  forall st, Obeys P C Q p ->
    exists l tr,
      results (run W p st).2 = results st ++ l /\ Forall P l
      /\ trace (run W p st).2 = trace st ++ tr /\ Forall C tr
      /\ dirs (run W p st).2 = dirs st
      /\ match (run W p st).1 with
         | Done r => Q r
         | Raised _ => True
         | Blocked _ rest => Obeys P C Q rest
         end.
Proof.
  induction p as [a | e | T s k IH | T c k IH]; intros st Hp; simpl in *.
  - exists [], []. rewrite !app_nil_r. repeat split; auto.
  - exists [], []. rewrite !app_nil_r. repeat split; auto.
  - destruct Hp as (Hs & Hm & Hk).
    pose proof (exec_stmt_pushed W s st) as Hr.
    pose proof (exec_stmt_trace W s st) as Ht.
    pose proof (exec_stmt_dirs W s st Hm) as Hd.
    destruct (exec_stmt W s st) as [v st1]. simpl in Hr, Ht, Hd.
    destruct (IH v st1 (Hk v)) as (l & tr & Hl & HP & Htr & HC & Hdirs & Hres).
    exists (option_list (pushed s) ++ l), tr.
    rewrite Hl, Hr, Htr, Ht, Hdirs, Hd, app_assoc. repeat split; auto.
    apply Forall_app. split; [| exact HP].
    destruct (pushed s) as [r |]; simpl; [| constructor].
    constructor; [now apply Hs | constructor].
  - destruct Hp as (Hc & Hk). exists [], [EvCall c]. simpl. rewrite app_nil_r.
    repeat split; auto.
Qed.

Lemma filter_none {A : Type} (P : A -> Prop) `{forall x, Decision (P x)} (l : list A) :
  Forall (fun x => ~ P x) l -> filter P l = [].
Proof.
  induction 1 as [| x l Hx _ IH]; [reflexivity |].
  rewrite filter_cons, decide_False by exact Hx. exact IH.
Qed.

(** ** The pool, item by item *)

Section Accounting.

Variable W : World.
Variable N : nat.
Variable body : nat -> Prog LoopCtl.
Variable D : list string.
Variables P Pa : Outcome -> Prop.
Variable sel : Outcome -> Prop.
Context {sel_dec : forall r, Decision (sel r)}.
Variable C : Event -> Prop.
Variable sync : nat -> option Outcome.

(** An item either pushes its record and falls through without
    suspending, or runs a task that obeys [Pa] and [C]. *)
Hypothesis body_sync :
  forall i r st,
    i < N -> sync i = Some r -> dirs st = D ->
    run W (body i) st = (Done Next, set_results (results st ++ [r]) st).
Hypothesis body_async :
  forall i st,
    i < N -> sync i = None -> dirs st = D ->
    exists p, run W (body i) st = run W p st
              /\ Obeys Pa C (fun ctl => ctl = Next) p.
Hypothesis sync_P : forall i r, i < N -> sync i = Some r -> P r.
Hypothesis async_P : forall r, Pa r -> P r /\ ~ sel r.

Lemma accounted_run {R : Type} (Q : R -> Prop) (p : Prog R) k st :
  Obeys Pa C Q p ->
  accounted D P sel C sync k st ->
  accounted D P sel C sync k (run W p st).2
  /\ match (run W p st).1 with
     | Done r => Q r
     | Raised _ => True
     | Blocked _ rest => Obeys Pa C Q rest
     end.
Proof.
  intros Hp (Hd & HP & Hf & HC).
  destruct (Obeys_run W Pa C Q p st Hp) as (l & tr & Hl & HPl & Htr & HCtr & Hdirs & Hres).
  split; [| exact Hres]. unfold accounted. rewrite Hl, Htr, Hdirs.
  repeat split.
  - exact Hd.
  - apply Forall_app. split; [exact HP |].
    eapply Forall_impl; [exact HPl |]. intros r Hr. now apply async_P.
  - rewrite filter_app, Hf, (filter_none sel l), app_nil_r; [reflexivity |].
    eapply Forall_impl; [exact HPl |]. intros r Hr. now apply async_P.
  - apply Forall_app. split; assumption.
Qed.

Lemma accounted_claim st :
  index st < N ->
  accounted D P sel C sync (index st) st ->
  sync (index st) = None ->
  forall st', accounted D P sel C sync (index st) st' ->
              accounted D P sel C sync (S (index st)) st'.
Proof.
  intros _ _ Hs st' (Hd & HP & Hf & HC). repeat split; auto.
  rewrite Hf, seq_S, omap_app. replace (0 + index st) with (index st) by lia.
  cbn [omap list_omap]. rewrite Hs. now rewrite app_nil_r.
Qed.

Lemma worker_loop_accounted fuel :
  forall st,
    N - index st < fuel -> index st <= N ->
    accounted D P sel C sync (index st) st ->
    let r := worker_loop W N body fuel st in
    accounted D P sel C sync (index r.2) r.2
    /\ index r.2 <= N
    /\ worker_obeys Pa C r.1
    /\ index st <= index r.2
    /\ (r.1 = Exited -> stopRequested (job r.2) = false -> N <= index r.2).
Proof.
  induction fuel as [| fuel IH]; intros st Hfuel HN Hacc; [lia |].
  cbn [worker_loop].
  destruct (index st <? N) eqn:Hlt; cbn [andb].
  2: { apply Nat.ltb_ge in Hlt. cbn. split; [exact Hacc |].
       repeat split; auto; intros; lia. }
  destruct (stopRequested (job st)) eqn:Hstop; cbn [negb].
  { cbn. split; [exact Hacc |]. repeat split; auto; intros; congruence. }
  apply Nat.ltb_lt in Hlt.
  set (st1 := set_index (S (index st)) st).
  assert (Hacc1 : accounted D P sel C sync (index st) st1) by exact Hacc.
  destruct (sync (index st)) as [r |] eqn:Hs.
  - rewrite (body_sync _ r st1 Hlt Hs) by apply Hacc.
    set (st2 := set_results (results st1 ++ [r]) st1).
    destruct (IH st2) as (H1 & H2 & H3 & H4 & H5); [simpl; lia | simpl; lia | |].
    + destruct Hacc as (Hd & HP & Hf & HC). unfold accounted. subst st2 st1.
      cbn [dirs results trace index set_results set_index].
      split; [exact Hd |]. split; [| split; [| exact HC]].
      * apply Forall_app. split; [exact HP |]. repeat constructor.
        exact (sync_P _ _ Hlt Hs).
      * rewrite seq_S, omap_app, !filter_app, Hf.
        replace (0 + index st) with (index st) by lia. cbn [omap list_omap].
        now rewrite Hs.
    + cbn zeta in *. subst st2 st1. cbn [index set_results set_index] in H4.
      split; [exact H1 |]. split; [exact H2 |]. split; [exact H3 |].
      split; [lia | exact H5].
  - destruct (body_async (index st) st1 Hlt Hs) as (p & -> & Hp); [apply Hacc |].
    destruct (accounted_run _ p _ st1 Hp Hacc1) as [Ha Hres].
    pose proof (run_index W p st1) as Hi.
    apply (accounted_claim st Hlt Hacc Hs) in Ha.
    destruct (run W p st1) as [[[] | e | ev rest] st']; cbn [fst snd] in *.
    + destruct (IH st') as (H1 & H2 & H3 & H4 & H5).
      * rewrite Hi. simpl. lia.
      * rewrite Hi. simpl. lia.
      * rewrite Hi. exact Ha.
      * cbn zeta in *. rewrite Hi in H4. subst st1. cbn [index set_index] in H4.
        split; [exact H1 |]. split; [exact H2 |]. split; [exact H3 |].
        split; [lia | exact H5].
    + discriminate.
    + rewrite Hi. subst st1. cbn [index set_index].
      split; [exact Ha |]. split; [lia |]. split; [exact I |].
      split; [lia | discriminate].
    + rewrite Hi. subst st1. cbn [index set_index].
      split; [exact Ha |]. split; [lia |]. split; [exact Hres |].
      split; [lia | discriminate].
Qed.

Lemma resume_accounted rest st :
  Obeys Pa C (fun ctl => ctl = Next) rest ->
  index st <= N ->
  accounted D P sel C sync (index st) st ->
  let r := resume W N body rest st in
  accounted D P sel C sync (index r.2) r.2
  /\ index r.2 <= N
  /\ worker_obeys Pa C r.1
  /\ index st <= index r.2
  /\ (r.1 = Exited -> stopRequested (job r.2) = false -> N <= index r.2).
Proof.
  intros Hrest HN Hacc. unfold resume, worker.
  destruct (accounted_run _ rest _ st Hrest Hacc) as [Ha Hres].
  pose proof (run_index W rest st) as Hi.
  destruct (run W rest st) as [[[] | e | ev rest'] st']; cbn [fst snd] in *.
  - destruct (worker_loop_accounted (S (N - index st')) st')
      as (H1 & H2 & H3 & H4 & H5); [lia | lia | now rewrite Hi |].
    cbn zeta in *.
    split; [exact H1 |]. split; [exact H2 |]. split; [exact H3 |].
    split; [lia | exact H5].
  - discriminate.
  - rewrite Hi. split; [exact Ha |]. split; [exact HN |]. split; [exact I |].
    split; [lia | discriminate].
  - rewrite Hi. split; [exact Ha |]. split; [exact HN |]. split; [exact Hres |].
    split; [lia | discriminate].
Qed.

Lemma spawn_accounted c :
  forall st,
    index st <= N ->
    accounted D P sel C sync (index st) st ->
    pool_accounted D N P Pa sel C sync
      {| pool := (spawn W N body c st).1; store := (spawn W N body c st).2 |}.
Proof.
  induction c as [| c IH]; intros st HN Hacc; cbn [spawn].
  - split; [exact Hacc |]. split; [exact HN |]. split; [constructor |].
    intros _. constructor.
  - unfold worker.
    destruct (worker_loop_accounted (S (N - index st)) st)
      as (H1 & H2 & H3 & H4 & H5); [lia | lia | exact Hacc |].
    cbn zeta in *.
    destruct (worker_loop W N body (S (N - index st)) st) as [w st1].
    cbn [fst snd] in *.
    specialize (IH st1 H2 H1).
    pose proof (spawn_stop W N body c st1) as Hstop.
    pose proof (cursor_inv_spawn W N body c st1) as [Hmono _].
    destruct (spawn W N body c st1) as [ws st2]. cbn [fst snd] in *.
    destruct IH as (I1 & I2 & I3 & I4). cbn [pool store] in *.
    split; [exact I1 |]. split; [exact I2 |]. split; [now constructor |].
    intros Hf. cbn [pool store] in Hf |- *. constructor; [| now apply I4].
    intros ->. rewrite Hstop in Hf. specialize (H5 eq_refl Hf). lia.
Qed.

Lemma step_accounted ev cfg :
  pool_accounted D N P Pa sel C sync cfg ->
  pool_accounted D N P Pa sel C sync (step W N body ev cfg).
Proof.
  intros (Hacc & HN & Hpool & Hex). destruct ev as [w |]; cbn [step].
  - destruct (pool cfg !! w) as [[ev rest | | e] |] eqn:Hw;
      try (split; [exact Hacc |]; split; [exact HN |]; split; [exact Hpool | exact Hex]).
    assert (Hrest : Obeys Pa C (fun ctl => ctl = Next) rest).
    { rewrite Forall_lookup in Hpool. exact (Hpool _ _ Hw). }
    destruct (resume_accounted rest (store cfg) Hrest HN Hacc)
      as (H1 & H2 & H3 & H4 & H5).
    pose proof (resume_inv W N body
                  (fun st st' => stopRequested (job st') = stopRequested (job st))
                  (fun st => eq_refl)
                  (fun a b c (H : stopRequested (job b) = stopRequested (job a))
                       (H' : stopRequested (job c) = stopRequested (job b)) =>
                     eq_trans H' H)
                  (fun st _ _ => eq_refl)
                  (fun R p st => run_stop W p st) rest (store cfg)) as Hstop.
    cbn zeta in *.
    destruct (resume W N body rest (store cfg)) as [wk st']. cbn [fst snd] in *.
    split; [exact H1 |]. split; [exact H2 |]. cbn [pool store]. split.
    + apply Forall_insert; assumption.
    + intros Hf. cbn [pool store] in Hf |- *. apply Forall_insert.
      * rewrite Hstop in Hf. eapply Forall_impl; [apply (Hex Hf) |].
        intros w0 Hw0 E. specialize (Hw0 E). lia.
      * intros E. exact (H5 E Hf).
  - unfold stop_requested_by_stopAll.
    destruct (registered (store cfg)); [| split; [exact Hacc |]; split; [exact HN |]; split; [exact Hpool | exact Hex]].
    split; [exact Hacc |]. split; [exact HN |]. split; [exact Hpool |].
    cbn. discriminate.
Qed.

Lemma steps_accounted evs :
  forall cfg,
    pool_accounted D N P Pa sel C sync cfg ->
    pool_accounted D N P Pa sel C sync (steps W N body evs cfg).
Proof.
  unfold steps. induction evs as [| ev evs IH]; intros cfg H; [exact H |].
  apply IH, step_accounted, H.
Qed.

(** When the pool has settled with every worker returned: the store is
    accounted for, and unless the stop flag is raised every item was
    claimed. *)
Lemma pool_accounts c st evs cfg' evs' :
  index st <= N ->
  accounted D P sel C sync (index st) st ->
  (let '(ws, st1) := spawn W N body c st in
   await_all W N body evs {| pool := ws; store := st1 |})
  = Some (Fulfilled tt, cfg', evs') ->
  accounted D P sel C sync (index (store cfg')) (store cfg')
  /\ index (store cfg') <= N
  /\ (0 < c -> stopRequested (job (store cfg')) = false -> index (store cfg') = N).
Proof.
  intros HN Hacc.
  pose proof (spawn_accounted c st HN Hacc) as Hsp.
  pose proof (spawn_length W N body c st) as Hlen.
  destruct (spawn W N body c st) as [ws st1]. cbn [fst snd] in *.
  intros Ha. pose proof (await_all_fulfilled _ _ _ _ _ _ _ _ Ha) as Hall.
  apply await_all_steps in Ha as (done & _ & ->).
  pose proof (steps_accounted done _ Hsp) as (H1 & H2 & H3 & H4).
  pose proof (steps_pool_length W N body done {| pool := ws; store := st1 |}) as Hl.
  cbn [pool] in Hl. split; [exact H1 |]. split; [exact H2 |].
  intros Hc Hf. specialize (H4 Hf).
  destruct (pool (steps W N body done {| pool := ws; store := st1 |})) as [| w ws'].
  - simpl in Hl. lia.
  - apply Forall_cons in Hall as [-> _]. apply Forall_cons in H4 as [H4 _].
    specialize (H4 eq_refl). lia.
Qed.

End Accounting.

(** ** Group join, session by session *)

Lemma Obeys_await (P : Outcome -> Prop) (C : Event -> Prop) {T : Type} (c : Call T) :
  C (EvCall c) -> Obeys P C (fun _ => True) (await c).
Proof. intros Hc. split; [exact Hc |]. now intros [v | e]. Qed.

Lemma Obeys_await_catch (P : Outcome -> Prop) (C : Event -> Prop) {T : Type}
    (c : Call T) (d : T) :
  C (EvCall c) -> Obeys P C (fun _ => True) (await_catch c d).
Proof. intros Hc. split; [exact Hc |]. now intros [v | e]. Qed.

Lemma Obeys_delay (P : Outcome -> Prop) (C : Event -> Prop) (ms : N) :
  C (EvCall (Delay ms)) -> Obeys P C (fun _ => True) (delay ms).
Proof. intros Hc. split; [exact Hc |]. now intros v. Qed.

Lemma Obeys_stmt (P : Outcome -> Prop) (C : Event -> Prop) {T : Type} (s : Stmt T) :
  (forall r, pushed s = Some r -> P r) -> is_mkdir s = false ->
  Obeys P C (fun _ => True) (stmt s).
Proof. intros Hs Hm. split; [exact Hs |]. split; [exact Hm |]. now intros v. Qed.

(** The loop over the links navigates to the links it is given, and to
    nothing else. *)
Lemma visit_links_obeys (P : Outcome -> Prop) (C : Event -> Prop) joinSelector
    when_absent page :
  (forall ev, launched ev = None -> navigated ev = None -> C ev) ->
  (forall pg, Obeys P C (fun _ => True) (when_absent pg)) ->
  forall links t,
    (forall link, link ∈ links -> C (EvCall (Goto page link))) ->
    tally_ok t ->
    Obeys P C tally_ok (Join.visit_links joinSelector when_absent page links t).
Proof.
  intros HC Habs. induction links as [| link rest IH]; intros t Hgoto Ht;
    cbn [Join.visit_links].
  - exact Ht.
  - apply (Obeys_mbind P C (fun _ => True)); [now apply Obeys_stmt |].
    intros [] _; [exact Ht |].
    apply (Obeys_mbind P C tally_ok).
    2: { intros t' Ht'. apply IH; [| exact Ht']. intros l Hl. apply Hgoto. now right. }
    apply Obeys_try_catch; [| intros e; now apply record_error_ok].
    apply (Obeys_mbind P C (fun _ => True)); [apply Obeys_await, Hgoto; now left |].
    intros _ _.
    apply (Obeys_mbind P C (fun _ => True)); [apply Obeys_await_catch; now apply HC |].
    intros joinBtn _.
    apply (Obeys_mbind P C (fun _ => True)).
    + destruct joinBtn as [btn |].
      * apply (Obeys_mbind P C (fun _ => True)); [apply Obeys_delay; now apply HC |].
        intros _ _.
        apply (Obeys_mbind P C (fun _ => True)); [apply Obeys_await_catch; now apply HC |].
        intros _ _.
        apply (Obeys_mbind P C (fun _ => True)); [apply Obeys_delay; now apply HC |].
        intros _ _. exact I.
      * apply (Obeys_mbind P C (fun _ => True)); [apply Habs |]. intros _ _. exact I.
    + intros joined _. now apply record_visit_ok.
Qed.

Lemma Join_found_obeys (P : Outcome -> Prop) (C : Event -> Prop) joinSelector when_absent
    sessionPath groupsBySession sessName :
  (forall t, tally_ok t -> P (Join.finished sessName t)) ->
  (forall ev, launched ev = None -> navigated ev = None -> C ev) ->
  C (EvCall (Launch sessionPath)) ->
  (forall pg link, link ∈ default [] (groupsBySession !! sessName) ->
                   C (EvCall (Goto pg link))) ->
  (forall pg, Obeys P C (fun _ => True) (when_absent pg)) ->
  Obeys P C (fun ctl => ctl = Next)
    (Join_found joinSelector when_absent sessionPath groupsBySession sessName).
Proof.
  intros HP HC Hlaunch Hgoto Habs. unfold Join_found.
  apply (Obeys_mbind P C (fun _ => True)); [now apply Obeys_await |]. intros browser _.
  apply (Obeys_mbind P C (fun _ => True)); [now apply Obeys_stmt |]. intros _ _.
  apply (Obeys_mbind P C (fun _ => True)); [| intros _ _; reflexivity].
  apply Obeys_try_finally.
  - apply (Obeys_mbind P C (fun _ => True)); [apply Obeys_await; now apply HC |].
    intros page _.
    apply (Obeys_mbind P C tally_ok).
    + apply visit_links_obeys; [exact HC | exact Habs | apply Hgoto | reflexivity].
    + intros t Ht. apply Obeys_stmt; [| reflexivity]. intros r [= <-]. now apply HP.
  - apply (Obeys_mbind P C (fun _ => True)); [apply Obeys_await_catch; now apply HC |].
    intros _ _. now apply Obeys_stmt.
Qed.

(** When the profile directory exists, the iteration is its [else] branch. *)
Lemma Join_item_found W joinSelector when_absent userDir gbs sessName st :
  path_join userDir (sanitizeName sessName) ∈ dirs st ->
  run W (Join.item joinSelector when_absent userDir gbs sessName) st
  = run W (Join_found joinSelector when_absent
             (path_join userDir (sanitizeName sessName)) gbs sessName) st.
Proof.
  intros Hfound. unfold Join.item, Join_found. cbn -[path_join sanitizeName].
  rewrite bool_decide_eq_true_2 by assumption. reflexivity.
Qed.

(** The pool of group join, started on a store without records and calls
    in which the directories that exist are [D]. *)
Lemma Join_pool_accounts joinSelector when_absent W D userDir sessionNames gbs
    (sel : Outcome -> Prop) {sel_dec : forall r, Decision (sel r)} c st0 evs cfg' evs' :
  (forall pg, Obeys (fun _ => False)
                (fun ev => launched ev = None /\ navigated ev = None) (fun _ => True)
                (when_absent pg)) ->
  (forall r, Join_finished_on D userDir sessionNames r -> ~ sel r) ->
  index st0 = 0 -> results st0 = [] -> trace st0 = [] ->
  (forall p, p ∈ dirs st0 <-> p ∈ D) ->
  (let '(ws, st1) :=
     spawn W (length sessionNames)
       (Join.body joinSelector when_absent userDir gbs sessionNames) c st0 in
   await_all W (length sessionNames)
     (Join.body joinSelector when_absent userDir gbs sessionNames) evs
     {| pool := ws; store := st1 |})
  = Some (Fulfilled tt, cfg', evs') ->
  accounted (dirs st0) (Join_record_of D userDir sessionNames) sel
    (Join_call D userDir sessionNames gbs) (Join_sync D userDir sessionNames)
    (index (store cfg')) (store cfg')
  /\ index (store cfg') <= length sessionNames
  /\ (0 < c -> stopRequested (job (store cfg')) = false ->
      index (store cfg') = length sessionNames).
Proof.
  intros Habs Hsel Hi Hr Ht Hdirs.
  assert (Hother : forall ev, launched ev = None -> navigated ev = None ->
                     Join_call D userDir sessionNames gbs ev).
  { intros ev Hl Hn. split; [intros d Hd | intros url Hu]; congruence. }
  apply (pool_accounts W (length sessionNames) _ (dirs st0)
           (Join_record_of D userDir sessionNames)
           (Join_finished_on D userDir sessionNames) sel
           (Join_call D userDir sessionNames gbs) (Join_sync D userDir sessionNames)).
  - intros i r st Hlt Hs HD. unfold Join_sync in Hs. unfold Join.body.
    destruct (sessionNames !! i) as [sessName |]; [| discriminate].
    destruct (decide (path_join userDir (sanitizeName sessName) ∈ D))
      as [Hin | Hout]; [discriminate |].
    injection Hs as <-. apply Join_item_missing. rewrite HD, Hdirs. exact Hout.
  - intros i st Hlt Hs HD. unfold Join_sync in Hs. unfold Join.body.
    destruct (lookup_lt_is_Some_2 sessionNames i Hlt) as [sessName Hname].
    rewrite Hname in Hs |- *.
    assert (Hmem : sessName ∈ sessionNames) by (eapply list_elem_of_lookup_2, Hname).
    destruct (decide (path_join userDir (sanitizeName sessName) ∈ D))
      as [Hin | Hout]; [| discriminate].
    eexists. split; [apply Join_item_found; rewrite HD, Hdirs; exact Hin |].
    apply Join_found_obeys.
    + intros t Htally. exists sessName, t. repeat split; auto.
    + exact Hother.
    + split; [intros d [= <-]; exact Hin | intros url [=]].
    + intros pg link Hlink. split; [intros d [=] |]. intros url [= <-].
      exists sessName. repeat split; auto.
    + intros pg. eapply Obeys_weaken; [| | | apply Habs]; simpl; auto; try contradiction.
      intros ev [Hl Hn]. now apply Hother.
  - intros i r Hlt Hs. unfold Join_sync in Hs.
    destruct (sessionNames !! i) as [sessName |] eqn:Hname; [| discriminate].
    destruct (decide (path_join userDir (sanitizeName sessName) ∈ D))
      as [Hin | Hout]; [discriminate |].
    injection Hs as <-. right. exists sessName. repeat split; auto.
    eapply list_elem_of_lookup_2, Hname.
  - intros r Hr'. split; [now left | now apply Hsel].
  - rewrite Hi. lia.
  - rewrite Hi. unfold accounted. rewrite Hr, Ht. repeat split; constructor.
Qed.

(** The same for the whole call: when it resolves, its results are the
    records on the store; each of them is a record of group join read
    against the directories seen; the records selected by [sel] are those
    of the sessions claimed so far that have no profile directory; the
    calls are calls of sessions that have one; and unless the stop flag is
    raised every session was claimed. *)
Lemma Join_accounts joinSelector when_absent W existing jobId userId sessionNames
    groupLinks concurrency groupsPerSession evs r cfg evs'
    (sel : Outcome -> Prop) {sel_dec : forall r, Decision (sel r)} :
  (forall pg, Obeys (fun _ => False)
                (fun ev => launched ev = None /\ navigated ev = None) (fun _ => True)
                (when_absent pg)) ->
  let userDir := path_join (DATA_DIR W) userId in
  let D := dirs_seen W userId existing in
  (forall r, Join_finished_on D userDir sessionNames r -> ~ sel r) ->
  Join.startJoinGroups joinSelector when_absent W existing jobId userId sessionNames
    groupLinks concurrency groupsPerSession evs = Resolved r cfg evs' ->
  exists gbs,
    Partition.groupsBySession sessionNames groupLinks groupsPerSession = Some gbs
    /\ jret_results r = results (store cfg)
    /\ Forall (Join_record_of D userDir sessionNames) (results (store cfg))
    /\ filter sel (results (store cfg))
       = filter sel (omap (Join_sync D userDir sessionNames)
                       (seq 0 (index (store cfg))))
    /\ Forall (Join_call D userDir sessionNames gbs) (trace (store cfg))
    /\ index (store cfg) <= length sessionNames
    /\ (0 < concurrency -> stopRequested (job (store cfg)) = false ->
        index (store cfg) = length sessionNames).
Proof.
  intros Habs userDir D Hsel. unfold Join.startJoinGroups.
  rewrite ensureUserDir_run. fold userDir.
  assert (Hgen : forall st0,
            index st0 = 0 -> results st0 = [] -> trace st0 = [] ->
            (forall p, p ∈ dirs st0 <-> p ∈ D) ->
            match Partition.groupsBySession sessionNames groupLinks groupsPerSession with
            | Some groupsBySession =>
                let '(ws, st1) :=
                  spawn W (length sessionNames)
                    (Join.body joinSelector when_absent userDir groupsBySession
                       sessionNames) concurrency st0 in
                match await_all W (length sessionNames)
                        (Join.body joinSelector when_absent userDir groupsBySession
                           sessionNames) evs {| pool := ws; store := st1 |} with
                | Some (Fulfilled _, cfg0, evs0) =>
                    Resolved
                      {| jret_jobId := jobId;
                         jret_results := results (set_registered false (store cfg0)) |}
                      {| pool := pool cfg0; store := set_registered false (store cfg0) |}
                      evs0
                | Some (Rejected e, cfg0, evs0) => Failed e cfg0 evs0
                | None => Suspended
                end
            | None => Failed TypeError_undefined {| pool := []; store := st0 |} evs
            end = Resolved r cfg evs' ->
            exists gbs,
              Partition.groupsBySession sessionNames groupLinks groupsPerSession = Some gbs
              /\ jret_results r = results (store cfg)
              /\ Forall (Join_record_of D userDir sessionNames) (results (store cfg))
              /\ filter sel (results (store cfg))
                 = filter sel (omap (Join_sync D userDir sessionNames)
                                 (seq 0 (index (store cfg))))
              /\ Forall (Join_call D userDir sessionNames gbs) (trace (store cfg))
              /\ index (store cfg) <= length sessionNames
              /\ (0 < concurrency -> stopRequested (job (store cfg)) = false ->
                  index (store cfg) = length sessionNames)).
  { intros st0 Hi Hr Ht Hdirs.
    destruct (Partition.groupsBySession sessionNames groupLinks groupsPerSession)
      as [gbs |]; [| discriminate].
    pose proof (Join_pool_accounts joinSelector when_absent W D userDir
                  sessionNames gbs sel concurrency st0 evs) as Hpool.
    destruct (spawn W (length sessionNames) _ concurrency st0) as [ws st1].
    destruct (await_all _ _ _ evs _) as [[[[[] | e] cfg0] evs0] |]; try discriminate.
    intros [= <- <- <-]. cbn [jret_results store].
    destruct (Hpool cfg0 evs0 Habs Hsel Hi Hr Ht Hdirs eq_refl)
      as ((_ & HP & Hf & HC) & HN & Hall).
    exists gbs. repeat split; assumption. }
  destruct (bool_decide (userDir ∈ dirs (fresh_store existing))) eqn:Hex.
  - apply bool_decide_eq_true in Hex. apply Hgen; try reflexivity.
    intros p. cbn [dirs fresh_store] in *. unfold D, dirs_seen. fold userDir.
    rewrite elem_of_cons. split; [now right |]. intros [-> | Hin]; assumption.
  - destruct (mkdir_error W userDir); [discriminate |].
    apply Hgen; reflexivity.
Qed.

Lemma when_absent_V1_obeys pg :
  Obeys (fun _ => False) (fun ev => launched ev = None /\ navigated ev = None)
    (fun _ => True) (JoinV1.when_absent pg).
Proof. exact I. Qed.

Lemma when_absent_V2_obeys pg :
  Obeys (fun _ => False) (fun ev => launched ev = None /\ navigated ev = None)
    (fun _ => True) (JoinV2.when_absent pg).
Proof. unfold JoinV2.when_absent. apply Obeys_await_catch. now split. Qed.

Lemma Join_record_of_on D userDir sessionNames r :
  Join_record_of D userDir sessionNames r -> join_record_on D userDir sessionNames r.
Proof.
  intros [(sessName & t & Hin & Hdir & Ht & ->) | (sessName & Hin & Hdir & ->)];
    cbn [join_record_on Join.finished Join.missing]; (split; [exact Hin |]).
  - rewrite decide_True by exact Hdir. cbn [s_success s_failed s_total].
    repeat split. exact Ht.
  - rewrite decide_False by exact Hdir. reflexivity.
Qed.

(** ** Group join: the summaries are consistent *)

(** C10: whenever [startJoinGroups] resolves, in either copy, every record
    of its results is about one of the sessions; for a session whose
    profile directory exists it reports success with
    success + failed = total and total the number of entries of [groups];
    the "folder not found" record occurs only for a session whose profile
    directory does not exist.  The directories are those that exist when
    the sessions are looked at: the ones that existed at the call, and the
    user's directory.  The schedule is arbitrary: [stopAll] may be called
    at any point, also inside the loop over the links.  The session names
    are such that every profile directory is an entry of the user's
    directory. *)
Theorem joinGroups_summaries_consistent (W : World) (existing : list string)
    (jobId userId : string) (sessionNames groupLinks : list string)
    (concurrency groupsPerSession : nat) (evs : list SchedEvent)
    (r : JoinReturned) (cfg : Config) (evs' : list SchedEvent) :
  plain_names sessionNames ->
  JoinV1.startJoinGroups W existing jobId userId sessionNames groupLinks
    concurrency groupsPerSession evs = Resolved r cfg evs'
  \/ JoinV2.startJoinGroups W existing jobId userId sessionNames groupLinks
       concurrency groupsPerSession evs = Resolved r cfg evs' ->
  Forall (join_record_on (dirs_seen W userId existing) (path_join (DATA_DIR W) userId)
            sessionNames)
    (jret_results r).
Proof.
  intros _ H.
  assert (Hall : jret_results r = results (store cfg)
                 /\ Forall (Join_record_of (dirs_seen W userId existing)
                              (path_join (DATA_DIR W) userId) sessionNames)
                      (results (store cfg))).
  { destruct H as [H | H].
    - destruct (Join_accounts _ _ _ _ _ _ _ _ _ _ _ _ _ _ (fun _ => False)
                  when_absent_V1_obeys (fun _ _ F => F) H) as (gbs & _ & H1 & H2 & _).
      now split.
    - destruct (Join_accounts _ _ _ _ _ _ _ _ _ _ _ _ _ _ (fun _ => False)
                  when_absent_V2_obeys (fun _ _ F => F) H) as (gbs & _ & H1 & H2 & _).
      now split. }
  destruct Hall as [-> Hall]. eapply Forall_impl; [exact Hall |].
  intros o. apply Join_record_of_on.
Qed.

(** C10, witness: the default [DATA_DIR]; the profile directory of "A"
    exists, that of "B" does not; three links for "A"; [stopAll] is called
    while the first link settles, the loop is left, and the record counts
    one group. *)
Lemma joinGroups_summaries_consistent_witness :
  match JoinV1.startJoinGroups Examples.happy ["data/t1/A"] "job" "t1"
          ["A"; "B"] ["l1"; "l2"; "l3"] 1 3
          (repeat (Resume 0) 6 ++ [StopAllCalled] ++ repeat (Resume 0) 2) with
  | Resolved r _ _ =>
      Forall (join_record_on (dirs_seen Examples.happy "t1" ["data/t1/A"])
                (path_join (DATA_DIR Examples.happy) "t1") ["A"; "B"]) (jret_results r)
      /\ jret_results r
         = [JoinOutcome "A" true "Selesai"
              {| s_success := 1; s_failed := 0; s_total := 1 |}
              [{| g_group := "l1"; g_ok := true; g_message := None |}]]
  | _ => False
  end.
Proof.
  destruct (JoinV1.startJoinGroups _ _ _ _ _ _ _ _ _) as [| r cfg evs' | e cfg evs'] eqn:E.
  - vm_compute in E. discriminate.
  - split.
    + apply (joinGroups_summaries_consistent Examples.happy ["data/t1/A"] "job" "t1"
               ["A"; "B"] ["l1"; "l2"; "l3"] 1 3
               (repeat (Resume 0) 6 ++ [StopAllCalled] ++ repeat (Resume 0) 2)
               r cfg evs'); [| left; exact E].
      intros name Hin.
      apply elem_of_cons in Hin as [-> | Hin];
          [apply (bool_decide_unpack _); vm_compute; reflexivity |].
      apply elem_of_cons in Hin as [-> | Hin];
          [apply (bool_decide_unpack _); vm_compute; reflexivity |].
      now apply elem_of_nil in Hin.
    + vm_compute in E. injection E as <- _ _. reflexivity.
  - vm_compute in E. discriminate.
Defined.

(** ** Group join: a session without profile directory *)





(** Where the run is cancelled before the session is claimed, the session
    yields no record: [stopAll] is called while the worker is busy with "A",
    and "B", whose profile directory is missing, is never looked at. *)
Example joinGroups_cancelled_before_claim :
  match JoinV1.startJoinGroups Examples.happy ["data/t1"; "data/t1/A"] "job" "t1"
          ["A"; "B"] ["l1"; "l2"; "l3"] 1 2
          (repeat (Resume 0) 2 ++ [StopAllCalled] ++ repeat (Resume 0) 12) with
  | Resolved r cfg _ =>
      filter (fun o => session_of o = Some "B") (jret_results r) = []
      /\ stopRequested (job (store cfg)) = true
  | _ => False
  end.
Proof. vm_compute. split; reflexivity. Qed.

(** The session names on which the profile directory is not a directory
    below the user's directory: for the empty name and for [.] it is the
    user's directory itself, which exists, so a browser is launched on it;
    for [..] it is the parent of the user's directory. *)
Example odd_session_names :
  path_join "./data" "t1" = "data/t1"
  /\ path_join "data/t1" (sanitizeName EmptyString) = "data/t1"
  /\ path_join "data/t1" (sanitizeName ".") = "data/t1"
  /\ path_join "data/t1" (sanitizeName "..") = "data"
  /\ path_join "data/t1" (sanitizeName "fb 1") = "data/t1/fb_1"
  /\ match JoinV1.startJoinGroups Examples.happy ["data/t1"] "job" "t1"
             [EmptyString] ["l1"] 1 1 (repeat (Resume 0) 8) with
     | Resolved r cfg _ =>
         omap launched (trace (store cfg)) = ["data/t1"]
         /\ omap ok_field (jret_results r) = [true]
     | _ => False
     end.
Proof. vm_compute. repeat split; reflexivity. Qed.
